(** * Verification of the Earth Engine helper routines (gee_tools)

    The Python sources [s2cloudless.py] and [gee_functions.py] are clients of
    the Earth Engine service: every call on an [ee.Image] builds a node of a
    computation graph, and the service evaluates the graph when a value is
    fetched.  The development follows that split.

    - [Raster], [Band], [PropVal], [Feature]: the values the service computes.
    - [ImageE], [NumE], [ProjE], [CollE]: the graphs the client builds.
    - [eval_img] and friends: the meaning the service gives to a graph, after
      the Earth Engine API reference.  Neighbourhood and resampling operators
      are left to an [EarthEngine].
    - the functions of the two modules, under their Python names.
    - [Run]: the stages of [s2cloudless.py] once more, as runs over the state
      of the interpreter, for what a run reads and leaves behind. *)

From Stdlib Require Import QArith Ascii.
From stdpp Require Import base option list strings gmap pretty.

Set Warnings "-register-all".

(** ** Rational helpers *)

Definition Qltb (a b : Q) : bool := negb (Qle_bool b a).

Definition Qbit (b : bool) : Q := if b then 1%Q else 0%Q.

(** ** Values held by the service *)

Definition Pixel : Type := (Z * Z)%type.

(** A sample is [None] where the pixel is masked. *)
Definition Sample : Type := option Q.

Record Band := mkBand { band_name : string; band_px : Pixel → Sample }.

Inductive Raster :=
  | mkRaster (bands : list Band) (props : gmap string PropVal)
with PropVal :=
  | PNum (q : Q)
  | PStr (s : string)
  | PImg (r : Raster).

Definition r_bands (r : Raster) : list Band :=
  match r with mkRaster bs _ => bs end.

Definition r_props (r : Raster) : gmap string PropVal :=
  match r with mkRaster _ ps => ps end.

Definition band_names (r : Raster) : list string := band_name <$> r_bands r.

(** First band of that name. *)
Fixpoint find_band (bs : list Band) (n : string) : option (Pixel → Sample) :=
  match bs with
  | [] => None
  | b :: bs' => if decide (band_name b = n) then Some (band_px b)
                else find_band bs' n
  end.

Definition band_lookup (r : Raster) (n : string) : option (Pixel → Sample) :=
  find_band (r_bands r) n.

(** Band names are unique inside an image of the service. *)
Definition wf_raster (r : Raster) : Prop := NoDup (band_names r).

(** [Element.set]: overrides one property. *)
Definition raster_set (r : Raster) (k : string) (v : PropVal) : Raster :=
  mkRaster (r_bands r) (<[k:=v]> (r_props r)).

(** [Image.date().millis()] reads the acquisition time. *)
Definition date_millis (r : Raster) : option Q :=
  match r_props r !! "system:time_start" with
  | Some (PNum t) => Some t
  | _ => None
  end.

Inductive Geometry :=
  | Geometry_Polygon (coords : list (list (Q * Q))) (proj : string)
      (geodesic : bool)
  | Geometry_Rectangle (coords : list Q) (proj : string)
      (geodesic evenOdd : bool).

Record Feature := mkFeature {
  f_geometry : option Geometry;
  f_props : gmap string PropVal
}.

(** [Feature.set({k: v})]; a null value leaves the feature without [k]. *)
Definition feature_set (f : Feature) (k : string) (v : option PropVal) : Feature :=
  match v with
  | Some v => mkFeature (f_geometry f) (<[k:=v]> (f_props f))
  | None => mkFeature (f_geometry f) (delete k (f_props f))
  end.

(** ** Band selectors

    A selector of [Image.select] is an index or a regular expression that has
    to match the whole band name.  The sources use literal names and the
    pattern [B.*]; the matcher covers literals, [.] and a postfix [*]. *)

Module Regex.

Inductive atom := AChar (c : ascii) | AAny.

Definition atom_of (c : ascii) : atom :=
  if Ascii.eqb c "."%char then AAny else AChar c.

Fixpoint parse (re : string) : list (atom * bool) :=
  match re with
  | EmptyString => []
  | String c rest =>
      match rest with
      | String d rest' =>
          if Ascii.eqb d "*"%char then (atom_of c, true) :: parse rest'
          else (atom_of c, false) :: parse rest
      | EmptyString => [(atom_of c, false)]
      end
  end.

Definition atom_ok (a : atom) (c : ascii) : bool :=
  match a with AChar c' => Ascii.eqb c' c | AAny => true end.

Fixpoint run (p : list (atom * bool)) : string → bool :=
  match p with
  | [] => λ s, match s with EmptyString => true | _ => false end
  | (a, false) :: p' =>
      λ s, match s with
           | String c s' => atom_ok a c && run p' s'
           | EmptyString => false
           end
  | (a, true) :: p' =>
      fix star (s : string) : bool :=
        run p' s ||
        match s with
        | String c s' => atom_ok a c && star s'
        | EmptyString => false
        end
  end.

Definition matches (re s : string) : bool := run (parse re) s.

(** A pattern without metacharacters. *)
Fixpoint literal (re : string) : bool :=
  match re with
  | EmptyString => true
  | String c rest =>
      negb (Ascii.eqb c "."%char) && negb (Ascii.eqb c "*"%char) && literal rest
  end.

End Regex.

Inductive Selector :=
  | ByName (re : string)
  | ByIndex (i : nat).

Definition select_one (bs : list Band) (sel : Selector) : option (list Band) :=
  match sel with
  | ByName re =>
      match filter (λ b, Regex.matches re (band_name b) = true) bs with
      | [] => None
      | m => Some m
      end
  | ByIndex i => b ← bs !! i; Some [b]
  end.

Definition select_bands (bs : list Band) (sels : list Selector)
  : option (list Band) :=
  ls ← mapM (select_one bs) sels; Some (concat ls).

(** ** Naming of added bands

    [Image.addBands] without [overwrite] keeps a colliding band under a
    numbered name: [foo] becomes [foo_1] unless that exists, then [foo_2],
    and so on. *)

Definition suffixed (base : string) (k : nat) : string :=
  base +:+ "_" +:+ pretty k.

Fixpoint fresh_suffix (used : list string) (base : string) (k fuel : nat)
  : string :=
  match fuel with
  | O => suffixed base k
  | S fuel' =>
      if bool_decide (suffixed base k ∈ used)
      then fresh_suffix used base (S k) fuel'
      else suffixed base k
  end.

Definition fresh_name (used : list string) (base : string) : string :=
  if bool_decide (base ∈ used)
  then fresh_suffix used base 1 (length used)
  else base.

Definition add_band (bs : list Band) (b : Band) : list Band :=
  bs ++ [mkBand (fresh_name (band_name <$> bs) (band_name b)) (band_px b)].

Definition add_bands (dst src : list Band) : list Band :=
  foldl add_band dst src.

(** ** Pixel arithmetic

    A pixelwise operator yields a masked sample where any operand is masked.
    Comparisons yield 1 or 0. *)

Inductive binop := OpGt | OpLt | OpNeq | OpAdd | OpMultiply.

Definition binop_q (op : binop) (a b : Q) : Q :=
  match op with
  | OpGt => Qbit (Qltb b a)
  | OpLt => Qbit (Qltb a b)
  | OpNeq => Qbit (negb (Qeq_bool a b))
  | OpAdd => (a + b)%Q
  | OpMultiply => (a * b)%Q
  end.

Definition binop_px (op : binop) (s1 s2 : Sample) : Sample :=
  match s1, s2 with
  | Some a, Some b => Some (binop_q op a b)
  | _, _ => None
  end.

Definition not_px (s : Sample) : Sample :=
  match s with
  | Some a => Some (Qbit (Qeq_bool a 0))
  | None => None
  end.

(** [Image.mask()]: 1 where the pixel is valid, 0 where it is masked; the
    mask itself is valid everywhere. *)
Definition mask_px (s : Sample) : Sample :=
  match s with
  | Some _ => Some 1%Q
  | None => Some 0%Q
  end.

(** [Image.updateMask]: a pixel stays valid only where it was valid and the
    mask is valid and not zero. *)
Definition updateMask_px (s m : Sample) : Sample :=
  match s, m with
  | Some a, Some mv => if Qeq_bool mv 0 then None else Some a
  | _, _ => None
  end.

Definition map_band (f : (Pixel → Sample) → Pixel → Sample) (b : Band) : Band :=
  mkBand (band_name b) (f (band_px b)).

Definition pointwise (f : Sample → Sample) (g : Pixel → Sample) : Pixel → Sample :=
  λ x, f (g x).

Definition pointwise2 (f : Sample → Sample → Sample) (g h : Pixel → Sample)
  : Pixel → Sample :=
  λ x, f (g x) (h x).

(** Band matching of a binary operator: a single band on either side is used
    against every band of the other side, equal counts are paired in order;
    the output carries the band names of the longer side, of the left side
    when the counts are equal. *)
Definition zip_bands (f : Sample → Sample → Sample) (l r : list Band)
  : option (list Band) :=
  match r with
  | [b] => Some ((λ a, mkBand (band_name a) (pointwise2 f (band_px a) (band_px b))) <$> l)
  | _ =>
      match l with
      | [a] => Some ((λ b, mkBand (band_name b) (pointwise2 f (band_px a) (band_px b))) <$> r)
      | _ =>
          if decide (length l = length r)
          then Some (zip_with (λ a b, mkBand (band_name a)
                                 (pointwise2 f (band_px a) (band_px b))) l r)
          else None
      end
  end.

Definition rename_bands (bs : list Band) (names : list string)
  : option (list Band) :=
  if decide (length bs = length names)
  then Some (zip_with (λ b n, mkBand n (band_px b)) bs names)
  else None.

(** ** The engine of the service

    The catalogue of stored collections, projections, footprints, the
    normalised difference of two samples, the directional distance transform,
    resampling, the focal filters and the reducers belong to the service; the
    client only passes arguments to them. *)

Class EarthEngine := {
  eng_catalog : string → list Raster;
  eng_intersects : Geometry → Raster → bool;
  Reducer : Type;
  eng_reduceRegions :
    Raster → list Feature → Reducer → string → Q → option (list Feature);
  Projection : Type;
  eng_projection : (Pixel → Sample) → Projection;
  eng_normalizedDifference : Q → Q → Sample;
  eng_directionalDistanceTransform : (Pixel → Sample) → Q → Q → Pixel → Sample;
  eng_reproject : (Pixel → Sample) → Projection → Q → Pixel → Sample;
  eng_focalMin : (Pixel → Sample) → Q → Pixel → Sample;
  eng_focalMax : (Pixel → Sample) → Q → Pixel → Sample
}.

Definition nd_px `{EarthEngine} (s1 s2 : Sample) : Sample :=
  match s1, s2 with
  | Some a, Some b => eng_normalizedDifference a b
  | _, _ => None
  end.

(** ** Computation graphs built by the client *)

Inductive ImageE :=
  | Asset (r : Raster)
  | ImageOfProperty (img : ImageE) (key : string)
  | Constant (q : Q)
  | Select (img : ImageE) (sels : list Selector)
  | BinOp (op : binop) (a b : ImageE)
  | Not (a : ImageE)
  | Rename (a : ImageE) (names : list string)
  | AddBands (dst src : ImageE)
  | NormalizedDifference (a : ImageE) (bandNames : list string)
  | DirectionalDistanceTransform (a : ImageE) (angle : NumE) (maxDistance : Q)
  | Reproject (a : ImageE) (crs : ProjE) (scale : Q)
  | Mask (a : ImageE)
  | FocalMin (a : ImageE) (radius : Q)
  | FocalMax (a : ImageE) (radius : Q)
  | UpdateMask (a mask : ImageE)
with NumE :=
  | NumConst (q : Q)
  | NumOfProperty (img : ImageE) (key : string)
  | Subtract (a b : NumE)
with ProjE :=
  | ProjectionOf (img : ImageE).

(** Filters compare a field or a value on the left with a field or a value
    on the right; in a join the left side is read from the primary element
    and the right side from the secondary one. *)

Inductive Operand := Field (name : string) | Value (v : PropVal).

Inductive cmp := Equals | Lte.

Inductive Filter := Filter_cmp (c : cmp) (left right : Operand).

Definition Filter_lte (name : string) (value : Q) : Filter :=
  Filter_cmp Lte (Field name) (Value (PNum value)).

Definition Filter_equals (leftField rightField : string) : Filter :=
  Filter_cmp Equals (Field leftField) (Field rightField).

Inductive CollE :=
  | ImageCollection (id : string)
  | FilterDate (c : CollE) (start_date end_date : Q)
  | FilterBounds (c : CollE) (g : Geometry)
  | FilterBy (c : CollE) (f : Filter)
  | Join_saveFirst_apply (matchKey : string) (primary secondary : CollE)
      (condition : Filter).

Definition operand_val (o : Operand) (r : Raster) : option PropVal :=
  match o with
  | Field n => r_props r !! n
  | Value v => Some v
  end.

Definition cmp_holds (c : cmp) (a b : PropVal) : bool :=
  match c, a, b with
  | Equals, PNum x, PNum y => Qeq_bool x y
  | Equals, PStr x, PStr y => bool_decide (x = y)
  | Lte, PNum x, PNum y => Qle_bool x y
  | _, _, _ => false
  end.

Definition filter_holds (f : Filter) (l r : Raster) : bool :=
  match f with
  | Filter_cmp c lo ro =>
      match operand_val lo l, operand_val ro r with
      | Some a, Some b => cmp_holds c a b
      | _, _ => false
      end
  end.

(** [filterDate]: start inclusive, end exclusive. *)
Definition in_date_range (start_date end_date : Q) (r : Raster) : bool :=
  match date_millis r with
  | Some t => Qle_bool start_date t && Qltb t end_date
  | None => false
  end.

(** [Join.saveFirst]: each primary element that has a match is returned with
    the first matching secondary element stored under [matchKey]; without
    [outer], an element without a match is left out. *)
Definition join_saveFirst (matchKey : string) (condition : Filter)
  (primary secondary : list Raster) : list Raster :=
  omap (λ p, '(_, s) ← list_find (λ s, filter_holds condition p s = true) secondary;
             Some (raster_set p matchKey (PImg s)))
       primary.

(** ** Evaluation by the service *)

Section Eval.
Context `{EarthEngine}.

Fixpoint eval_img (e : ImageE) : option Raster :=
  match e with
  | Asset r => Some r
  | ImageOfProperty img key =>
      r ← eval_img img;
      match r_props r !! key with
      | Some (PImg r') => Some r'
      | _ => None
      end
  | Constant q => Some (mkRaster [mkBand "constant" (λ _, Some q)] ∅)
  | Select img sels =>
      r ← eval_img img;
      bs ← select_bands (r_bands r) sels;
      Some (mkRaster bs (r_props r))
  | BinOp op a b =>
      ra ← eval_img a;
      rb ← eval_img b;
      bs ← zip_bands (binop_px op) (r_bands ra) (r_bands rb);
      Some (mkRaster bs (r_props ra))
  | Not a =>
      r ← eval_img a;
      Some (mkRaster (map_band (pointwise not_px) <$> r_bands r) (r_props r))
  | Rename a names =>
      r ← eval_img a;
      bs ← rename_bands (r_bands r) names;
      Some (mkRaster bs (r_props r))
  | AddBands dst src =>
      rd ← eval_img dst;
      rs ← eval_img src;
      Some (mkRaster (add_bands (r_bands rd) (r_bands rs)) (r_props rd))
  | NormalizedDifference a bandNames =>
      r ← eval_img a;
      match bandNames with
      | [n1; n2] =>
          f1 ← band_lookup r n1;
          f2 ← band_lookup r n2;
          Some (mkRaster [mkBand "nd" (pointwise2 nd_px f1 f2)] ∅)
      | _ => None
      end
  | DirectionalDistanceTransform a angle maxDistance =>
      r ← eval_img a;
      az ← eval_num angle;
      match r_bands r with
      | [b] =>
          Some (mkRaster
                  [mkBand "distance"
                     (eng_directionalDistanceTransform (band_px b) az maxDistance)]
                  (r_props r))
      | _ => None
      end
  | Reproject a crs scale =>
      r ← eval_img a;
      p ← eval_proj crs;
      Some (mkRaster (map_band (λ f, eng_reproject f p scale) <$> r_bands r)
              (r_props r))
  | Mask a =>
      r ← eval_img a;
      Some (mkRaster (map_band (pointwise mask_px) <$> r_bands r) (r_props r))
  | FocalMin a radius =>
      r ← eval_img a;
      Some (mkRaster (map_band (λ f, eng_focalMin f radius) <$> r_bands r)
              (r_props r))
  | FocalMax a radius =>
      r ← eval_img a;
      Some (mkRaster (map_band (λ f, eng_focalMax f radius) <$> r_bands r)
              (r_props r))
  | UpdateMask a mask =>
      ra ← eval_img a;
      rm ← eval_img mask;
      match r_bands rm with
      | [m] =>
          Some (mkRaster
                  (map_band (λ f, pointwise2 updateMask_px f (band_px m))
                     <$> r_bands ra)
                  (r_props ra))
      | ms =>
          if decide (length (r_bands ra) = length ms)
          then Some (mkRaster
                       (zip_with (λ a m, mkBand (band_name a)
                                   (pointwise2 updateMask_px (band_px a) (band_px m)))
                          (r_bands ra) ms)
                       (r_props ra))
          else None
      end
  end
with eval_num (n : NumE) : option Q :=
  match n with
  | NumConst q => Some q
  | NumOfProperty img key =>
      r ← eval_img img;
      match r_props r !! key with
      | Some (PNum q) => Some q
      | _ => None
      end
  | Subtract a b =>
      x ← eval_num a;
      y ← eval_num b;
      Some (x - y)%Q
  end
with eval_proj (p : ProjE) : option Projection :=
  match p with
  | ProjectionOf img =>
      r ← eval_img img;
      match r_bands r with
      | [b] => Some (eng_projection (band_px b))
      | _ => None
      end
  end.

Fixpoint eval_coll (c : CollE) : list Raster :=
  match c with
  | ImageCollection id => eng_catalog id
  | FilterDate c start_date end_date =>
      filter (λ r, in_date_range start_date end_date r = true) (eval_coll c)
  | FilterBounds c g => filter (λ r, eng_intersects g r = true) (eval_coll c)
  | FilterBy c f => filter (λ r, filter_holds f r r = true) (eval_coll c)
  | Join_saveFirst_apply matchKey primary secondary condition =>
      join_saveFirst matchKey condition (eval_coll primary) (eval_coll secondary)
  end.

End Eval.

(** ** Client-side spelling of the calls

    [x |> f] reads as the Python method call [x.f(...)].  A Python number
    handed to an image operator is promoted to a constant image. *)

Notation "x |> f" := (f x) (at level 45, left associativity, only parsing).

Definition select (sel : Selector) (img : ImageE) : ImageE := Select img [sel].
Definition gt (q : Q) (img : ImageE) : ImageE := BinOp OpGt img (Constant q).
Definition lt (q : Q) (img : ImageE) : ImageE := BinOp OpLt img (Constant q).
Definition neq (q : Q) (img : ImageE) : ImageE := BinOp OpNeq img (Constant q).
Definition add (other : ImageE) (img : ImageE) : ImageE := BinOp OpAdd img other.
Definition multiply (other : ImageE) (img : ImageE) : ImageE :=
  BinOp OpMultiply img other.
Definition rename (n : string) (img : ImageE) : ImageE := Rename img [n].
Definition addBands (src : ImageE) (img : ImageE) : ImageE := AddBands img src.
Definition normalizedDifference (ns : list string) (img : ImageE) : ImageE :=
  NormalizedDifference img ns.
Definition directionalDistanceTransform (angle : NumE) (maxDistance : Q)
  (img : ImageE) : ImageE :=
  DirectionalDistanceTransform img angle maxDistance.
Definition reproject (crs : ProjE) (scale : Q) (img : ImageE) : ImageE :=
  Reproject img crs scale.
Definition mask (img : ImageE) : ImageE := Mask img.
Definition focalMin (radius : Q) (img : ImageE) : ImageE := FocalMin img radius.
Definition focalMax (radius : Q) (img : ImageE) : ImageE := FocalMax img radius.
Definition updateMask (m : ImageE) (img : ImageE) : ImageE := UpdateMask img m.
Definition projection (img : ImageE) : ProjE := ProjectionOf img.

(** [ee.Image(img.get(key))] and [ee.Number(img.get(key))]. *)
Definition ee_Image_get (key : string) (img : ImageE) : ImageE :=
  ImageOfProperty img key.
Definition ee_Number_get (key : string) (img : ImageE) : NumE :=
  NumOfProperty img key.

(** [ee.Image([i0, i1, ...])]: the client folds [addBands] over the list. *)
Definition ee_Image_list (first : ImageE) (rest : list ImageE) : ImageE :=
  foldl AddBands first rest.

(** ** s2cloudless.py *)

Module S2cloudless.

Local Open Scope Q_scope.

Definition CLOUD_FILTER : Q := 60.
Definition CLD_PRB_THRESH : Q := 40.
Definition NIR_DRK_THRESH : Q := 0.15.
Definition CLD_PRJ_DIST : Q := 1.
Definition BUFFER : Q := 100.

Definition get_s2_sr_cld_col (bounds : Geometry) (start_date end_date : Q)
  : CollE :=
  let _get_collection (coll : string) :=
    FilterBounds (FilterDate (ImageCollection coll) start_date end_date) bounds in
  let refl :=
    FilterBy (_get_collection "COPERNICUS/S2")
      (Filter_lte "CLOUDY_PIXEL_PERCENTAGE" CLOUD_FILTER) in
  let clouds := _get_collection "COPERNICUS/S2_CLOUD_PROBABILITY" in
  Join_saveFirst_apply "s2cloudless" refl clouds
    (Filter_equals "system:index" "system:index").

Definition add_cloud_bands (img : ImageE) : ImageE :=
  let cld_prb := img |> ee_Image_get "s2cloudless"
                     |> select (ByName "probability") in
  let is_cloud := cld_prb |> gt CLD_PRB_THRESH |> rename "clouds" in
  img |> addBands (ee_Image_list cld_prb [is_cloud]).

Definition add_shadow_bands (img : ImageE) (use_SCL : bool) : ImageE :=
  let SR_BAND_SCALE : Q := 1e4 in
  let not_water :=
    if use_SCL
    then img |> select (ByName "SCL") |> neq 6
    else img |> normalizedDifference ["B4"; "B2"] |> lt 0.2 in
  let dark_pixels :=
    img |> select (ByName "B8")
        |> lt (NIR_DRK_THRESH * SR_BAND_SCALE)
        |> multiply not_water
        |> rename "dark_pixels" in
  let shadow_azimuth :=
    Subtract (NumConst 90) (img |> ee_Number_get "MEAN_SOLAR_AZIMUTH_ANGLE") in
  let cld_proj :=
    img |> select (ByName "clouds")
        |> directionalDistanceTransform shadow_azimuth (CLD_PRJ_DIST * 10)
        |> reproject (img |> select (ByIndex 0) |> projection) 100
        |> select (ByName "distance")
        |> mask
        |> rename "cloud_transform" in
  let shadows := cld_proj |> multiply dark_pixels |> rename "shadows" in
  img |> addBands (ee_Image_list dark_pixels [cld_proj; shadows]).

Definition add_cld_shdw_mask (img : ImageE) (use_SCL : bool) : ImageE :=
  let img_cloud := add_cloud_bands img in
  let img_cloud_shadow := add_shadow_bands img_cloud use_SCL in
  let is_cld_shdw :=
    img_cloud_shadow |> select (ByName "clouds")
                     |> add (img_cloud_shadow |> select (ByName "shadows"))
                     |> gt 0 in
  let is_cld_shdw :=
    is_cld_shdw |> focalMin 2
                |> focalMax (BUFFER * 2 / 20)
                |> reproject (img |> select (ByIndex 0) |> projection) 20
                |> rename "cloudmask" in
  img_cloud_shadow |> addBands is_cld_shdw.

Definition apply_cld_shdw_mask (img : ImageE) : ImageE :=
  let not_cld_shdw := img |> select (ByName "cloudmask") |> Not in
  img |> select (ByName "B.*") |> updateMask not_cld_shdw.

End S2cloudless.

(** ** Python values and the client

    A call of [getInfo] is the only point where the client talks to the
    service.  A client computation threads the log of the objects it has
    asked for and either returns or raises. *)

Inductive PyVal :=
  | PyNone
  | PyNum (q : Q)
  | PyStr (s : string)
  | PyList (l : list PyVal)
  | PyTuple (l : list PyVal)
  | PyDict (items : list (string * PyVal))
  | PyDatetime (posix_seconds : Q).

Inductive Exn :=
  | AssertionError
  | NotImplementedError
  | TypeError
  | KeyError
  | ValueError
  | EEException.

Inductive Outcome (A : Type) :=
  | Ret (a : A)
  | Raise (e : Exn).
Arguments Ret {A} a.
Arguments Raise {A} e.

(** Table graphs: a stored table, or the flattened result of mapping a
    reduction over an image collection. *)
Inductive MappedE :=
  | Collection_map (c : CollE) (f : Raster → option (list Feature)).

Inductive FCE :=
  | Table (fs : list Feature)
  | Flatten (c : MappedE).

(** The objects a client can ask the service to compute. *)
Inductive ObjE :=
  | Image_get (img : ImageE) (key : string)
  | First_propertyNames (fc : FCE)
  | Size (o : ObjE)
  | ReduceColumns_toList (fc : FCE) (tupleSize : nat) (selectors : PyVal)
  | ReduceColumns_repeat (fc : FCE) (count : ObjE) (selectors : ObjE)
  | Dictionary_fromLists (keys vals : ObjE)
  | Mapped_first (c : MappedE).

Class Service := { answer : ObjE → Outcome PyVal }.

Definition Client (A : Type) : Type := list ObjE → Outcome A * list ObjE.

Definition ret {A} (a : A) : Client A := λ log, (Ret a, log).

Definition raise {A} (e : Exn) : Client A := λ log, (Raise e, log).

Definition bind {A B} (m : Client A) (k : A → Client B) : Client B :=
  λ log, match m log with
         | (Ret a, log') => k a log'
         | (Raise e, log') => (Raise e, log')
         end.

Notation "'do' x <- m ; k" := (bind m (λ x, k))
  (at level 10, x name, m at level 100, k at level 200,
   format "'[v' 'do'  x  <-  m ; '/' k ']'").
Notation "'do_' m ; k" := (bind m (λ _, k))
  (at level 10, m at level 100, k at level 200,
   format "'[v' 'do_'  m ; '/' k ']'").

(** [ComputedObject.getInfo(self)] of the Python client takes no argument
    besides the object: a call that passes one is rejected by Python with a
    [TypeError] before the method body runs.  Otherwise the object is sent to
    the service and the call blocks until the answer is back. *)
Definition getInfo `{Service} (args : list (PyVal → PyVal)) (obj : ObjE)
  : Client PyVal :=
  match args with
  | [] => λ log, (answer obj, log ++ [obj])
  | _ :: _ => raise TypeError
  end.

Definition py_assert (b : bool) : Client unit :=
  if b then ret tt else raise AssertionError.

Definition isinstance_list (v : PyVal) : bool :=
  match v with PyList _ => true | _ => false end.

Definition py_len (v : PyVal) : Client nat :=
  match v with
  | PyList l | PyTuple l => ret (length l)
  | PyDict items => ret (length items)
  | PyStr s => ret (String.length s)
  | _ => raise TypeError
  end.

Definition py_getitem (v : PyVal) (k : string) : Client PyVal :=
  match v with
  | PyDict items =>
      match list_find (λ kv, kv.1 = k) items with
      | Some (_, kv) => ret kv.2
      | None => raise KeyError
      end
  | _ => raise TypeError
  end.

Definition py_keys (v : PyVal) : Client PyVal :=
  match v with
  | PyDict items => ret (PyList ((λ kv, PyStr kv.1) <$> items))
  | _ => raise TypeError
  end.

Definition py_mul (v : PyVal) (q : Q) : Client PyVal :=
  match v with
  | PyNum x => ret (PyNum (x * q))
  | _ => raise TypeError
  end.

(** [datetime.fromtimestamp]: the datetime is kept as its POSIX time in
    seconds; the rendering in the local time zone is not modelled. *)
Definition datetime_fromtimestamp (v : PyVal) : Client PyVal :=
  match v with
  | PyNum x => ret (PyDatetime x)
  | _ => raise TypeError
  end.

Fixpoint for_each {A B} (f : A → Client B) (l : list A) : Client (list B) :=
  match l with
  | [] => ret []
  | a :: l' => do b <- f a; do bs <- for_each f l'; ret (b :: bs)
  end.

(** ** A column-wise picture of [pandas.DataFrame] *)

Record DataFrame := mkDataFrame {
  df_data : list (string * list PyVal);
  df_index : option (list PyVal)
}.

Definition df_columns (df : DataFrame) : list string := fst <$> df_data df.

Definition py_str (v : PyVal) : Client string :=
  match v with
  | PyStr s => ret s
  | _ => raise TypeError
  end.

Definition row_cells (ncols : nat) (row : PyVal) : Client (list PyVal) :=
  match row with
  | PyList cells | PyTuple cells =>
      if decide (length cells = ncols) then ret cells else raise ValueError
  | v => if decide (ncols = 1) then ret [v] else raise ValueError
  end.

(** [pd.DataFrame(data, columns=columns)] on a list of rows. *)
Definition pd_DataFrame (data columns : PyVal) : Client DataFrame :=
  match data, columns with
  | PyList rows, PyList cols =>
      do names <- for_each py_str cols;
      do cells <- for_each (row_cells (length names)) rows;
      ret (mkDataFrame
             (imap (λ j n, (n, (λ row, default PyNone (row !! j)) <$> cells)) names)
             None)
  | _, _ => raise ValueError
  end.

(** [pd.DataFrame(d)] on a dict of columns. *)
Definition pd_DataFrame_dict (data : PyVal) : Client DataFrame :=
  match data with
  | PyDict items =>
      do cols <- for_each (λ kv, match kv.2 with
                                 | PyList cells => ret (kv.1, cells)
                                 | _ => raise ValueError
                                 end) items;
      ret (mkDataFrame cols None)
  | _ => raise ValueError
  end.

Definition df_getitem (df : DataFrame) (c : string) : Client (list PyVal) :=
  match list_find (λ kv, kv.1 = c) (df_data df) with
  | Some (_, kv) => ret kv.2
  | None => raise KeyError
  end.

Definition df_setitem (df : DataFrame) (c : string) (cells : list PyVal)
  : DataFrame :=
  match list_find (λ kv, kv.1 = c) (df_data df) with
  | Some (i, _) => mkDataFrame (<[i:=(c, cells)]> (df_data df)) (df_index df)
  | None => mkDataFrame (df_data df ++ [(c, cells)]) (df_index df)
  end.

Definition df_set_index (df : DataFrame) (cells : list PyVal) : DataFrame :=
  mkDataFrame (df_data df) (Some cells).

(** [pd.to_datetime(column, unit='ms')]. *)
Definition pd_to_datetime_ms (cells : list PyVal) : Client (list PyVal) :=
  for_each (λ v, match v with
                 | PyNum ms => ret (PyDatetime (ms / 1000))
                 | _ => raise ValueError
                 end) cells.

(** A shapely polygon, as far as [shapely_to_ee_poly] reads it. *)
Record ShapelyPolygon := mkShapelyPolygon { exterior_xy : list Q * list Q }.

(** ** gee_functions.py *)

Module GeeFunctions.

Local Open Scope Q_scope.

Definition CRS : string := "epsg:3413".

Definition shapely_to_ee_poly (geom : ShapelyPolygon) (crs : string) : Geometry :=
  let '(xx, yy) := exterior_xy geom in
  let eep := Geometry_Polygon [zip xx yy] crs false in
  eep.

Definition make_roi (xmin ymin xmax ymax : Q) (crs : string) : Geometry :=
  let roi := Geometry_Rectangle [xmin; ymin; xmax; ymax] crs false true in
  roi.

Section WithEngine.
Context `{EarthEngine}.

(** The Python defaults are [add_date=True], [add_props=None], [crs=CRS]
    and [scale=20].  The returned closure is what the service maps over
    the images of a collection. *)
Definition create_reduce_regions (collection : list Feature)
  (reducer : Reducer) (add_date : bool) (add_props : option (list string))
  (crs : string) (scale : Q) : Raster → option (list Feature) :=
  let reduce_regions (img : Raster) : option (list Feature) :=
    d ← eng_reduceRegions img collection reducer crs scale;
    let set_props (props : list string) (f : Feature) : Feature :=
      foldl (λ f kw, feature_set f kw (r_props img !! kw)) f props in
    let d := match add_props with
             | Some props => set_props props <$> d
             | None => d
             end in
    if add_date then
      let set_date (f : Feature) : option Feature :=
        millis ← date_millis img;
        Some (feature_set f "millis" (Some (PNum millis))) in
      let dd := mapM set_date d in
      dd
    else Some d
  in reduce_regions.

End WithEngine.

Section WithService.
Context `{Service}.

Definition get_date (im : ImageE) (attr : string) : Client PyVal :=
  let cb : PyVal → PyVal := λ im, PyNum 0 in
  do time_ms <- getInfo [cb] (Image_get im "system:time_start");
  do seconds <- py_mul time_ms 1e-3;
  datetime_fromtimestamp seconds.

Definition fc_to_dict (fc : FCE) : Client ObjE :=
  do_ raise (A:=unit) NotImplementedError;
  let prop_names := First_propertyNames fc in
  let prop_lists := ReduceColumns_repeat fc (Size prop_names) prop_names in
  ret (Dictionary_fromLists prop_names prop_lists).

Definition fc_to_df (fc : FCE) (selectors : PyVal) : Client DataFrame :=
  do sel <- match selectors with
            | PyNone =>
                do selectors <- getInfo [] (First_propertyNames fc);
                do selectors_n <- py_len selectors;
                ret (selectors, selectors_n)
            | _ =>
                do_ py_assert (isinstance_list selectors);
                do selectors_n <- py_len selectors;
                ret (selectors, selectors_n)
            end;
  let '(selectors, selectors_n) := sel in
  do as_list <- getInfo [] (ReduceColumns_toList fc selectors_n selectors);
  do df <- pd_DataFrame as_list selectors;
  if bool_decide ("millis" ∈ df_columns df) then
    do millis <- df_getitem df "millis";
    do timestamp <- pd_to_datetime_ms millis;
    let df := df_setitem df "timestamp" timestamp in
    do timestamp <- df_getitem df "timestamp";
    ret (df_set_index df timestamp)
  else ret df.

Definition create_df (dictobj : FCE) : Client DataFrame :=
  do_ raise (A:=unit) NotImplementedError;
  do d <- fc_to_dict dictobj;
  do tmp <- getInfo [] d;
  do df <- pd_DataFrame_dict tmp;
  do millis <- df_getitem df "millis";
  do timestamp <- pd_to_datetime_ms millis;
  let df := df_setitem df "timestamp" timestamp in
  do timestamp <- df_getitem df "timestamp";
  ret (df_set_index df timestamp).

Definition get_timeseries (collection : CollE)
  (reduce_function : Raster → option (list Feature)) (selectors : PyVal)
  : Client DataFrame :=
  let ts := Collection_map collection reduce_function in
  do selectors <- match selectors with
                  | PyNone =>
                      do info <- getInfo [] (Mapped_first ts);
                      do columns <- py_getitem info "columns";
                      py_keys columns
                  | _ => ret selectors
                  end;
  let ts_f := Flatten ts in
  let ts_pd := fc_to_df ts_f selectors in
  ts_pd.

End WithService.

End GeeFunctions.

(** ** Vocabulary of the statements *)

(** Names selected by the pattern [B.*]. *)
Definition reflectance_name (n : string) : Prop := ∃ t, n = String "B" t.

(** A sample that is 1, 0 or masked. *)
Definition is_bit (s : Sample) : Prop :=
  s = Some 1%Q ∨ s = Some 0%Q ∨ s = None.

(** [l'] has every name of [l] and one more. *)
Definition strict_superset (l l' : list string) : Prop :=
  l ⊆ l' ∧ ∃ n, n ∈ l' ∧ n ∉ l.

(** The not-water layer that [add_shadow_bands] derives from the bands. *)
Definition not_water_of `{EarthEngine} (use_SCL : bool) (r : Raster)
  : option (Pixel → Sample) :=
  if use_SCL
  then scl ← band_lookup r "SCL";
       Some (λ x, binop_px OpNeq (scl x) (Some 6%Q))
  else b4 ← band_lookup r "B4";
       b2 ← band_lookup r "B2";
       Some (λ x, binop_px OpLt (nd_px (b4 x) (b2 x)) (Some 0.2%Q)).

(** The image handed to the outermost [addBands] of a graph. *)
Definition added_image (e : ImageE) : option ImageE :=
  match e with
  | AddBands _ src => Some src
  | _ => None
  end.

(** Reading a graph of the shape
    [src.focalMin(r1).focalMax(r2).reproject(crs, scale).rename(names)]. *)
Record Morphology := mkMorphology {
  morph_source : ImageE;
  erode_radius : Q;
  dilate_radius : Q;
  morph_crs : ProjE;
  morph_scale : Q;
  morph_names : list string
}.

Definition morphology (e : ImageE) : option Morphology :=
  match e with
  | Rename (Reproject (FocalMax (FocalMin src r1) r2) crs scale) names =>
      Some (mkMorphology src r1 r2 crs scale names)
  | _ => None
  end.

Definition same_index (p s : Raster) : Prop :=
  filter_holds (Filter_equals "system:index" "system:index") p s = true.

(** [s] is the first element of [secondary] with the index of [p]. *)
Definition first_match (p : Raster) (secondary : list Raster) (s : Raster) : Prop :=
  ∃ i, secondary !! i = Some s ∧ same_index p s ∧
       ∀ j s', secondary !! j = Some s' → j < i → ¬ same_index p s'.

(** ** A small engine and scene for worked examples

    Every band is uniform, so the neighbourhood operators and resampling
    leave the samples unchanged; the distance transform is defined on cloud
    pixels only. *)

Definition uniform (n : string) (q : Q) : Band := mkBand n (λ _, Some q).

Definition prob_x1 : Raster :=
  mkRaster [uniform "probability" 50]
    (<["system:index" := PStr "x1"]> {["system:time_start" := PNum 1000]}).

Definition scene_x1 : Raster :=
  mkRaster [uniform "B4" 900; uniform "B8" 1000; uniform "SCL" 6]
    (<["system:index" := PStr "x1"]>
       (<["system:time_start" := PNum 1000]>
          (<["CLOUDY_PIXEL_PERCENTAGE" := PNum 10]>
             {["MEAN_SOLAR_AZIMUTH_ANGLE" := PNum 160]}))).

Definition scene_x2 : Raster :=
  mkRaster [uniform "B4" 800; uniform "B8" 2000; uniform "SCL" 4]
    (<["system:index" := PStr "x2"]>
       (<["system:time_start" := PNum 2000]>
          (<["CLOUDY_PIXEL_PERCENTAGE" := PNum 20]>
             {["MEAN_SOLAR_AZIMUTH_ANGLE" := PNum 150]}))).

(** [scene_x1] as the join returns it. *)
Definition scene : Raster := raster_set scene_x1 "s2cloudless" (PImg prob_x1).

(** The scene with cloud bands, and a scene with a mask. *)
Definition cloud_scene : Raster :=
  mkRaster (r_bands scene ++ [uniform "probability" 50; uniform "clouds" 1])
    (r_props scene).

Definition masked_scene : Raster :=
  mkRaster [uniform "B4" 900; uniform "B8" 1000; uniform "cloudmask" 1]
    (r_props scene).

Definition flat_engine : EarthEngine := {|
  eng_catalog id :=
    if bool_decide (id = "COPERNICUS/S2") then [scene_x1; scene_x2]
    else if bool_decide (id = "COPERNICUS/S2_CLOUD_PROBABILITY") then [prob_x1]
    else [];
  eng_intersects _ _ := true;
  Reducer := unit;
  eng_reduceRegions img fs _ _ _ :=
    Some ((λ f, feature_set f "first"
                  (PNum <$> (head (r_bands img) ≫= λ b, band_px b (0, 0)%Z)))
            <$> fs);
  Projection := unit;
  eng_projection _ := tt;
  eng_normalizedDifference a b :=
    if Qeq_bool (a + b) 0 then None else Some ((a - b) / (a + b))%Q;
  eng_directionalDistanceTransform f _ _ :=
    λ x, match f x with
         | Some v => if Qeq_bool v 0 then None else Some 0%Q
         | None => None
         end;
  eng_reproject f _ _ := f;
  eng_focalMin f _ := f;
  eng_focalMax f _ := f
|}.

(** A service that answers property requests on images with the engine above
    and fails on every other request. *)
Definition flat_service : Service := {|
  answer obj :=
    match obj with
    | Image_get img key =>
        match @eval_img flat_engine img with
        | Some r =>
            match r_props r !! key with
            | Some (PNum q) => Ret (PyNum q)
            | Some (PStr s) => Ret (PyStr s)
            | _ => Ret PyNone
            end
        | None => Raise EEException
        end
    | _ => Raise EEException
    end
|}.

Definition region_a : Feature := mkFeature None {["name" := PStr "a"]}.
Definition region_b : Feature := mkFeature None {["name" := PStr "b"]}.

(** ** Further vocabulary and example data *)

(** First character of a band name. *)
Definition head_char (s : string) : option ascii :=
  match s with
  | String c _ => Some c
  | EmptyString => None
  end.

(** Names that start like the bands the pipeline derives: [probability],
    [clouds], [dark_pixels], [cloud_transform], [shadows], [cloudmask] and
    their numbered variants. *)
Definition derived_name (n : string) : Prop :=
  ∃ c, head_char n = Some c ∧
       (c = "p" ∨ c = "c" ∨ c = "d" ∨ c = "s")%char.

(** [r'] has the properties of [r] and the bands of [r], in place, followed
    by further bands. *)
Definition keeps_input (r r' : Raster) : Prop :=
  r_props r' = r_props r ∧ ∃ ext, r_bands r' = r_bands r ++ ext.

(** [r'] keeps [r] and every further band name is a derived one. *)
Definition extends_derived (r r' : Raster) : Prop :=
  keeps_input r r' ∧
  ∀ n, n ∈ band_names r' → n ∈ band_names r ∨ derived_name n.

(** An operator on bands that sends bands of 0, 1 and masked samples to such
    bands. *)
Definition keeps_bits (op : (Pixel → Sample) → Pixel → Sample) : Prop :=
  ∀ f, (∀ x, is_bit (f x)) → ∀ x, is_bit (op f x).

(** A client computation that sends nothing to the service. *)
Definition silent {A} (m : Client A) : Prop := ∀ log, ∃ out, m log = (out, log).

(** The second half of [fc_to_df]: fetch the rows of the selected columns and
    build the frame. *)
Abbreviation fc_to_df_fetch fc selectors selectors_n :=
  (do as_list <- getInfo [] (ReduceColumns_toList fc selectors_n selectors);
   do df <- pd_DataFrame as_list selectors;
   if bool_decide ("millis" ∈ df_columns df)
   then do millis <- df_getitem df "millis";
        do timestamp <- pd_to_datetime_ms millis;
        let df := df_setitem df "timestamp" timestamp in
        do timestamp <- df_getitem df "timestamp";
        ret (df_set_index df timestamp)
   else ret df).

(** Every column of the frame has [n] cells. *)
Definition df_height (df : DataFrame) (n : nat) : Prop :=
  Forall (λ kv, length kv.2 = n) (df_data df).

(** A millisecond cell and the datetime [pd.to_datetime] makes of it. *)
Definition datetime_of_ms (v t : PyVal) : Prop :=
  ∃ ms, v = PyNum ms ∧ t = PyDatetime (ms / 1000).

(** A property value as the client receives it. *)
Definition py_of_prop (v : option PropVal) : PyVal :=
  match v with
  | Some (PNum q) => PyNum q
  | Some (PStr s) => PyStr s
  | _ => PyNone
  end.

(** A service for stored tables: it answers with the property names of the
    first feature and with the rows of the selected properties, and fails on
    every other request. *)
Definition table_service : Service := {|
  answer obj :=
    match obj with
    | First_propertyNames (Table (f :: _)) =>
        Ret (PyList (PyStr <$> (map_to_list (f_props f)).*1))
    | ReduceColumns_toList (Table fs) _ (PyList sels) =>
        Ret (PyList ((λ f, PyList ((λ s, match s with
                                         | PyStr k => py_of_prop (f_props f !! k)
                                         | _ => PyNone
                                         end) <$> sels)) <$> fs))
    | _ => Raise EEException
    end
|}.

(** A stored table of two features with a reduced value and a time. *)
Definition dated_table : FCE :=
  Table [mkFeature None (<["millis" := PNum 1000]> {["first" := PNum 900]});
         mkFeature None (<["millis" := PNum 2000]> {["first" := PNum 800]})].

(** ** The interpreter's side of a call to [s2cloudless.py]

    The functions of the module look their thresholds up in the global
    variables of the module each time they are called, and a caller can
    rebind those between two calls.  A call is therefore a computation over
    the state of the interpreter: the values the module's globals are bound
    to, and the numbers the random generator will hand out next.  The
    definitions below are the four stages once more, line by line, with
    every use of a global written as a read of that state. *)

Record Globals := mkGlobals {
  g_CLOUD_FILTER : Q;
  g_CLD_PRB_THRESH : Q;
  g_NIR_DRK_THRESH : Q;
  g_CLD_PRJ_DIST : Q;
  g_BUFFER : Q
}.

Record PyState := mkPyState {
  py_globals : Globals;
  py_random : list Q
}.

Definition Py (A : Type) : Type := PyState → A * PyState.

Definition py_ret {A} (a : A) : Py A := λ s, (a, s).

Definition py_bind {A B} (m : Py A) (k : A → Py B) : Py B :=
  λ s, let '(a, s') := m s in k a s'.

Notation "'py_do' x <- m ; k" := (py_bind m (λ x, k))
  (at level 10, x name, m at level 100, k at level 200,
   format "'[v' 'py_do'  x  <-  m ; '/' k ']'").

(** The value a global of the module is bound to at the time of the call. *)
Definition load_global (name : Globals → Q) : Py Q :=
  λ s, (name (py_globals s), s).

(** The state right after the module is imported, lines 10 to 14. *)
Definition imported (random : list Q) : PyState :=
  mkPyState (mkGlobals 60 40 0.15 1 100) random.

Module Run.

Local Open Scope Q_scope.

Definition add_cloud_bands (img : ImageE) : Py ImageE :=
  let cld_prb := img |> ee_Image_get "s2cloudless"
                     |> select (ByName "probability") in
  py_do CLD_PRB_THRESH <- load_global g_CLD_PRB_THRESH;
  let is_cloud := cld_prb |> gt CLD_PRB_THRESH |> rename "clouds" in
  py_ret (img |> addBands (ee_Image_list cld_prb [is_cloud])).

Definition add_shadow_bands (img : ImageE) (use_SCL : bool) : Py ImageE :=
  let SR_BAND_SCALE : Q := 1e4 in
  let not_water :=
    if use_SCL
    then img |> select (ByName "SCL") |> neq 6
    else img |> normalizedDifference ["B4"; "B2"] |> lt 0.2 in
  py_do NIR_DRK_THRESH <- load_global g_NIR_DRK_THRESH;
  let dark_pixels :=
    img |> select (ByName "B8")
        |> lt (NIR_DRK_THRESH * SR_BAND_SCALE)
        |> multiply not_water
        |> rename "dark_pixels" in
  let shadow_azimuth :=
    Subtract (NumConst 90) (img |> ee_Number_get "MEAN_SOLAR_AZIMUTH_ANGLE") in
  py_do CLD_PRJ_DIST <- load_global g_CLD_PRJ_DIST;
  let cld_proj :=
    img |> select (ByName "clouds")
        |> directionalDistanceTransform shadow_azimuth (CLD_PRJ_DIST * 10)
        |> reproject (img |> select (ByIndex 0) |> projection) 100
        |> select (ByName "distance")
        |> mask
        |> rename "cloud_transform" in
  let shadows := cld_proj |> multiply dark_pixels |> rename "shadows" in
  py_ret (img |> addBands (ee_Image_list dark_pixels [cld_proj; shadows])).

Definition add_cld_shdw_mask (img : ImageE) (use_SCL : bool) : Py ImageE :=
  py_do img_cloud <- add_cloud_bands img;
  py_do img_cloud_shadow <- add_shadow_bands img_cloud use_SCL;
  let is_cld_shdw :=
    img_cloud_shadow |> select (ByName "clouds")
                     |> add (img_cloud_shadow |> select (ByName "shadows"))
                     |> gt 0 in
  py_do BUFFER <- load_global g_BUFFER;
  let is_cld_shdw :=
    is_cld_shdw |> focalMin 2
                |> focalMax (BUFFER * 2 / 20)
                |> reproject (img |> select (ByIndex 0) |> projection) 20
                |> rename "cloudmask" in
  py_ret (img_cloud_shadow |> addBands is_cld_shdw).

Definition apply_cld_shdw_mask (img : ImageE) : Py ImageE :=
  let not_cld_shdw := img |> select (ByName "cloudmask") |> Not in
  py_ret (img |> select (ByName "B.*") |> updateMask not_cld_shdw).

End Run.

(** Two states of the interpreter in which the four globals that the stages
    read are bound to the same values; the other global and the random
    generator may differ. *)
Definition same_thresholds (s1 s2 : PyState) : Prop :=
  g_CLD_PRB_THRESH (py_globals s1) = g_CLD_PRB_THRESH (py_globals s2) ∧
  g_NIR_DRK_THRESH (py_globals s1) = g_NIR_DRK_THRESH (py_globals s2) ∧
  g_CLD_PRJ_DIST (py_globals s1) = g_CLD_PRJ_DIST (py_globals s2) ∧
  g_BUFFER (py_globals s1) = g_BUFFER (py_globals s2).


Set Warnings "-clear-no-such-hyp".

(** * Lemmas *)

Import S2cloudless GeeFunctions.

(** ** Regular expressions *)

Lemma matches_literal re s :
  Regex.literal re = true → Regex.matches re s = true ↔ s = re.
Proof.
  unfold Regex.matches. revert s.
  induction re as [|c rest IH]; intros s Hl.
  - destruct s; cbn; naive_solver.
  - cbn [Regex.literal] in Hl.
    apply andb_prop in Hl as [Hc Hrest]. apply andb_prop in Hc as [Hdot _].
    apply negb_true_iff in Hdot.
    assert (Hp : Regex.parse (String c rest)
                 = (Regex.AChar c, false) :: Regex.parse rest).
    { cbn [Regex.parse]. unfold Regex.atom_of. rewrite Hdot.
      destruct rest as [|d rest']; [done|].
      cbn [Regex.literal] in Hrest.
      apply andb_prop in Hrest as [Hd _]. apply andb_prop in Hd as [_ Hstar].
      apply negb_true_iff in Hstar. by rewrite Hstar. }
    rewrite Hp. cbn [Regex.run].
    destruct s as [|d s]; [naive_solver|].
    rewrite andb_true_iff, IH by done. cbn. rewrite Ascii.eqb_eq.
    naive_solver.
Qed.

Lemma star_any_true t :
  Regex.run [(Regex.AAny, true)] t = true.
Proof. induction t as [|d t IH]; [done|]. cbn in *. exact IH. Qed.

Lemma parse_B_any :
  Regex.parse "B.*" = [(Regex.AChar "B", false); (Regex.AAny, true)].
Proof. reflexivity. Qed.

Lemma matches_B_any s :
  Regex.matches "B.*" s = true ↔ ∃ t, s = String "B" t.
Proof.
  unfold Regex.matches. rewrite parse_B_any.
  destruct s as [|c s]; [cbn; naive_solver|].
  change (Regex.run [(Regex.AChar "B", false); (Regex.AAny, true)] (String c s))
    with (Ascii.eqb "B" c && Regex.run [(Regex.AAny, true)] s).
  rewrite star_any_true, andb_true_r, Ascii.eqb_eq. naive_solver.
Qed.

(** ** Fresh band names *)

Lemma suffixed_inj base j k : suffixed base j = suffixed base k → j = k.
Proof.
  unfold suffixed. intros Heq.
  apply (inj (String.app base)) in Heq.
  apply (inj (String.app "_")) in Heq.
  by apply (inj pretty) in Heq.
Qed.

Lemma fresh_suffix_fresh used base fuel :
  ∀ k (pending : list string),
    length pending ≤ fuel →
    (∀ j, k ≤ j → suffixed base j ∈ used → suffixed base j ∈ pending) →
    fresh_suffix used base k fuel ∉ used.
Proof.
  induction fuel as [|fuel IH]; intros k pending Hlen Hpend; cbn.
  - destruct pending; [|cbn in Hlen; lia].
    intros Hin. apply Hpend in Hin; [|lia]. by apply not_elem_of_nil in Hin.
  - case_bool_decide as Hin; [|done].
    apply (IH (S k) (filter (λ x, x ≠ suffixed base k) pending)).
    + assert (length (filter (λ x, x ≠ suffixed base k) pending) < length pending);
        [|lia].
      apply (length_filter_lt _ _ (suffixed base k)); [|naive_solver].
      apply Hpend; [lia|done].
    + intros j Hj Hused. apply list_elem_of_filter. split.
      * intros Heq. apply suffixed_inj in Heq. lia.
      * apply Hpend; [lia|done].
Qed.

Lemma fresh_name_fresh used base : fresh_name used base ∉ used.
Proof.
  unfold fresh_name. case_bool_decide; [|done].
  by apply (fresh_suffix_fresh used base (length used) 1 used).
Qed.

Lemma fresh_name_id used base : base ∉ used → fresh_name used base = base.
Proof. unfold fresh_name. intros. by rewrite bool_decide_eq_false_2. Qed.

(** ** Adding bands *)

Lemma add_bands_cons dst b src :
  add_bands dst (b :: src) = add_bands (add_band dst b) src.
Proof. reflexivity. Qed.

Lemma add_bands_extends dst src :
  ∃ ext, add_bands dst src = dst ++ ext ∧ length ext = length src.
Proof.
  revert dst. induction src as [|b src IH]; intros dst.
  - exists []. by rewrite app_nil_r.
  - destruct (IH (add_band dst b)) as (ext & Heq & Hlen).
    exists (mkBand (fresh_name (band_name <$> dst) (band_name b)) (band_px b) :: ext).
    rewrite add_bands_cons, Heq. unfold add_band.
    rewrite <- app_assoc. cbn. by rewrite Hlen.
Qed.

Lemma add_bands_keeps dst src n :
  n ∈ band_name <$> dst → n ∈ band_name <$> add_bands dst src.
Proof.
  destruct (add_bands_extends dst src) as (ext & -> & _).
  rewrite fmap_app, elem_of_app. by left.
Qed.

Lemma add_bands_new dst src :
  src ≠ [] →
  ∃ n, n ∈ band_name <$> add_bands dst src ∧ n ∉ band_name <$> dst.
Proof.
  destruct src as [|b src]; [done|]. intros _.
  exists (fresh_name (band_name <$> dst) (band_name b)). split.
  - rewrite add_bands_cons. apply add_bands_keeps.
    unfold add_band. rewrite fmap_app, elem_of_app. right. cbn. left.
  - apply fresh_name_fresh.
Qed.

Lemma add_bands_NoDup dst src :
  NoDup (band_name <$> dst) → NoDup (band_name <$> add_bands dst src).
Proof.
  revert dst. induction src as [|b src IH]; intros dst Hnd; [done|].
  rewrite add_bands_cons. apply IH. unfold add_band.
  rewrite fmap_app. apply NoDup_app. split_and!; [done| |].
  - intros n Hn Hin. cbn in Hin. apply list_elem_of_singleton in Hin as ->.
    by apply fresh_name_fresh in Hn.
  - cbn. apply NoDup_singleton.
Qed.

Lemma add_bands_disjoint dst src :
  NoDup (band_name <$> src) →
  (∀ n, n ∈ band_name <$> src → n ∉ band_name <$> dst) →
  add_bands dst src = dst ++ src.
Proof.
  revert dst. induction src as [|b src IH]; intros dst Hnd Hdisj.
  - by rewrite app_nil_r.
  - rewrite add_bands_cons. cbn in Hnd. apply NoDup_cons in Hnd as [Hb Hnd].
    assert (Hbd : add_band dst b = dst ++ [b]).
    { unfold add_band. rewrite fresh_name_id; [by destruct b|].
      apply Hdisj. cbn. left. }
    rewrite Hbd, IH, <- app_assoc; [done|done|].
    intros n Hn. rewrite fmap_app, elem_of_app. intros [Hin|Hin].
    + by apply (Hdisj n); [cbn; right|].
    + cbn in Hin. apply list_elem_of_singleton in Hin as ->. done.
Qed.

(** ** Selecting bands *)

Lemma find_band_Some bs n f :
  find_band bs n = Some f → mkBand n f ∈ bs.
Proof.
  induction bs as [|b bs IH]; [done|]. cbn.
  case_decide as Hn.
  - intros [= <-]. subst n. destruct b. left.
  - intros Hf. right. by apply IH.
Qed.

Lemma find_band_None bs n :
  find_band bs n = None ↔ n ∉ band_name <$> bs.
Proof.
  induction bs as [|b bs IH]; cbn.
  - split; [intros _; apply not_elem_of_nil|done].
  - case_decide as Hn; rewrite not_elem_of_cons; naive_solver.
Qed.

Lemma find_band_app_r bs bs' n :
  n ∉ band_name <$> bs → find_band (bs ++ bs') n = find_band bs' n.
Proof.
  induction bs as [|b bs IH]; [done|]. cbn.
  rewrite not_elem_of_cons. intros [Hne Hn].
  case_decide; [congruence|]. by apply IH.
Qed.

Lemma find_band_app_l bs bs' n f :
  find_band bs n = Some f → find_band (bs ++ bs') n = Some f.
Proof.
  induction bs as [|b bs IH]; [done|]. cbn.
  case_decide; [done|]. apply IH.
Qed.

Lemma filter_name_absent bs n :
  n ∉ band_name <$> bs → filter (λ b, band_name b = n) bs = [].
Proof.
  induction bs as [|b bs IH]; [done|]. cbn [fmap list_fmap].
  rewrite not_elem_of_cons. intros [Hne Hn].
  rewrite filter_cons_False by done. by apply IH.
Qed.

Lemma filter_name_unique bs n f :
  NoDup (band_name <$> bs) → find_band bs n = Some f →
  filter (λ b, band_name b = n) bs = [mkBand n f].
Proof.
  induction bs as [|b bs IH]; [done|]. cbn [fmap list_fmap find_band].
  intros [Hb Hnd]%NoDup_cons. case_decide as Hn.
  - intros [= <-]. rewrite filter_cons_True by done. subst n.
    destruct b as [n g]. f_equal. by apply filter_name_absent.
  - intros Hf. rewrite filter_cons_False by done. by apply IH.
Qed.

Lemma select_literal bs n f :
  Regex.literal n = true →
  NoDup (band_name <$> bs) → find_band bs n = Some f →
  select_bands bs [ByName n] = Some [mkBand n f].
Proof.
  intros Hl Hnd Hf. unfold select_bands. cbn.
  rewrite (list_filter_iff _ (λ b, band_name b = n)).
  2:{ intros b. by apply matches_literal. }
  by rewrite (filter_name_unique _ _ f).
Qed.

Lemma select_index_0 b bs :
  select_bands (b :: bs) [ByIndex 0] = Some [b].
Proof. reflexivity. Qed.

Lemma select_reflectance bs :
  select_bands bs [ByName "B.*"] =
  match filter (λ b, Regex.matches "B.*" (band_name b) = true) bs with
  | [] => None
  | m => Some m
  end.
Proof.
  unfold select_bands. cbn [mapM select_one].
  destruct (filter _ bs); cbn; [done|]. by rewrite app_nil_r.
Qed.

(** ** Comparisons and boolean samples *)

Lemma Qltb_lt a b : Qltb a b = true ↔ (a < b)%Q.
Proof.
  unfold Qltb. rewrite negb_true_iff, <- not_true_iff_false, Qle_bool_iff.
  split; [apply Qnot_le_lt|apply Qlt_not_le].
Qed.

Lemma Qltb_ge a b : Qltb a b = false ↔ (b <= a)%Q.
Proof. unfold Qltb. by rewrite negb_false_iff, Qle_bool_iff. Qed.

Lemma Qbit_is_bit b : is_bit (Some (Qbit b)).
Proof. destruct b; [left|right; left]; reflexivity. Qed.

Lemma cmp_is_bit op s t :
  op = OpGt ∨ op = OpLt ∨ op = OpNeq → is_bit (binop_px op s t).
Proof.
  intros Hop. destruct s as [a|], t as [b|]; try (right; right; reflexivity).
  destruct Hop as [-> | [-> | ->]]; apply Qbit_is_bit.
Qed.

Lemma mask_is_bit s : is_bit (mask_px s).
Proof. destruct s; [left|right; left]; reflexivity. Qed.

Lemma mul_bits_one a b :
  is_bit a → is_bit b →
  binop_px OpMultiply a b = Some 1%Q ↔ a = Some 1%Q ∧ b = Some 1%Q.
Proof.
  intros [-> | [-> | ->]] [-> | [-> | ->]]; cbn;
    (split; [intros Heq|intros [Ha Hb]]); try discriminate; auto.
Qed.

Lemma mul_bits_is_bit a b : is_bit a → is_bit b → is_bit (binop_px OpMultiply a b).
Proof.
  intros [-> | [-> | ->]] [-> | [-> | ->]]; cbn; unfold is_bit; auto.
Qed.

Lemma lt_px_one s q :
  binop_px OpLt s (Some q) = Some 1%Q ↔ ∃ v, s = Some v ∧ (v < q)%Q.
Proof.
  destruct s as [v|]; cbn.
  - destruct (Qltb v q) eqn:Hv; cbn.
    + apply Qltb_lt in Hv. split; [intros _; by exists v|done].
    + apply Qltb_ge in Hv. split; [discriminate|].
      intros (v' & Heq & Hlt). injection Heq as <-. by apply Qlt_not_le in Hlt.
  - split; [discriminate|]. intros (v' & Heq & _). discriminate.
Qed.

Lemma gt_px_one s q :
  binop_px OpGt s (Some q) = Some 1%Q ↔ ∃ v, s = Some v ∧ (q < v)%Q.
Proof.
  destruct s as [v|]; cbn.
  - destruct (Qltb q v) eqn:Hv; cbn.
    + apply Qltb_lt in Hv. split; [intros _; by exists v|done].
    + apply Qltb_ge in Hv. split; [discriminate|].
      intros (v' & Heq & Hlt). injection Heq as <-. by apply Qlt_not_le in Hlt.
  - split; [discriminate|]. intros (v' & Heq & _). discriminate.
Qed.

(** ** Evaluation, one call at a time *)

Section EvalSteps.
Context `{EarthEngine}.

Lemma eval_ImageOfProperty e key r r' :
  eval_img e = Some r → r_props r !! key = Some (PImg r') →
  eval_img (ImageOfProperty e key) = Some r'.
Proof. intros He Hp. cbn. rewrite He. cbn. by rewrite Hp. Qed.

Lemma eval_Select e sels r bs :
  eval_img e = Some r → select_bands (r_bands r) sels = Some bs →
  eval_img (Select e sels) = Some (mkRaster bs (r_props r)).
Proof. intros He Hs. cbn. rewrite He. cbn. by rewrite Hs. Qed.

Lemma eval_select_literal e n r f :
  eval_img e = Some r → wf_raster r → Regex.literal n = true →
  band_lookup r n = Some f →
  eval_img (select (ByName n) e) = Some (mkRaster [mkBand n f] (r_props r)).
Proof.
  intros He Hwf Hl Hf. apply eval_Select; [done|].
  by apply select_literal.
Qed.

Lemma eval_BinOp_single op a b n f ps m g qs :
  eval_img a = Some (mkRaster [mkBand n f] ps) →
  eval_img b = Some (mkRaster [mkBand m g] qs) →
  eval_img (BinOp op a b)
  = Some (mkRaster [mkBand n (pointwise2 (binop_px op) f g)] ps).
Proof. intros Ha Hb. cbn. rewrite Ha. cbn. rewrite Hb. done. Qed.

Lemma eval_BinOp_const op a q n f ps :
  eval_img a = Some (mkRaster [mkBand n f] ps) →
  eval_img (BinOp op a (Constant q))
  = Some (mkRaster [mkBand n (pointwise2 (binop_px op) f (λ _, Some q))] ps).
Proof. intros Ha. by eapply eval_BinOp_single. Qed.

Lemma eval_rename_single e n m f ps :
  eval_img e = Some (mkRaster [mkBand n f] ps) →
  eval_img (rename m e) = Some (mkRaster [mkBand m f] ps).
Proof. intros He. cbn. rewrite He. done. Qed.

Lemma eval_AddBands dst src rd rs :
  eval_img dst = Some rd → eval_img src = Some rs →
  eval_img (AddBands dst src)
  = Some (mkRaster (add_bands (r_bands rd) (r_bands rs)) (r_props rd)).
Proof. intros Hd Hs. cbn. rewrite Hd. cbn. by rewrite Hs. Qed.

Lemma eval_AddBands_disjoint dst src rd rs :
  eval_img dst = Some rd → eval_img src = Some rs →
  NoDup (band_names rs) →
  (∀ n, n ∈ band_names rs → n ∉ band_names rd) →
  eval_img (AddBands dst src)
  = Some (mkRaster (r_bands rd ++ r_bands rs) (r_props rd)).
Proof.
  intros Hd Hs Hnd Hdisj. rewrite (eval_AddBands _ _ rd rs) by done.
  by rewrite add_bands_disjoint.
Qed.


Lemma eval_NormalizedDifference e r n1 n2 f1 f2 :
  eval_img e = Some r →
  band_lookup r n1 = Some f1 → band_lookup r n2 = Some f2 →
  eval_img (normalizedDifference [n1; n2] e)
  = Some (mkRaster [mkBand "nd" (pointwise2 nd_px f1 f2)] ∅).
Proof. intros He H1 H2. cbn. rewrite He. cbn. rewrite H1. cbn. by rewrite H2. Qed.

Lemma eval_ddt e angle d n f ps az :
  eval_img e = Some (mkRaster [mkBand n f] ps) →
  eval_num angle = Some az →
  eval_img (directionalDistanceTransform angle d e)
  = Some (mkRaster [mkBand "distance" (eng_directionalDistanceTransform f az d)] ps).
Proof. intros He Ha. cbn. rewrite He. cbn. by rewrite Ha. Qed.

Lemma eval_reproject_single e crs scale n f ps p :
  eval_img e = Some (mkRaster [mkBand n f] ps) →
  eval_proj crs = Some p →
  eval_img (reproject crs scale e)
  = Some (mkRaster [mkBand n (eng_reproject f p scale)] ps).
Proof. intros He Hp. cbn. rewrite He. cbn. by rewrite Hp. Qed.

Lemma eval_mask_single e n f ps :
  eval_img e = Some (mkRaster [mkBand n f] ps) →
  eval_img (mask e) = Some (mkRaster [mkBand n (pointwise mask_px f)] ps).
Proof. intros He. cbn. by rewrite He. Qed.

Lemma eval_focalMin_single e q n f ps :
  eval_img e = Some (mkRaster [mkBand n f] ps) →
  eval_img (focalMin q e) = Some (mkRaster [mkBand n (eng_focalMin f q)] ps).
Proof. intros He. cbn. by rewrite He. Qed.

Lemma eval_focalMax_single e q n f ps :
  eval_img e = Some (mkRaster [mkBand n f] ps) →
  eval_img (focalMax q e) = Some (mkRaster [mkBand n (eng_focalMax f q)] ps).
Proof. intros He. cbn. by rewrite He. Qed.

Lemma eval_projection_first e r b bs :
  eval_img e = Some r → r_bands r = b :: bs →
  eval_proj (e |> select (ByIndex 0) |> projection)
  = Some (eng_projection (band_px b)).
Proof. intros He Hb. cbn. rewrite He. cbn. rewrite Hb. done. Qed.

Lemma eval_ee_Image_list3 a b c na fa pa nb fb pb nc fc pc :
  eval_img a = Some (mkRaster [mkBand na fa] pa) →
  eval_img b = Some (mkRaster [mkBand nb fb] pb) →
  eval_img c = Some (mkRaster [mkBand nc fc] pc) →
  NoDup [na; nb; nc] →
  eval_img (ee_Image_list a [b; c])
  = Some (mkRaster [mkBand na fa; mkBand nb fb; mkBand nc fc] pa).
Proof.
  intros Ha Hb Hc Hnd. cbn [ee_Image_list foldl].
  apply NoDup_cons in Hnd as [Hna Hnd]. apply NoDup_cons in Hnd as [Hnb _].
  assert (Hab : eval_img (AddBands a b)
                = Some (mkRaster [mkBand na fa; mkBand nb fb] pa)).
  { apply (eval_AddBands_disjoint _ _ _ _ Ha Hb); cbn.
    - apply NoDup_singleton.
    - set_solver. }
  apply (eval_AddBands_disjoint _ _ _ _ Hab Hc); cbn.
  - apply NoDup_singleton.
  - set_solver.
Qed.

Lemma eval_not_water img r use_SCL nw :
  eval_img img = Some r → wf_raster r →
  not_water_of use_SCL r = Some nw →
  ∃ n ps,
    eval_img (if use_SCL
              then img |> select (ByName "SCL") |> neq 6
              else img |> normalizedDifference ["B4"; "B2"] |> lt 0.2)
    = Some (mkRaster [mkBand n nw] ps).
Proof.
  intros Himg Hwf Hnw. destruct use_SCL; cbn in Hnw.
  - destruct (band_lookup r "SCL") as [scl|] eqn:Hscl; [|done].
    injection Hnw as <-. eexists _, _.
    apply (eval_BinOp_const OpNeq _ 6 "SCL" scl).
    by apply eval_select_literal.
  - destruct (band_lookup r "B4") as [b4|] eqn:Hb4; [|done].
    destruct (band_lookup r "B2") as [b2|] eqn:Hb2; [|done].
    injection Hnw as <-. eexists _, _.
    apply (eval_BinOp_const OpLt _ 0.2 "nd" (pointwise2 nd_px b4 b2)).
    by eapply eval_NormalizedDifference.
Qed.

Lemma not_water_bit use_SCL r nw x :
  not_water_of use_SCL r = Some nw → is_bit (nw x).
Proof.
  unfold not_water_of. intros Hnw.
  destruct use_SCL; simplify_option_eq; apply cmp_is_bit; auto.
Qed.


End EvalSteps.

(** ** What the service returns for each stage *)

Lemma wf_extend bs ext :
  NoDup (band_name <$> bs) → NoDup (band_name <$> ext) →
  Forall (λ n, n ∉ band_name <$> bs) (band_name <$> ext) →
  NoDup (band_name <$> (bs ++ ext)).
Proof.
  intros Hbs Hext Hfresh. rewrite fmap_app. apply NoDup_app. split_and!; [done| |done].
  intros n Hn Hin. rewrite Forall_forall in Hfresh. by apply (Hfresh n).
Qed.

Lemma not_in_extend bs ext n :
  n ∉ band_name <$> bs → n ∉ band_name <$> ext → n ∉ band_name <$> (bs ++ ext).
Proof. intros Hbs Hext. rewrite fmap_app, not_elem_of_app. done. Qed.

Ltac by_compute := apply (bool_decide_unpack _); vm_compute; exact I.

Section StageEval.
Context `{EarthEngine}.

Lemma not_water_of_extend use_SCL r ext nw :
  not_water_of use_SCL r = Some nw →
  not_water_of use_SCL (mkRaster (r_bands r ++ ext) (r_props r)) = Some nw.
Proof.
  unfold not_water_of, band_lookup. cbn [r_bands]. destruct use_SCL.
  - destruct (find_band (r_bands r) "SCL") as [scl|] eqn:Hscl; [|done].
    by rewrite (find_band_app_l _ _ _ _ Hscl).
  - destruct (find_band (r_bands r) "B4") as [b4|] eqn:Hb4; [|done].
    destruct (find_band (r_bands r) "B2") as [b2|] eqn:Hb2; [|done].
    by rewrite (find_band_app_l _ _ _ _ Hb4), (find_band_app_l _ _ _ _ Hb2).
Qed.

Lemma eval_add_cloud_bands img r cr prob :
  eval_img img = Some r →
  r_props r !! "s2cloudless" = Some (PImg cr) →
  wf_raster cr →
  band_lookup cr "probability" = Some prob →
  "probability" ∉ band_names r →
  "clouds" ∉ band_names r →
  eval_img (add_cloud_bands img)
  = Some (mkRaster
            (r_bands r ++
             [mkBand "probability" prob;
              mkBand "clouds"
                (pointwise2 (binop_px OpGt) prob (λ _, Some CLD_PRB_THRESH))])
            (r_props r)).
Proof.
  intros Himg Hprop Hwf Hf Hp Hc.
  pose proof (eval_ImageOfProperty _ _ _ _ Himg Hprop) as Hs2.
  pose proof (eval_select_literal _ "probability" _ _ Hs2 Hwf eq_refl Hf) as Hprb.
  pose proof (eval_BinOp_const OpGt _ CLD_PRB_THRESH _ _ _ Hprb) as Hgt.
  pose proof (eval_rename_single _ _ "clouds" _ _ Hgt) as Hcld.
  pose proof (eval_AddBands _ _ _ _ Hprb Hcld) as Hlist.
  unfold add_cloud_bands, addBands.
  apply (eval_AddBands_disjoint _ _ _ _ Himg Hlist).
  - by_compute.
  - apply Forall_forall. cbn. repeat constructor; done.
Qed.

Lemma eval_add_shadow_bands img use_SCL r b0 bs clouds b8 nw az :
  eval_img img = Some r →
  wf_raster r →
  r_bands r = b0 :: bs →
  band_lookup r "clouds" = Some clouds →
  band_lookup r "B8" = Some b8 →
  not_water_of use_SCL r = Some nw →
  r_props r !! "MEAN_SOLAR_AZIMUTH_ANGLE" = Some (PNum az) →
  "dark_pixels" ∉ band_names r →
  "cloud_transform" ∉ band_names r →
  "shadows" ∉ band_names r →
  let dp := pointwise2 (binop_px OpMultiply)
              (pointwise2 (binop_px OpLt) b8
                 (λ _, Some (NIR_DRK_THRESH * 1e4)%Q)) nw in
  let ct := pointwise mask_px
              (eng_reproject
                 (eng_directionalDistanceTransform clouds (90 - az)
                    (CLD_PRJ_DIST * 10))
                 (eng_projection (band_px b0)) 100) in
  eval_img (add_shadow_bands img use_SCL)
  = Some (mkRaster
            (r_bands r ++
             [mkBand "dark_pixels" dp; mkBand "cloud_transform" ct;
              mkBand "shadows" (pointwise2 (binop_px OpMultiply) ct dp)])
            (r_props r)).
Proof.
  intros Himg Hwf Hb0 Hc Hb8 Hnw Haz Hdp Hct Hsh dp ct.
  destruct (eval_not_water _ _ _ _ Himg Hwf Hnw) as (nn & nps & Hnwe).
  pose proof (eval_select_literal _ "B8" _ _ Himg Hwf eq_refl Hb8) as H8.
  pose proof (eval_BinOp_const OpLt _ (NIR_DRK_THRESH * 1e4) _ _ _ H8) as Hlt.
  pose proof (eval_BinOp_single OpMultiply _ _ _ _ _ _ _ _ Hlt Hnwe) as Hmul.
  pose proof (eval_rename_single _ _ "dark_pixels" _ _ Hmul) as Hdark.
  pose proof (eval_select_literal _ "clouds" _ _ Himg Hwf eq_refl Hc) as Hcl.
  assert (Hnum : eval_num (Subtract (NumConst 90)
                   (img |> ee_Number_get "MEAN_SOLAR_AZIMUTH_ANGLE"))
                 = Some (90 - az)%Q).
  { cbn. rewrite Himg. cbn. by rewrite Haz. }
  pose proof (eval_ddt _ _ (CLD_PRJ_DIST * 10) _ _ _ _ Hcl Hnum) as Hddt.
  pose proof (eval_projection_first _ _ _ _ Himg Hb0) as Hproj.
  pose proof (eval_reproject_single _ _ 100 _ _ _ _ Hddt Hproj) as Hrep.
  pose proof (eval_select_literal _ "distance" _ _ Hrep
                (NoDup_singleton _) eq_refl eq_refl) as Hdist.
  cbn [r_props] in Hdist.
  pose proof (eval_mask_single _ _ _ _ Hdist) as Hmask.
  cbn [band_px] in Hmask.
  pose proof (eval_rename_single _ _ "cloud_transform" _ _ Hmask) as Hcld.
  pose proof (eval_BinOp_single OpMultiply _ _ _ _ _ _ _ _ Hcld Hdark) as Hsm.
  pose proof (eval_rename_single _ _ "shadows" _ _ Hsm) as Hshd.
  assert (Hnd3 : NoDup ["dark_pixels"; "cloud_transform"; "shadows"])
    by by_compute.
  pose proof (eval_ee_Image_list3 _ _ _ _ _ _ _ _ _ _ _ _ Hdark Hcld Hshd Hnd3)
    as Hl2.
  unfold add_shadow_bands, addBands.
  apply (eval_AddBands_disjoint _ _ _ _ Himg Hl2).
  - exact Hnd3.
  - apply Forall_forall. cbn. repeat constructor; done.
Qed.

End StageEval.

Section Pipeline.
Context `{EarthEngine}.

Lemma eval_add_cld_shdw_mask img use_SCL r b0 bs cr prob b8 nw az :
  eval_img img = Some r →
  wf_raster r →
  r_bands r = b0 :: bs →
  r_props r !! "s2cloudless" = Some (PImg cr) →
  wf_raster cr →
  band_lookup cr "probability" = Some prob →
  band_lookup r "B8" = Some b8 →
  not_water_of use_SCL r = Some nw →
  r_props r !! "MEAN_SOLAR_AZIMUTH_ANGLE" = Some (PNum az) →
  Forall (λ n, n ∉ band_names r)
    ["probability"; "clouds"; "dark_pixels"; "cloud_transform"; "shadows";
     "cloudmask"] →
  let clouds := pointwise2 (binop_px OpGt) prob (λ _, Some CLD_PRB_THRESH) in
  let dp := pointwise2 (binop_px OpMultiply)
              (pointwise2 (binop_px OpLt) b8
                 (λ _, Some (NIR_DRK_THRESH * 1e4)%Q)) nw in
  let ct := pointwise mask_px
              (eng_reproject
                 (eng_directionalDistanceTransform clouds (90 - az)
                    (CLD_PRJ_DIST * 10))
                 (eng_projection (band_px b0)) 100) in
  let sh := pointwise2 (binop_px OpMultiply) ct dp in
  let combined := pointwise2 (binop_px OpGt)
                    (pointwise2 (binop_px OpAdd) clouds sh) (λ _, Some 0%Q) in
  eval_img (add_cld_shdw_mask img use_SCL)
  = Some (mkRaster
            (r_bands r ++
             [mkBand "probability" prob; mkBand "clouds" clouds;
              mkBand "dark_pixels" dp; mkBand "cloud_transform" ct;
              mkBand "shadows" sh;
              mkBand "cloudmask"
                (eng_reproject
                   (eng_focalMax (eng_focalMin combined 2) (BUFFER * 2 / 20))
                   (eng_projection (band_px b0)) 20)])
            (r_props r)).
Proof.
  intros Himg Hwf Hb0 Hprop Hwfc Hprob Hb8 Hnw Haz Hfresh clouds dp ct sh combined.
  apply Forall_cons in Hfresh as [Fprob Hfresh].
  apply Forall_cons in Hfresh as [Fclouds Hfresh].
  apply Forall_cons in Hfresh as [Fdp Hfresh].
  apply Forall_cons in Hfresh as [Fct Hfresh].
  apply Forall_cons in Hfresh as [Fsh Hfresh].
  apply Forall_cons in Hfresh as [Fcm _].
  pose proof (eval_add_cloud_bands _ _ _ _ Himg Hprop Hwfc Hprob Fprob Fclouds)
    as H1.
  fold clouds in H1.
  set (ext1 := [mkBand "probability" prob; mkBand "clouds" clouds]) in H1.
  set (r1 := mkRaster (r_bands r ++ ext1) (r_props r)) in H1.
  assert (Hwf1 : wf_raster r1).
  { apply wf_extend; [done|by_compute|].
    cbn. repeat constructor; done. }
  assert (Hc1 : band_lookup r1 "clouds" = Some clouds).
  { unfold band_lookup. cbn [r1 r_bands]. by rewrite find_band_app_r. }
  assert (Hb81 : band_lookup r1 "B8" = Some b8).
  { unfold band_lookup. cbn [r1 r_bands]. by apply find_band_app_l. }
  pose proof (eval_add_shadow_bands (add_cloud_bands img) use_SCL r1 b0
                (bs ++ ext1) clouds b8 nw az H1 Hwf1) as H2.
  cbn zeta in H2. fold dp ct sh in H2.
  set (ext2 := [mkBand "dark_pixels" dp; mkBand "cloud_transform" ct;
                mkBand "shadows" sh]) in H2.
  set (r2 := mkRaster (r_bands r1 ++ ext2) (r_props r1)) in H2.
  assert (H2' : eval_img (add_shadow_bands (add_cloud_bands img) use_SCL)
                = Some r2).
  { apply H2; try done.
    - cbn [r1 r_bands]. by rewrite Hb0.
    - by apply not_water_of_extend.
    - apply not_in_extend; [done|]. by_compute.
    - apply not_in_extend; [done|]. by_compute.
    - apply not_in_extend; [done|]. by_compute. }
  clear H2.
  assert (Hwf2 : wf_raster r2).
  { apply wf_extend; [done|by_compute|].
    cbn. repeat constructor; (apply not_in_extend; [done|by_compute]). }
  assert (Hc2 : band_lookup r2 "clouds" = Some clouds).
  { unfold band_lookup. cbn [r2 r_bands]. by apply find_band_app_l. }
  assert (Hs2 : band_lookup r2 "shadows" = Some sh).
  { unfold band_lookup. cbn [r2 r_bands].
    rewrite find_band_app_r; [done|].
    apply not_in_extend; [done|by_compute]. }
  pose proof (eval_select_literal _ "clouds" _ _ H2' Hwf2 eq_refl Hc2) as Ecl.
  pose proof (eval_select_literal _ "shadows" _ _ H2' Hwf2 eq_refl Hs2) as Esh.
  pose proof (eval_BinOp_single OpAdd _ _ _ _ _ _ _ _ Ecl Esh) as Eadd.
  pose proof (eval_BinOp_const OpGt _ 0 _ _ _ Eadd) as Egt.
  fold combined in Egt.
  pose proof (eval_focalMin_single _ 2 _ _ _ Egt) as Emin.
  pose proof (eval_focalMax_single _ (BUFFER * 2 / 20) _ _ _ Emin) as Emax.
  pose proof (eval_projection_first _ _ _ _ Himg Hb0) as Eproj.
  pose proof (eval_reproject_single _ _ 20 _ _ _ _ Emax Eproj) as Erep.
  pose proof (eval_rename_single _ _ "cloudmask" _ _ Erep) as Ecm.
  etrans.
  - apply (eval_AddBands_disjoint _ _ _ _ H2' Ecm).
    + apply NoDup_singleton.
    + apply Forall_forall. cbn. repeat constructor.
      apply not_in_extend; [|by_compute].
      apply not_in_extend; [done|by_compute].
  - cbn [r2 r1 r_bands r_props ext1 ext2]. by rewrite <- !app_assoc.
Qed.

End Pipeline.

(** ** The cloud, shadow and mask layers *)

Section Layers.
Context `{EarthEngine}.

(** C3.  On an image that carries its cloud-probability image under
  [s2cloudless], [add_cloud_bands] yields a band [clouds] that is 1 exactly
  where the probability is strictly above [CLD_PRB_THRESH], 0 where it is
  at most the threshold, so 0 at probability 40, and masked where the
  probability is masked. *)
Theorem add_cloud_bands_threshold img r cr prob :
eval_img img = Some r →
r_props r !! "s2cloudless" = Some (PImg cr) →
wf_raster cr →
band_lookup cr "probability" = Some prob →
"probability" ∉ band_names r →
"clouds" ∉ band_names r →
CLD_PRB_THRESH = 40%Q ∧
∃ r' clouds,
  eval_img (add_cloud_bands img) = Some r' ∧
  band_lookup r' "clouds" = Some clouds ∧
  ∀ x, match prob x with
       | Some p =>
           (clouds x = Some 1%Q ↔ (CLD_PRB_THRESH < p)%Q) ∧
           (clouds x = Some 0%Q ↔ (p <= CLD_PRB_THRESH)%Q) ∧
           ((p == 40)%Q → clouds x = Some 0%Q)
       | None => clouds x = None
       end.
Proof.
intros Himg Hprop Hwf Hf Hp Hc. split; [reflexivity|].
eexists _, _. split; [by apply (eval_add_cloud_bands img r cr prob)|].
split.
{ unfold band_lookup. cbn [r_bands]. rewrite find_band_app_r by done.
  reflexivity. }
intros x. cbn [band_px]. unfold pointwise2.
destruct (prob x) as [p|]; cbn; [|done].
destruct (Qltb CLD_PRB_THRESH p) eqn:Hlt; cbn.
- apply Qltb_lt in Hlt. split_and!.
  + done.
  + split; [done|]. intros Hle. by apply Qlt_not_le in Hlt.
  + intros Heq. rewrite Heq in Hlt. by apply Qlt_irrefl in Hlt.
- apply Qltb_ge in Hlt. split_and!.
  + split; [done|]. intros Hlt'. by apply Qlt_not_le in Hlt'.
  + done.
  + done.
Qed.

(** C4.  On an image with a [clouds] band, [add_shadow_bands] yields
  - [dark_pixels], the product of [B8 < 0.15 * 1e4] and the not-water
    layer, which is 1 exactly where both hold;
  - [cloud_transform], the validity mask of the distance band of the
    directional distance transform of [clouds] along the azimuth
    [90 - MEAN_SOLAR_AZIMUTH_ANGLE] over the distance [1 * 10],
    reprojected to the projection of the first band at scale 100;
  - [shadows], the product of [cloud_transform] and [dark_pixels], which is
    1 exactly where both are 1. *)
Theorem add_shadow_bands_layers img use_SCL r b0 bs clouds b8 nw az :
eval_img img = Some r →
wf_raster r →
r_bands r = b0 :: bs →
band_lookup r "clouds" = Some clouds →
band_lookup r "B8" = Some b8 →
not_water_of use_SCL r = Some nw →
r_props r !! "MEAN_SOLAR_AZIMUTH_ANGLE" = Some (PNum az) →
"dark_pixels" ∉ band_names r →
"cloud_transform" ∉ band_names r →
"shadows" ∉ band_names r →
∃ r' dark_pixels cloud_transform shadows,
  eval_img (add_shadow_bands img use_SCL) = Some r' ∧
  band_lookup r' "dark_pixels" = Some dark_pixels ∧
  band_lookup r' "cloud_transform" = Some cloud_transform ∧
  band_lookup r' "shadows" = Some shadows ∧
  (∀ x, dark_pixels x
        = binop_px OpMultiply
            (binop_px OpLt (b8 x) (Some (0.15 * 1e4)%Q)) (nw x)) ∧
  (∀ x, dark_pixels x = Some 1%Q ↔
        (∃ v, b8 x = Some v ∧ (v < 0.15 * 1e4)%Q) ∧ nw x = Some 1%Q) ∧
  (∀ x, cloud_transform x
        = mask_px (eng_reproject
                     (eng_directionalDistanceTransform clouds (90 - az) (1 * 10))
                     (eng_projection (band_px b0)) 100 x)) ∧
  (∀ x, shadows x = binop_px OpMultiply (cloud_transform x) (dark_pixels x)) ∧
  (∀ x, shadows x = Some 1%Q ↔
        cloud_transform x = Some 1%Q ∧ dark_pixels x = Some 1%Q).
Proof.
intros Himg Hwf Hb0 Hc Hb8 Hnw Haz Hdp Hct Hsh.
pose proof (eval_add_shadow_bands img use_SCL r b0 bs clouds b8 nw az
              Himg Hwf Hb0 Hc Hb8 Hnw Haz Hdp Hct Hsh) as Heval.
cbn zeta in Heval.
match type of Heval with
| _ = Some (mkRaster (_ ++ [mkBand _ ?d; mkBand _ ?c; mkBand _ ?s]) _) =>
    set (dp := d) in *; set (ct := c) in *; set (sh := s) in *
end.
assert (Hdpx : ∀ x, dp x = binop_px OpMultiply
                 (binop_px OpLt (b8 x) (Some (0.15 * 1e4)%Q)) (nw x)) by done.
assert (Hdbit : ∀ x, is_bit (dp x)).
{ intros x. rewrite Hdpx. apply mul_bits_is_bit.
  - apply cmp_is_bit; auto.
  - by eapply not_water_bit. }
eexists _, dp, ct, sh. split; [exact Heval|].
unfold band_lookup. cbn [r_bands]. split_and!.
- by rewrite find_band_app_r.
- by rewrite find_band_app_r.
- by rewrite find_band_app_r.
- done.
- intros x. rewrite Hdpx, mul_bits_one, lt_px_one; [done| |].
  + apply cmp_is_bit; auto.
  + by eapply not_water_bit.
- done.
- done.
- intros x. change (sh x) with (binop_px OpMultiply (ct x) (dp x)).
  apply mul_bits_one; [apply mask_is_bit|apply Hdbit].
Qed.

(** The band [cloudmask] that [add_cld_shdw_mask] adds is the combined mask
  [(clouds + shadows) > 0], eroded by [focalMin] of radius 2, then dilated
  by [focalMax] of radius [BUFFER * 2 / 20], which is 10, twice the 100 m
  of [BUFFER] counted in 20 m units, then reprojected to the projection of
  the first input band at scale 20, then renamed.  The graph has this shape
  for every input, and on a scene with the bands and properties the pipeline
  reads the service computes the band so. *)
Theorem cloudmask_morphology img use_SCL r b0 bs cr prob b8 nw az :
eval_img img = Some r →
wf_raster r →
r_bands r = b0 :: bs →
r_props r !! "s2cloudless" = Some (PImg cr) →
wf_raster cr →
band_lookup cr "probability" = Some prob →
band_lookup r "B8" = Some b8 →
not_water_of use_SCL r = Some nw →
r_props r !! "MEAN_SOLAR_AZIMUTH_ANGLE" = Some (PNum az) →
Forall (λ n, n ∉ band_names r)
  ["probability"; "clouds"; "dark_pixels"; "cloud_transform"; "shadows";
   "cloudmask"] →
(∃ is_cld_shdw m,
   added_image (add_cld_shdw_mask img use_SCL) = Some is_cld_shdw ∧
   morphology is_cld_shdw = Some m ∧
   erode_radius m = 2%Q ∧
   dilate_radius m = (BUFFER * 2 / 20)%Q ∧
   morph_crs m = (img |> select (ByIndex 0) |> projection) ∧
   morph_scale m = 20%Q ∧
   morph_names m = ["cloudmask"]) ∧
(BUFFER * 2 / 20 == 10)%Q ∧
(BUFFER * 2 / 20 == 2 * (BUFFER / 20))%Q ∧
∃ r' clouds shadows cloudmask,
  eval_img (add_cld_shdw_mask img use_SCL) = Some r' ∧
  band_lookup r' "clouds" = Some clouds ∧
  band_lookup r' "shadows" = Some shadows ∧
  band_lookup r' "cloudmask" = Some cloudmask ∧
  ∀ x, cloudmask x
       = eng_reproject
           (eng_focalMax
              (eng_focalMin
                 (λ y, binop_px OpGt
                         (binop_px OpAdd (clouds y) (shadows y)) (Some 0%Q))
                 2)
              (BUFFER * 2 / 20))
           (eng_projection (band_px b0)) 20 x.
Proof.
intros Himg Hwf Hb0 Hprop Hwfc Hprob Hb8 Hnw Haz Hfresh.
split. { eexists _, _. split_and!; reflexivity. }
split; [reflexivity|]. split; [reflexivity|].
pose proof (eval_add_cld_shdw_mask img use_SCL r b0 bs cr prob b8 nw az
              Himg Hwf Hb0 Hprop Hwfc Hprob Hb8 Hnw Haz Hfresh) as Heval.
cbn zeta in Heval.
apply Forall_cons in Hfresh as [Fprob Hfresh].
apply Forall_cons in Hfresh as [Fclouds Hfresh].
apply Forall_cons in Hfresh as [Fdp Hfresh].
apply Forall_cons in Hfresh as [Fct Hfresh].
apply Forall_cons in Hfresh as [Fsh Hfresh].
apply Forall_cons in Hfresh as [Fcm _].
eexists _, _, _, _. split; [exact Heval|].
unfold band_lookup. cbn [r_bands].
rewrite !find_band_app_r by done. cbn.
split_and!; reflexivity.
Qed.

End Layers.

(** C2.  The dilation is to be by the buffer distance, 100 m, counted in
    units of the 20 m working resolution, which is 5; so say the constant
    [BUFFER = 100] with its unit and the comment above the call.  On the
    example scene [add_cld_shdw_mask] erodes by 2 and then dilates by
    [BUFFER * 2 / 20], which is 10, twice that distance, before it
    reprojects at scale 20 and renames the band. *)
Lemma cloudmask_dilation_radius :
  ∃ is_cld_shdw m,
    added_image (add_cld_shdw_mask (Asset scene) true) = Some is_cld_shdw ∧
    morphology is_cld_shdw = Some m ∧
    erode_radius m = 2%Q ∧
    morph_scale m = 20%Q ∧
    morph_names m = ["cloudmask"] ∧
    (BUFFER / 20 == 5)%Q ∧
    (dilate_radius m == 10)%Q ∧
    ¬ (dilate_radius m == BUFFER / 20)%Q.
Proof.
  eexists _, _. split; [reflexivity|]. split; [reflexivity|].
  cbn [dilate_radius erode_radius morph_scale morph_names].
  split_and!; [reflexivity|reflexivity|reflexivity|reflexivity|reflexivity|].
  intros Heq. vm_compute in Heq. discriminate Heq.
Qed.

(** ** Band sets of the stages *)

Lemma add_bands_length dst src :
  length (add_bands dst src) = length dst + length src.
Proof.
  destruct (add_bands_extends dst src) as (ext & -> & Hlen).
  by rewrite length_app, Hlen.
Qed.

Lemma strict_superset_trans l1 l2 l3 :
  strict_superset l1 l2 → l2 ⊆ l3 → strict_superset l1 l3.
Proof.
  intros [Hsub (n & Hin & Hout)] Hsub'. split.
  - by etrans.
  - exists n. split; [by apply Hsub'|done].
Qed.

Lemma find_band_map_filter (F : (Pixel → Sample) → Pixel → Sample)
    (Q : string → Prop) `{∀ n, Decision (Q n)} bs n :
  find_band (map_band F <$> filter (λ b, Q (band_name b)) bs) n
  = if decide (Q n) then F <$> find_band bs n else None.
Proof.
  induction bs as [|b bs IH]; [by case_decide|].
  destruct (decide (Q (band_name b))) as [Hq|Hq].
  - rewrite filter_cons_True by done. cbn.
    destruct (decide (band_name b = n)) as [<-|Hne].
    + by rewrite decide_True.
    + exact IH.
  - rewrite filter_cons_False by done. rewrite IH. cbn.
    destruct (decide (band_name b = n)) as [<-|Hne]; [|done].
    destruct (decide (Q (band_name b))); [contradiction|done].
Qed.

Section Stages.
Context `{EarthEngine}.

Lemma eval_AddBands_inv dst src r' :
  eval_img (AddBands dst src) = Some r' →
  ∃ rd rs, eval_img dst = Some rd ∧ eval_img src = Some rs ∧
           r' = mkRaster (add_bands (r_bands rd) (r_bands rs)) (r_props rd).
Proof.
  cbn. destruct (eval_img dst) as [rd|]; [|done]. cbn.
  destruct (eval_img src) as [rs|]; [|done]. cbn.
  intros [= <-]. by exists rd, rs.
Qed.

Lemma eval_rename_one e n r :
  eval_img (rename n e) = Some r → length (r_bands r) = 1.
Proof.
  cbn. destruct (eval_img e) as [re|]; [|done]. cbn.
  unfold rename_bands. case_decide as Hlen; [|done]. cbn.
  intros [= <-]. cbn [r_bands]. rewrite length_zip_with, Hlen. done.
Qed.

Lemma eval_AddBands_grows dst src n rd r' :
  eval_img dst = Some rd →
  eval_img (AddBands dst (rename n src)) = Some r' →
  strict_superset (band_names rd) (band_names r').
Proof.
  intros Hd Hr. apply eval_AddBands_inv in Hr as (rd' & rs & Hd' & Hs & ->).
  rewrite Hd in Hd'. injection Hd' as <-.
  apply eval_rename_one in Hs.
  unfold band_names. cbn [r_bands]. split.
  - intros m. apply add_bands_keeps.
  - apply add_bands_new. by destruct (r_bands rs).
Qed.

Lemma eval_AddBands_list_grows dst first mid n last rd r' :
  eval_img dst = Some rd →
  eval_img (AddBands dst (ee_Image_list first (mid ++ [rename n last]))) = Some r' →
  strict_superset (band_names rd) (band_names r').
Proof.
  intros Hd Hr. apply eval_AddBands_inv in Hr as (rd' & rs & Hd' & Hs & ->).
  rewrite Hd in Hd'. injection Hd' as <-.
  unfold ee_Image_list in Hs. rewrite foldl_app in Hs. cbn [foldl] in Hs.
  apply eval_AddBands_inv in Hs as (ra & rb & _ & Hb & ->).
  apply eval_rename_one in Hb.
  unfold band_names. cbn [r_bands]. split.
  - intros m. apply add_bands_keeps.
  - apply add_bands_new. intros Hnil.
    pose proof (add_bands_length (r_bands ra) (r_bands rb)) as Hlen.
    rewrite Hnil, Hb in Hlen. cbn in Hlen. lia.
Qed.

Lemma eval_Select_eq e sels r :
  eval_img e = Some r →
  eval_img (Select e sels)
  = (bs ← select_bands (r_bands r) sels; Some (mkRaster bs (r_props r))).
Proof. intros He. cbn. by rewrite He. Qed.

Lemma eval_Not_single e n f ps :
  eval_img e = Some (mkRaster [mkBand n f] ps) →
  eval_img (Not e) = Some (mkRaster [mkBand n (pointwise not_px f)] ps).
Proof. intros He. cbn. by rewrite He. Qed.

Lemma eval_UpdateMask_single a m n g ps :
  eval_img m = Some (mkRaster [mkBand n g] ps) →
  eval_img (updateMask m a)
  = (ra ← eval_img a;
     Some (mkRaster (map_band (λ f, pointwise2 updateMask_px f g) <$> r_bands ra)
             (r_props ra))).
Proof.
  intros Hm. cbn. destruct (eval_img a) as [ra|]; [|done]. cbn.
  by rewrite Hm.
Qed.

Lemma eval_UpdateMask_names a m r' :
  eval_img (UpdateMask a m) = Some r' →
  ∃ ra, eval_img a = Some ra ∧ band_names r' = band_names ra.
Proof.
  cbn. destruct (eval_img a) as [ra|]; [|done]. cbn.
  destruct (eval_img m) as [rm|]; [|done]. cbn.
  intros Hr. exists ra. split; [done|].
  destruct (r_bands rm) as [|m0 [|m1 ms]] eqn:Hm.
  - case_decide as Hlen; [|done]. injection Hr as <-.
    apply nil_length_inv in Hlen. unfold band_names. cbn [r_bands].
    by rewrite Hlen.
  - injection Hr as <-. unfold band_names. cbn [r_bands].
    by rewrite <- list_fmap_compose.
  - case_decide as Hlen; [|done]. injection Hr as <-.
    unfold band_names. cbn [r_bands].
    apply list_eq_same_length with (length (r_bands ra)).
    + by rewrite length_fmap.
    + by rewrite length_fmap, length_zip_with, Hlen, Nat.min_id.
    + intros i x y Hi Hx Hy.
      rewrite list_lookup_fmap in Hx, Hy.
      rewrite lookup_zip_with in Hx.
      destruct (r_bands ra !! i) as [b|]; [|done]. cbn in Hx, Hy.
      destruct ((m0 :: m1 :: ms) !! i); [|done]. cbn in Hx. congruence.
Qed.

Lemma eval_apply_cld_shdw_mask img r cm :
  eval_img img = Some r → wf_raster r →
  band_lookup r "cloudmask" = Some cm →
  eval_img (apply_cld_shdw_mask img)
  = match filter (λ b, Regex.matches "B.*" (band_name b) = true) (r_bands r) with
    | [] => None
    | m => Some (mkRaster
                   (map_band (λ f, pointwise2 updateMask_px f (pointwise not_px cm))
                      <$> m)
                   (r_props r))
    end.
Proof.
  intros Himg Hwf Hcm. unfold apply_cld_shdw_mask.
  pose proof (eval_select_literal _ "cloudmask" _ _ Himg Hwf eq_refl Hcm) as Hsel.
  rewrite (eval_UpdateMask_single _ _ _ _ _ (eval_Not_single _ _ _ _ Hsel)).
  unfold select at 1. rewrite (eval_Select_eq _ _ _ Himg), select_reflectance.
  by destruct (filter _ (r_bands r)).
Qed.

End Stages.

Lemma updateMask_not_px s c :
  (∀ v, c = Some v → ¬ (v == 0)%Q → updateMask_px s (not_px c) = None) ∧
  (∀ v, c = Some v → (v == 0)%Q → updateMask_px s (not_px c) = s).
Proof.
  split; intros v -> Hv; cbn.
  - destruct (Qeq_bool v 0) eqn:Hq.
    + by apply Qeq_bool_iff in Hq.
    + cbn. by destruct s.
  - apply Qeq_bool_iff in Hv. rewrite Hv. cbn. by destruct s.
Qed.

Section BandSets.
Context `{EarthEngine}.

(** C5, as amended.  Each of the three deriving stages [add_cloud_bands],
  [add_shadow_bands] and [add_cld_shdw_mask], when the service evaluates
  its result, keeps every band name of the input image and adds at least
  one new name.  [apply_cld_shdw_mask] is different: its result has only
  band names of the input that match [B.*]. *)
Theorem band_growth img r :
eval_img img = Some r →
(∀ r', eval_img (add_cloud_bands img) = Some r' →
       strict_superset (band_names r) (band_names r')) ∧
(∀ use_SCL r', eval_img (add_shadow_bands img use_SCL) = Some r' →
       strict_superset (band_names r) (band_names r')) ∧
(∀ use_SCL r', eval_img (add_cld_shdw_mask img use_SCL) = Some r' →
       strict_superset (band_names r) (band_names r')) ∧
(∀ r', eval_img (apply_cld_shdw_mask img) = Some r' →
       ∀ n, n ∈ band_names r' → n ∈ band_names r ∧ reflectance_name n).
Proof.
intros Himg. split_and!.
- intros r' Hr.
  eapply (eval_AddBands_list_grows img _ [] "clouds" _ r r' Himg). exact Hr.
- intros use_SCL r' Hr.
  eapply (eval_AddBands_list_grows img _ [_] "shadows" _ r r' Himg). exact Hr.
- intros use_SCL r' Hr. unfold add_cld_shdw_mask, addBands in Hr.
  pose proof Hr as Hr0.
  apply eval_AddBands_inv in Hr0 as (r2 & _ & H2 & _ & _).
  pose proof H2 as H20. unfold add_shadow_bands, addBands in H20.
  apply eval_AddBands_inv in H20 as (r1 & _ & H1 & _ & _).
  pose proof (eval_AddBands_list_grows img _ [] "clouds" _ r r1 Himg H1) as G1.
  pose proof (eval_AddBands_list_grows _ _ [_] "shadows" _ r1 r2 H1 H2) as [G2 _].
  pose proof (eval_AddBands_grows _ _ "cloudmask" r2 r' H2 Hr) as [G3 _].
  eapply strict_superset_trans; [exact G1|].
  intros n Hn. by apply G3, G2.
- intros r' Hr n Hn. unfold apply_cld_shdw_mask, updateMask in Hr.
  apply eval_UpdateMask_names in Hr as (ra & Ha & Hnames).
  unfold select in Ha. rewrite (eval_Select_eq _ _ _ Himg) in Ha.
  rewrite select_reflectance in Ha. rewrite Hnames in Hn.
  destruct (filter _ (r_bands r)) as [|b0 bs] eqn:Hf; [done|].
  injection Ha as <-. unfold band_names in Hn. cbn [r_bands] in Hn.
  apply list_elem_of_fmap in Hn as (b & -> & Hb). rewrite <- Hf in Hb.
  apply list_elem_of_filter in Hb as [Hb Hin]. split.
  + apply list_elem_of_fmap. by exists b.
  + by apply matches_B_any.
Qed.

(** C6.  On an image with a [cloudmask] band, [apply_cld_shdw_mask] is
  evaluated to an image as soon as one band name matches [B.*]; the result
  has exactly the bands of the input whose names match [B.*]; in each of
  them a pixel is masked where [cloudmask] is not 0 (in particular where it
  is 1) and keeps its input sample where [cloudmask] is 0. *)
Theorem apply_cld_shdw_mask_spec img r cm :
eval_img img = Some r →
wf_raster r →
band_lookup r "cloudmask" = Some cm →
((∃ n, n ∈ band_names r ∧ reflectance_name n) →
 is_Some (eval_img (apply_cld_shdw_mask img))) ∧
∀ r', eval_img (apply_cld_shdw_mask img) = Some r' →
  (∀ n, n ∈ band_names r' ↔ n ∈ band_names r ∧ reflectance_name n) ∧
  (∀ n, reflectance_name n →
     match band_lookup r n with
     | Some f =>
         ∃ f', band_lookup r' n = Some f' ∧
           ∀ x v, cm x = Some v →
             (v == 1 → f' x = None)%Q ∧
             (¬ v == 0 → f' x = None)%Q ∧
             (v == 0 → f' x = f x)%Q
     | None => band_lookup r' n = None
     end).
Proof.
intros Himg Hwf Hcm. rewrite (eval_apply_cld_shdw_mask _ _ _ Himg Hwf Hcm).
split.
- intros (n & Hn & Hrefl). apply matches_B_any in Hrefl.
  apply list_elem_of_fmap in Hn as (b & -> & Hb).
  assert (Hin : b ∈ filter (λ b, Regex.matches "B.*" (band_name b) = true)
                  (r_bands r)) by by apply list_elem_of_filter.
  destruct (filter _ (r_bands r)); [by apply not_elem_of_nil in Hin|done].
- intros r' Hr.
  assert (Hr' : r' = mkRaster
            (map_band (λ f, pointwise2 updateMask_px f (pointwise not_px cm))
               <$> filter (λ b, Regex.matches "B.*" (band_name b) = true)
                     (r_bands r))
            (r_props r)).
  { destruct (filter _ (r_bands r)); [done|]. by injection Hr. }
  clear Hr. subst r'. split.
  + intros n. unfold band_names. cbn [r_bands].
    rewrite <- list_fmap_compose, !list_elem_of_fmap. split.
    * intros (b & -> & Hb). apply list_elem_of_filter in Hb as [Hb Hin].
      split; [by exists b|by apply matches_B_any].
    * intros [(b & -> & Hin) Hrefl]. exists b. split; [done|].
      apply list_elem_of_filter. split; [by apply matches_B_any|done].
  + intros n Hrefl. unfold band_lookup. cbn [r_bands].
    pose proof (find_band_map_filter
                  (λ f, pointwise2 updateMask_px f (pointwise not_px cm))
                  (λ n, Regex.matches "B.*" n = true) (r_bands r) n) as Hfind.
    rewrite decide_True in Hfind by by apply matches_B_any.
    destruct (find_band (r_bands r) n) as [f|]; [|done]. cbn in Hfind.
    eexists. split; [exact Hfind|]. intros x v Hv. unfold pointwise2, pointwise.
    destruct (updateMask_not_px (f x) (cm x)) as [Hmask Hkeep].
    split_and!.
    * intros Hv1. apply (Hmask v Hv). rewrite Hv1. done.
    * apply (Hmask v Hv).
    * apply (Hkeep v Hv).
Qed.

End BandSets.

(** C5 as the specification words it fails on the last stage: on the scene
    with its mask attached, [apply_cld_shdw_mask] returns bands [B4] and [B8]
    only, and [cloudmask] is gone. *)
Lemma band_growth_counterexample :
  let img := add_cld_shdw_mask (Asset scene) true in
  let names := ["B4"; "B8"; "SCL"; "probability"; "clouds"; "dark_pixels";
                "cloud_transform"; "shadows"; "cloudmask"] in
  band_names <$> @eval_img flat_engine img = Some names ∧
  band_names <$> @eval_img flat_engine (apply_cld_shdw_mask img)
  = Some ["B4"; "B8"] ∧
  ¬ strict_superset names ["B4"; "B8"].
Proof.
  intros img names. split; [vm_compute; reflexivity|].
  split; [vm_compute; reflexivity|].
  assert (Hin : "cloudmask" ∈ names).
  { apply (bool_decide_unpack _). vm_compute. exact I. }
  intros [Hsub _]. apply Hsub in Hin.
  revert Hin. apply (bool_decide_unpack _). vm_compute. exact I.
Qed.

(** ** The join of reflectance and cloud-probability collections *)

Lemma same_index_raster_set p v s :
  same_index (raster_set p "s2cloudless" v) s ↔ same_index p s.
Proof.
  unfold same_index, filter_holds, Filter_equals, operand_val, raster_set.
  cbn [r_props]. by rewrite lookup_insert_ne.
Qed.

Lemma same_index_props p p' s :
  r_props p !! "system:index" = r_props p' !! "system:index" →
  same_index p s → same_index p' s.
Proof.
  unfold same_index, filter_holds, Filter_equals, operand_val.
  by intros ->.
Qed.

Lemma join_saveFirst_elem key cond primary secondary o :
  o ∈ join_saveFirst key cond primary secondary ↔
  ∃ p i s, p ∈ primary ∧
           list_find (λ s, filter_holds cond p s = true) secondary = Some (i, s) ∧
           o = raster_set p key (PImg s).
Proof.
  unfold join_saveFirst. rewrite list_elem_of_omap. split.
  - intros (p & Hp & Ho).
    destruct (list_find _ secondary) as [[i s]|] eqn:Hfind; [|done].
    injection Ho as <-. by exists p, i, s.
  - intros (p & i & s & Hp & Hfind & ->). exists p. split; [done|].
    by rewrite Hfind.
Qed.

Lemma list_find_first_match p secondary i s :
  list_find (λ s, filter_holds (Filter_equals "system:index" "system:index") p s
                  = true) secondary = Some (i, s) ↔
  secondary !! i = Some s ∧ same_index p s ∧
  ∀ j s', secondary !! j = Some s' → j < i → ¬ same_index p s'.
Proof. apply list_find_Some. Qed.

Section Join.
Context `{EarthEngine}.

(** C1.  For every content of the two catalogues, the collection built by
  [get_s2_sr_cld_col] is the inner join of the reflectance collection, which
  is [COPERNICUS/S2] filtered by date, bounds and a cloudy-pixel percentage
  of at most 60, with the cloud-probability collection, which is
  [COPERNICUS/S2_CLOUD_PROBABILITY] filtered by date and bounds, on equal
  [system:index], keeping the first match.  An image is in the result
  exactly when it is a reflectance image that carries under [s2cloudless]
  the first cloud-probability image with its index; it has the bands of the
  reflectance image and its other properties; and a reflectance image
  without a cloud-probability image of its index is not in the result,
  whatever is attached to it. *)
Theorem get_s2_sr_cld_col_inner_join bounds start_date end_date :
let refl :=
  FilterBy
    (FilterBounds
       (FilterDate (ImageCollection "COPERNICUS/S2") start_date end_date)
       bounds)
    (Filter_lte "CLOUDY_PIXEL_PERCENTAGE" 60) in
let clouds :=
  FilterBounds
    (FilterDate (ImageCollection "COPERNICUS/S2_CLOUD_PROBABILITY")
       start_date end_date)
    bounds in
let joined := eval_coll (get_s2_sr_cld_col bounds start_date end_date) in
(∀ o, o ∈ joined ↔
   ∃ p s, p ∈ eval_coll refl ∧ first_match p (eval_coll clouds) s ∧
          o = raster_set p "s2cloudless" (PImg s)) ∧
(∀ p s, r_props (raster_set p "s2cloudless" (PImg s)) !! "s2cloudless"
        = Some (PImg s) ∧
        r_bands (raster_set p "s2cloudless" (PImg s)) = r_bands p ∧
        ∀ k, k ≠ "s2cloudless" →
             r_props (raster_set p "s2cloudless" (PImg s)) !! k
             = r_props p !! k) ∧
(∀ p, p ∈ eval_coll refl →
   (∀ s, s ∈ eval_coll clouds → ¬ same_index p s) →
   ∀ s, raster_set p "s2cloudless" (PImg s) ∉ joined).
Proof.
cbn zeta. unfold get_s2_sr_cld_col. cbn [eval_coll].
change CLOUD_FILTER with 60%Q.
set (P := filter _ (filter _ (filter _ (eng_catalog "COPERNICUS/S2")))).
set (S := filter _ (filter _ (eng_catalog "COPERNICUS/S2_CLOUD_PROBABILITY"))).
split_and!.
- intros o. rewrite join_saveFirst_elem. split.
  + intros (p & i & s & Hp & Hfind & ->). exists p, s. split_and!; [done| |done].
    exists i. by apply list_find_first_match.
  + intros (p & s & Hp & (i & Hfirst) & ->). exists p, i, s.
    split_and!; [done| |done]. by apply list_find_first_match.
- intros p s. cbn. split_and!.
  + apply lookup_insert_eq.
  + done.
  + intros k Hk. by rewrite lookup_insert_ne.
- intros p Hp Hnone s Ho.
  apply join_saveFirst_elem in Ho as (p' & i & s' & Hp' & Hfind & Heq).
  apply list_find_first_match in Hfind as (Hi & Hsame & _).
  apply (Hnone s'); [by eapply list_elem_of_lookup_2|].
  apply (same_index_props p'); [|done].
  assert (Hprops : r_props (raster_set p "s2cloudless" (PImg s))
                   = r_props (raster_set p' "s2cloudless" (PImg s')))
    by by rewrite Heq.
  cbn in Hprops.
  apply (f_equal (λ m : gmap string PropVal, m !! "system:index")) in Hprops.
  by rewrite !lookup_insert_ne in Hprops.
Qed.

End Join.

(** The example of the specification: of the primaries [x1] and [x2] only
    [x1] has a cloud-probability image, so the join returns [x1] alone, with
    that image attached. *)
Example join_example :
  @eval_coll flat_engine
    (get_s2_sr_cld_col (Geometry_Rectangle [0; 0; 1; 1]%Q "epsg:3413" false true)
       0 5000)
  = [raster_set scene_x1 "s2cloudless" (PImg prob_x1)].
Proof. vm_compute. reflexivity. Qed.

(** ** Region reduction *)

Lemma mapM_total {A B} (g : A → B) (l : list A) :
  mapM (λ x, Some (g x)) l = Some (g <$> l).
Proof.
  induction l as [|a l IH]; [done|]. cbn. rewrite IH. done.
Qed.

Section Reduce.
Context `{EarthEngine}.

(** C7.  With [add_date] set, on an image whose acquisition time is [t],
  the function made by [create_reduce_regions] returns one feature for each
  feature of the reduction, every one of them carries [t] under [millis],
  so all features made from one image carry the same timestamp. *)
Theorem reduce_regions_millis collection reducer add_props crs scale img d t :
eng_reduceRegions img collection reducer crs scale = Some d →
date_millis img = Some t →
∃ fc,
  create_reduce_regions collection reducer true add_props crs scale img
  = Some fc ∧
  length fc = length d ∧
  (∀ f, f ∈ fc → f_props f !! "millis" = Some (PNum t)) ∧
  (∀ f g, f ∈ fc → g ∈ fc → f_props f !! "millis" = f_props g !! "millis").
Proof.
intros Hd Ht. unfold create_reduce_regions. rewrite Hd. cbn [mbind option_bind].
rewrite Ht. cbn [mbind option_bind].
set (d' := match add_props with Some _ => _ | None => d end).
assert (Hlen : length d' = length d).
{ subst d'. destruct add_props; [by rewrite length_fmap|done]. }
rewrite (mapM_total (λ f, feature_set f "millis" (Some (PNum t)))).
eexists. split; [reflexivity|].
assert (Hall : ∀ f,
  f ∈ (λ f, feature_set f "millis" (Some (PNum t))) <$> d' →
  f_props f !! "millis" = Some (PNum t)).
{ intros f (f0 & -> & _)%list_elem_of_fmap. cbn. apply lookup_insert_eq. }
split_and!.
- by rewrite length_fmap.
- exact Hall.
- intros f g Hf Hg. by rewrite (Hall f Hf), (Hall g Hg).
Qed.

End Reduce.

(** ** Errors raised by the client *)

Section ClientErrors.
Context `{Service}.

(** C8.  [fc_to_df] called with selectors that are neither [None] nor a list
  raises [AssertionError], and [fc_to_dict] and [create_df] raise
  [NotImplementedError] on every argument; in the three cases the log of
  requests sent to the service is left as it was. *)
Theorem errors_before_any_request fc dictobj selectors log :
selectors ≠ PyNone →
isinstance_list selectors = false →
fc_to_df fc selectors log = (Raise AssertionError, log) ∧
fc_to_dict fc log = (Raise NotImplementedError, log) ∧
create_df dictobj log = (Raise NotImplementedError, log).
Proof.
intros Hnone Hlist. split_and!; [|reflexivity|reflexivity].
unfold fc_to_df.
destruct selectors; try done; unfold bind, py_assert; cbn; reflexivity.
Qed.

(** C10 fails on the code.  [get_date] hands the callback [cb] to [getInfo],
  which takes none: the call raises [TypeError], for every image and every
  state of the service, before any request is sent and before any datetime
  is built. *)
Theorem get_date_raises im attr log :
get_date im attr log = (Raise TypeError, log).
Proof. reflexivity. Qed.

End ClientErrors.

(** The statements after the call would turn a millisecond value [t] into
    the datetime of POSIX time [t * 1e-3], that is [t / 1000] seconds. *)
Lemma timestamp_conversion t log :
  (do seconds <- py_mul (PyNum t) 1e-3; datetime_fromtimestamp seconds) log
  = (Ret (PyDatetime (t * 1e-3)), log) ∧
  (t * 1e-3 == t / 1000)%Q.
Proof. split; reflexivity. Qed.

(** On the example scene, whose [system:time_start] is 1000, no datetime
    comes back and the service is not asked. *)
Example get_date_scene :
  @get_date flat_service (Asset scene) "system:time_start" []
  = (Raise TypeError, []).
Proof. reflexivity. Qed.
(** ** Determinism *)

Ltac unfold_calls :=
  unfold select, gt, lt, neq, add, multiply, rename, addBands,
    normalizedDifference, directionalDistanceTransform, reproject, mask,
    focalMin, focalMax, updateMask, projection, ee_Image_get, ee_Number_get,
    ee_Image_list.

Ltac unfold_run :=
  unfold Run.add_cld_shdw_mask, Run.add_shadow_bands, Run.add_cloud_bands,
    Run.apply_cld_shdw_mask, py_bind, py_ret, load_global.

(** From the state that the import leaves, a run returns the graph of the
    stage with the constants of the module in place, so the statements about
    [add_cloud_bands] and the other stages are statements about these runs. *)
Lemma run_imported img use_SCL random :
  Run.add_cloud_bands img (imported random)
  = (add_cloud_bands img, imported random) ∧
  Run.add_shadow_bands img use_SCL (imported random)
  = (add_shadow_bands img use_SCL, imported random) ∧
  Run.add_cld_shdw_mask img use_SCL (imported random)
  = (add_cld_shdw_mask img use_SCL, imported random) ∧
  Run.apply_cld_shdw_mask img (imported random)
  = (apply_cld_shdw_mask img, imported random).
Proof. split_and!; reflexivity. Qed.

(** A run leaves the interpreter as it found it. *)
Lemma run_frame img use_SCL s :
  (Run.add_cloud_bands img s).2 = s ∧
  (Run.add_shadow_bands img use_SCL s).2 = s ∧
  (Run.add_cld_shdw_mask img use_SCL s).2 = s ∧
  (Run.apply_cld_shdw_mask img s).2 = s.
Proof. split_and!; reflexivity. Qed.

(** The globals are read when the stage is called: with [CLD_PRB_THRESH]
    rebound from 40 to 60 the [clouds] band of the example scene, whose cloud
    probability is 50, turns from 1 to 0. *)
Example rebound_threshold_changes_clouds :
  let clouds_at (s : PyState) :=
    r ← @eval_img flat_engine (Run.add_cloud_bands (Asset scene) s).1;
    f ← band_lookup r "clouds";
    f (0, 0)%Z in
  clouds_at (imported []) = Some 1%Q ∧
  clouds_at (mkPyState (mkGlobals 60 60 0.15 1 100) []) = Some 0%Q.
Proof. split; vm_compute; reflexivity. Qed.

(** The last stage runs the two before it, from the same state. *)
Lemma run_add_cld_shdw_mask img use_SCL s :
  (Run.add_cld_shdw_mask img use_SCL s).1
  = let img_cloud_shadow :=
      (Run.add_shadow_bands (Run.add_cloud_bands img s).1 use_SCL s).1 in
    img_cloud_shadow
    |> addBands
         (img_cloud_shadow
          |> select (ByName "clouds")
          |> add (img_cloud_shadow |> select (ByName "shadows"))
          |> gt 0
          |> focalMin 2
          |> focalMax (g_BUFFER (py_globals s) * 2 / 20)
          |> reproject (img |> select (ByIndex 0) |> projection) 20
          |> rename "cloudmask").
Proof. reflexivity. Qed.

Section Determinism.
Context `{EarthEngine}.

Lemma add_cloud_bands_congr a b s1 s2 :
  eval_img a = eval_img b →
  same_thresholds s1 s2 →
  eval_img (Run.add_cloud_bands a s1).1 = eval_img (Run.add_cloud_bands b s2).1.
Proof.
  intros Hab (Hprb & _). unfold_run. cbn [fst]. unfold_calls.
  cbn [eval_img foldl]. by rewrite Hab, Hprb.
Qed.

Lemma add_shadow_bands_congr a b use_SCL s1 s2 :
  eval_img a = eval_img b →
  same_thresholds s1 s2 →
  eval_img (Run.add_shadow_bands a use_SCL s1).1
  = eval_img (Run.add_shadow_bands b use_SCL s2).1.
Proof.
  intros Hab (_ & Hnir & Hdist & _). unfold_run. cbn [fst]. unfold_calls.
  destruct use_SCL; cbn [eval_img eval_num eval_proj foldl];
    by rewrite Hab, Hnir, Hdist.
Qed.

Lemma add_cld_shdw_mask_congr a b use_SCL s1 s2 :
  eval_img a = eval_img b →
  same_thresholds s1 s2 →
  eval_img (Run.add_cld_shdw_mask a use_SCL s1).1
  = eval_img (Run.add_cld_shdw_mask b use_SCL s2).1.
Proof.
  intros Hab Hs.
  pose proof (add_shadow_bands_congr _ _ use_SCL s1 s2
                (add_cloud_bands_congr _ _ s1 s2 Hab Hs) Hs) as Hics.
  destruct Hs as (_ & _ & _ & Hbuf).
  rewrite !run_add_cld_shdw_mask. cbn zeta. unfold_calls.
  cbn [eval_img eval_proj]. by rewrite Hics, Hab, Hbuf.
Qed.

Lemma apply_cld_shdw_mask_congr a b s1 s2 :
  eval_img a = eval_img b →
  eval_img (Run.apply_cld_shdw_mask a s1).1
  = eval_img (Run.apply_cld_shdw_mask b s2).1.
Proof.
  intros Hab. unfold_run. cbn [fst]. unfold_calls.
  cbn [eval_img]. by rewrite Hab.
Qed.


End Determinism.

(** ** Provenance of band names *)

Lemma head_char_app s t c :
  head_char s = Some c → head_char (s +:+ t) = Some c.
Proof. by destruct s. Qed.

Lemma fresh_suffix_shape used base fuel :
  ∀ k, ∃ k', fresh_suffix used base k fuel = suffixed base k'.
Proof.
  induction fuel as [|fuel IH]; intros k; cbn; [by exists k|].
  case_bool_decide; [apply IH|by exists k].
Qed.

Lemma fresh_name_head used base c :
  head_char base = Some c → head_char (fresh_name used base) = Some c.
Proof.
  intros Hc. unfold fresh_name. case_bool_decide; [|done].
  destruct (fresh_suffix_shape used base (length used) 1) as [k ->].
  by apply head_char_app.
Qed.

Lemma reflectance_name_head n :
  reflectance_name n ↔ head_char n = Some "B"%char.
Proof.
  split.
  - by intros [t ->].
  - destruct n as [|c t]; [done|]. intros [= ->]. by exists t.
Qed.

Lemma derived_not_reflectance n : derived_name n → ¬ reflectance_name n.
Proof.
  intros (c & Hc & Hd) Hr. apply reflectance_name_head in Hr.
  rewrite Hr in Hc. injection Hc as <-.
  destruct Hd as [Hd|[Hd|[Hd|Hd]]]; discriminate Hd.
Qed.

Lemma add_bands_provenance dst src n :
  Forall derived_name (band_name <$> src) →
  n ∈ band_name <$> add_bands dst src →
  n ∈ band_name <$> dst ∨ derived_name n.
Proof.
  revert dst. induction src as [|b src IH]; intros dst Hsrc Hn; [by left|].
  cbn in Hsrc. apply Forall_cons in Hsrc as [Hb Hsrc].
  rewrite add_bands_cons in Hn. apply IH in Hn; [|done].
  destruct Hn as [Hn|Hn]; [|by right].
  unfold add_band in Hn. rewrite fmap_app, elem_of_app in Hn.
  destruct Hn as [Hn|Hn]; [by left|]. right.
  cbn in Hn. apply list_elem_of_singleton in Hn as ->.
  destruct Hb as (c & Hc & Hd). exists c. split; [|done].
  by apply fresh_name_head.
Qed.

Lemma add_bands_derived dst src :
  Forall derived_name (band_name <$> dst) →
  Forall derived_name (band_name <$> src) →
  Forall derived_name (band_name <$> add_bands dst src).
Proof.
  intros Hdst Hsrc. apply Forall_forall. intros n Hn.
  apply add_bands_provenance in Hn as [Hn|Hn]; [|done|done].
  rewrite Forall_forall in Hdst. by apply Hdst.
Qed.

Section NameInversion.
Context `{EarthEngine}.

Lemma eval_rename_names e m r :
  eval_img (rename m e) = Some r → band_names r = [m].
Proof.
  cbn. destruct (eval_img e) as [re|]; [|done]. cbn.
  unfold rename_bands. case_decide as Hlen; [|done]. cbn.
  intros [= <-]. unfold band_names. cbn [r_bands].
  destruct (r_bands re) as [|b [|b' bs]]; try done.
Qed.

Lemma eval_select_literal_names e n r :
  Regex.literal n = true →
  eval_img (select (ByName n) e) = Some r →
  Forall (λ m, m = n) (band_names r).
Proof.
  intros Hlit. cbn. destruct (eval_img e) as [re|]; [|done]. cbn.
  unfold select_bands. cbn.
  destruct (filter _ (r_bands re)) as [|b bs] eqn:Hf; [done|]. cbn.
  intros [= <-]. unfold band_names. cbn [r_bands]. rewrite app_nil_r.
  apply Forall_forall. intros m (b' & -> & Hb')%list_elem_of_fmap.
  rewrite <- Hf in Hb'. apply list_elem_of_filter in Hb' as [Hm _].
  by apply matches_literal in Hm.
Qed.

Lemma eval_select_absent e r n :
  eval_img e = Some r → Regex.literal n = true →
  n ∉ band_names r →
  eval_img (select (ByName n) e) = None.
Proof.
  intros He Hlit Hn. unfold select. rewrite (eval_Select_eq _ _ _ He).
  unfold select_bands. cbn.
  rewrite (list_filter_iff _ (λ b, band_name b = n)).
  2:{ intros b. by apply matches_literal. }
  by rewrite filter_name_absent.
Qed.

Lemma eval_AddBands_keeps dst src rd r' :
  eval_img dst = Some rd →
  eval_img (AddBands dst src) = Some r' →
  keeps_input rd r'.
Proof.
  intros Hd Hr. apply eval_AddBands_inv in Hr as (rd' & rs & Hd' & _ & ->).
  rewrite Hd in Hd'. injection Hd' as <-. split; [done|].
  destruct (add_bands_extends (r_bands rd) (r_bands rs)) as (ext & Hext & _).
  by exists ext.
Qed.

Lemma keeps_input_trans r1 r2 r3 :
  keeps_input r1 r2 → keeps_input r2 r3 → keeps_input r1 r3.
Proof.
  intros [Hp1 [e1 Hb1]] [Hp2 [e2 Hb2]]. split; [congruence|].
  exists (e1 ++ e2). by rewrite Hb2, Hb1, app_assoc.
Qed.

Lemma keeps_input_lookup r r' n f :
  keeps_input r r' → band_lookup r n = Some f → band_lookup r' n = Some f.
Proof.
  intros [_ [ext Hb]] Hf. unfold band_lookup. rewrite Hb.
  by apply find_band_app_l.
Qed.

End NameInversion.

Lemma derived_name_literal n c t :
  n = String c t → (c = "p" ∨ c = "c" ∨ c = "d" ∨ c = "s")%char →
  derived_name n.
Proof. intros -> Hc. by exists c. Qed.

Ltac derived_literal :=
  eapply derived_name_literal; [reflexivity|]; auto.

Lemma extends_derived_trans r1 r2 r3 :
  extends_derived r1 r2 → extends_derived r2 r3 → extends_derived r1 r3.
Proof.
  intros [Hk1 Hn1] [Hk2 Hn2]. split; [by eapply keeps_input_trans|].
  intros n Hn. apply Hn2 in Hn as [Hn|Hn]; [by apply Hn1|by right].
Qed.

Section StageNames.
Context `{EarthEngine}.

Lemma eval_Rename_inv a names r :
  eval_img (Rename a names) = Some r → ∃ ra, eval_img a = Some ra.
Proof. cbn. destruct (eval_img a) as [ra|]; [by exists ra|done]. Qed.

Lemma eval_BinOp_inv op a b r :
  eval_img (BinOp op a b) = Some r →
  ∃ ra rb, eval_img a = Some ra ∧ eval_img b = Some rb.
Proof.
  cbn. destruct (eval_img a) as [ra|]; [|done]. cbn.
  destruct (eval_img b) as [rb|]; [|done]. by exists ra, rb.
Qed.

Lemma eval_AddBands_extends_derived dst src rd r' :
  eval_img dst = Some rd →
  eval_img (AddBands dst src) = Some r' →
  (∀ rs, eval_img src = Some rs → Forall derived_name (band_names rs)) →
  extends_derived rd r'.
Proof.
  intros Hd Hr Hsrc. split; [by eapply eval_AddBands_keeps|].
  apply eval_AddBands_inv in Hr as (rd' & rs & Hd' & Hs & ->).
  rewrite Hd in Hd'. injection Hd' as <-.
  intros n Hn. unfold band_names in Hn. cbn [r_bands] in Hn.
  apply add_bands_provenance in Hn; [done|]. by apply Hsrc.
Qed.

Lemma eval_AddBands_wf dst src rd r' :
  eval_img dst = Some rd → wf_raster rd →
  eval_img (AddBands dst src) = Some r' →
  wf_raster r'.
Proof.
  intros Hd Hwf Hr.
  apply eval_AddBands_inv in Hr as (rd' & rs & Hd' & _ & ->).
  rewrite Hd in Hd'. injection Hd' as <-.
  unfold wf_raster, band_names. cbn [r_bands]. by apply add_bands_NoDup.
Qed.

Lemma rename_derived e m c t rs :
  m = String c t → (c = "p" ∨ c = "c" ∨ c = "d" ∨ c = "s")%char →
  eval_img (rename m e) = Some rs → Forall derived_name (band_names rs).
Proof.
  intros Hm Hc Hr. rewrite (eval_rename_names _ _ _ Hr).
  repeat constructor. by eapply derived_name_literal.
Qed.

Lemma cloud_src_derived img rs :
  eval_img (ee_Image_list
              (img |> ee_Image_get "s2cloudless" |> select (ByName "probability"))
              [img |> ee_Image_get "s2cloudless" |> select (ByName "probability")
                   |> gt CLD_PRB_THRESH |> rename "clouds"]) = Some rs →
  Forall derived_name (band_names rs).
Proof.
  intros Hr. cbn [ee_Image_list foldl] in Hr.
  apply eval_AddBands_inv in Hr as (ra & rb & Ha & Hb & ->).
  unfold band_names. cbn [r_bands]. apply add_bands_derived.
  - apply (eval_select_literal_names _ "probability") in Ha; [|done].
    eapply Forall_impl; [exact Ha|]. intros n ->. derived_literal.
  - eapply rename_derived; [reflexivity| |exact Hb]. auto.
Qed.

Lemma add_cloud_bands_extends img r r' :
  eval_img img = Some r →
  eval_img (add_cloud_bands img) = Some r' →
  extends_derived r r'.
Proof.
  intros Himg Hr. unfold add_cloud_bands, addBands in Hr.
  eapply eval_AddBands_extends_derived; [exact Himg|exact Hr|].
  exact (cloud_src_derived img).
Qed.

Lemma add_shadow_bands_extends img use_SCL r r' :
  eval_img img = Some r →
  eval_img (add_shadow_bands img use_SCL) = Some r' →
  extends_derived r r'.
Proof.
  intros Himg Hr. unfold add_shadow_bands, addBands in Hr.
  eapply eval_AddBands_extends_derived; [exact Himg|exact Hr|].
  intros rs Hs. cbn [ee_Image_list foldl] in Hs.
  apply eval_AddBands_inv in Hs as (rab & rc & Hab & Hc & ->).
  apply eval_AddBands_inv in Hab as (ra & rb & Ha & Hb & ->).
  unfold band_names. cbn [r_bands]. apply add_bands_derived.
  - apply add_bands_derived.
    + eapply rename_derived; [reflexivity| |exact Ha]. auto.
    + eapply rename_derived; [reflexivity| |exact Hb]. auto.
  - eapply rename_derived; [reflexivity| |exact Hc]. auto.
Qed.

Lemma add_cld_shdw_mask_stages img use_SCL r' :
  eval_img (add_cld_shdw_mask img use_SCL) = Some r' →
  ∃ r r1 r2,
    eval_img img = Some r ∧
    eval_img (add_cloud_bands img) = Some r1 ∧
    eval_img (add_shadow_bands (add_cloud_bands img) use_SCL) = Some r2 ∧
    extends_derived r r1 ∧ extends_derived r1 r2 ∧ extends_derived r2 r'.
Proof.
  intros Hr. unfold add_cld_shdw_mask, addBands in Hr.
  pose proof Hr as Hr0.
  apply eval_AddBands_inv in Hr0 as (r2 & _ & H2 & _ & _).
  pose proof H2 as H20. unfold add_shadow_bands, addBands in H20.
  apply eval_AddBands_inv in H20 as (r1 & _ & H1 & _ & _).
  pose proof H1 as H10. unfold add_cloud_bands, addBands in H10.
  apply eval_AddBands_inv in H10 as (r & _ & H0 & _ & _).
  exists r, r1, r2. split_and!; try done.
  - by apply (add_cloud_bands_extends img).
  - by apply (add_shadow_bands_extends (add_cloud_bands img) use_SCL).
  - eapply eval_AddBands_extends_derived; [exact H2|exact Hr|].
    intros rs Hs. eapply rename_derived; [reflexivity| |exact Hs]. auto.
Qed.

Lemma add_cld_shdw_mask_extends img use_SCL r r' :
  eval_img img = Some r →
  eval_img (add_cld_shdw_mask img use_SCL) = Some r' →
  extends_derived r r'.
Proof.
  intros Himg Hr.
  apply add_cld_shdw_mask_stages in Hr as (r0 & r1 & r2 & H0 & _ & _ & E1 & E2 & E3).
  rewrite Himg in H0. injection H0 as <-.
  eapply extends_derived_trans; [exact E1|].
  eapply extends_derived_trans; [exact E2|exact E3].
Qed.

Lemma extends_derived_wf r r' :
  extends_derived r r' → wf_raster r' →
  ∃ ext, r_bands r' = r_bands r ++ ext ∧
         Forall derived_name (band_name <$> ext).
Proof.
  intros [[_ [ext Hext]] Hnames] Hwf. exists ext. split; [done|].
  apply Forall_forall. intros n Hn.
  destruct (Hnames n) as [Hin|Hd]; [|  |done].
  - unfold band_names. rewrite Hext, fmap_app, elem_of_app. by right.
  - unfold wf_raster, band_names in Hwf. rewrite Hext, fmap_app in Hwf.
    apply NoDup_app in Hwf as (_ & Hdisj & _). by apply Hdisj in Hin.
Qed.

End StageNames.

Lemma filter_derived_nil ext :
  Forall derived_name (band_name <$> ext) →
  filter (λ b, Regex.matches "B.*" (band_name b) = true) ext = [].
Proof.
  induction ext as [|b ext IH]; [done|]. rewrite fmap_cons.
  intros [Hb Hext]%Forall_cons.
  rewrite filter_cons_False; [by apply IH|].
  intros Hm. apply matches_B_any in Hm. by apply derived_not_reflectance in Hb.
Qed.

Section MoreStages.
Context `{EarthEngine}.

Lemma eval_Select_inv e sels rs :
  eval_img (Select e sels) = Some rs → ∃ r, eval_img e = Some r.
Proof. cbn. destruct (eval_img e) as [r|]; [by exists r|done]. Qed.

Lemma eval_Not_inv e r :
  eval_img (Not e) = Some r → ∃ re, eval_img e = Some re.
Proof. cbn. destruct (eval_img e) as [re|]; [by exists re|done]. Qed.

Lemma eval_UpdateMask_inv a m r :
  eval_img (UpdateMask a m) = Some r →
  ∃ ra rm, eval_img a = Some ra ∧ eval_img m = Some rm.
Proof.
  cbn. destruct (eval_img a) as [ra|]; [|done]. cbn.
  destruct (eval_img m) as [rm|]; [|done]. by exists ra, rm.
Qed.

Lemma eval_select_literal_inv e r n rs :
  eval_img e = Some r → Regex.literal n = true →
  eval_img (select (ByName n) e) = Some rs →
  ∃ f, band_lookup r n = Some f.
Proof.
  intros He Hlit Hs. unfold band_lookup.
  destruct (find_band (r_bands r) n) as [f|] eqn:Hf; [by exists f|].
  apply find_band_None in Hf.
  by rewrite (eval_select_absent _ _ _ He Hlit Hf) in Hs.
Qed.

Lemma add_cld_shdw_mask_wf img use_SCL r r' :
  eval_img img = Some r → wf_raster r →
  eval_img (add_cld_shdw_mask img use_SCL) = Some r' →
  wf_raster r'.
Proof.
  intros Himg Hwf Hr.
  pose proof (add_cld_shdw_mask_stages _ _ _ Hr)
    as (r0 & r1 & r2 & H0 & H1 & H2 & _).
  rewrite Himg in H0. injection H0 as <-.
  unfold add_cld_shdw_mask, addBands in Hr.
  eapply eval_AddBands_wf; [exact H2| |exact Hr].
  unfold add_shadow_bands, addBands in H2.
  eapply eval_AddBands_wf; [exact H1| |exact H2].
  unfold add_cloud_bands, addBands in H1.
  eapply eval_AddBands_wf; [exact Himg|exact Hwf|exact H1].
Qed.

Lemma apply_cld_shdw_mask_inv img r' :
  eval_img (apply_cld_shdw_mask img) = Some r' →
  ∃ r rs, eval_img img = Some r ∧
          eval_img (img |> select (ByName "cloudmask")) = Some rs.
Proof.
  intros Hr. unfold apply_cld_shdw_mask, updateMask in Hr.
  apply eval_UpdateMask_inv in Hr as (ra & rm & Ha & Hm).
  apply eval_Select_inv in Ha as [r Himg].
  apply eval_Not_inv in Hm as [rs Hs]. by exists r, rs.
Qed.

Lemma pipeline_apply_eval img use_SCL r r' :
  eval_img img = Some r → wf_raster r →
  eval_img (apply_cld_shdw_mask (add_cld_shdw_mask img use_SCL)) = Some r' →
  ∃ r1 cm,
    eval_img (add_cld_shdw_mask img use_SCL) = Some r1 ∧
    band_lookup r1 "cloudmask" = Some cm ∧
    r' = mkRaster
           (map_band (λ f, pointwise2 updateMask_px f (pointwise not_px cm))
              <$> filter (λ b, Regex.matches "B.*" (band_name b) = true)
                    (r_bands r))
           (r_props r).
Proof.
  intros Himg Hwf Hr.
  pose proof (apply_cld_shdw_mask_inv _ _ Hr) as (r1 & rs & H1 & Hs).
  pose proof (add_cld_shdw_mask_wf _ _ _ _ Himg Hwf H1) as Hwf1.
  pose proof (add_cld_shdw_mask_extends _ _ _ _ Himg H1) as Hext.
  destruct (eval_select_literal_inv _ _ "cloudmask" _ H1 eq_refl Hs) as [cm Hcm].
  exists r1, cm. split; [done|]. split; [done|].
  rewrite (eval_apply_cld_shdw_mask _ _ _ H1 Hwf1 Hcm) in Hr.
  destruct (extends_derived_wf _ _ Hext Hwf1) as (ext & Hb & Hd).
  destruct Hext as [[Hprops _] _].
  rewrite Hb, filter_app, (filter_derived_nil _ Hd), app_nil_r, Hprops in Hr.
  destruct (filter _ (r_bands r)); [done|]. by injection Hr as <-.
Qed.

End MoreStages.

Lemma updateMask_px_cases s m :
  updateMask_px s m = s ∨ updateMask_px s m = None.
Proof.
  destruct s as [a|], m as [mv|]; cbn; auto.
  destruct (Qeq_bool mv 0); auto.
Qed.

Section StageFacts.
Context `{EarthEngine}.

Lemma apply_names_reflectance img r' :
  eval_img (apply_cld_shdw_mask img) = Some r' →
  Forall reflectance_name (band_names r').
Proof.
  intros Hr. unfold apply_cld_shdw_mask, updateMask in Hr.
  apply eval_UpdateMask_names in Hr as (ra & Ha & ->).
  pose proof (eval_Select_inv _ _ _ Ha) as [r Himg].
  unfold select in Ha. rewrite (eval_Select_eq _ _ _ Himg) in Ha.
  rewrite select_reflectance in Ha.
  destruct (filter _ (r_bands r)) as [|b0 bs] eqn:Hf; [done|].
  injection Ha as <-. unfold band_names. cbn [r_bands]. rewrite <- Hf.
  apply Forall_forall. intros n (b & -> & Hb)%list_elem_of_fmap.
  apply list_elem_of_filter in Hb as [Hb _]. by apply matches_B_any.
Qed.

Lemma shadow_needs_SCL img r :
  eval_img img = Some r → "SCL" ∉ band_names r →
  eval_img (add_shadow_bands img true) = None.
Proof.
  intros Himg Hscl.
  destruct (eval_img (add_shadow_bands img true)) as [r'|] eqn:Hr; [|done].
  exfalso. unfold add_shadow_bands, addBands in Hr.
  apply eval_AddBands_inv in Hr as (_ & rs & _ & Hs & _).
  cbn [ee_Image_list foldl] in Hs.
  apply eval_AddBands_inv in Hs as (rab & _ & Hab & _ & _).
  apply eval_AddBands_inv in Hab as (ra & _ & Ha & _ & _).
  apply eval_Rename_inv in Ha as [rm Hm].
  apply eval_BinOp_inv in Hm as (_ & rn & _ & Hn).
  apply eval_BinOp_inv in Hn as (rsel & _ & Hsel & _).
  by rewrite (eval_select_absent _ _ "SCL" Himg eq_refl Hscl) in Hsel.
Qed.

(** X1.  The three deriving stages never touch what the image already has:
    the result has the same properties, and the bands of the input come
    first, in their order, with their names and samples; so every band that
    could be read from the input reads the same from the result. *)
Theorem stages_keep_input img r r' :
  eval_img img = Some r →
  eval_img (add_cloud_bands img) = Some r' ∨
  (∃ use_SCL, eval_img (add_shadow_bands img use_SCL) = Some r') ∨
  (∃ use_SCL, eval_img (add_cld_shdw_mask img use_SCL) = Some r') →
  r_props r' = r_props r ∧
  (∃ ext, r_bands r' = r_bands r ++ ext) ∧
  ∀ n f, band_lookup r n = Some f → band_lookup r' n = Some f.
Proof.
  intros Himg Hr.
  assert (Hk : keeps_input r r').
  { destruct Hr as [Hr|[[u Hr]|[u Hr]]].
    - by apply (add_cloud_bands_extends img).
    - by apply (add_shadow_bands_extends img u).
    - by apply (add_cld_shdw_mask_extends img u). }
  destruct Hk as [Hp He]. split_and!; [done|done|].
  intros n f Hf. by apply (keeps_input_lookup r r').
Qed.

(** X2.  Deriving the mask and applying it returns the reflectance bands of
    the original scene and nothing else: the properties are those of the
    scene, the band names are the names of the scene that match [B.*], and
    every sample is the sample of the scene or is masked. *)
Theorem pipeline_returns_reflectance img use_SCL r r' :
  eval_img img = Some r →
  wf_raster r →
  eval_img (apply_cld_shdw_mask (add_cld_shdw_mask img use_SCL)) = Some r' →
  r_props r' = r_props r ∧
  (∀ n, n ∈ band_names r' ↔ n ∈ band_names r ∧ reflectance_name n) ∧
  length (r_bands r') ≤ length (r_bands r) ∧
  ∀ n f, band_lookup r n = Some f → reflectance_name n →
    ∃ f', band_lookup r' n = Some f' ∧ ∀ x, f' x = f x ∨ f' x = None.
Proof.
  intros Himg Hwf Hr.
  destruct (pipeline_apply_eval _ _ _ _ Himg Hwf Hr) as (r1 & cm & _ & _ & ->).
  split_and!.
  - done.
  - intros n. unfold band_names. cbn [r_bands].
    rewrite <- list_fmap_compose, !list_elem_of_fmap. split.
    + intros (b & -> & Hb). apply list_elem_of_filter in Hb as [Hb Hin].
      split; [by exists b|by apply matches_B_any].
    + intros [(b & -> & Hin) Hrefl]. exists b. split; [done|].
      apply list_elem_of_filter. split; [by apply matches_B_any|done].
  - cbn [r_bands]. rewrite length_fmap. apply length_filter.
  - intros n f Hf Hrefl. unfold band_lookup in *. cbn [r_bands].
    pose proof (find_band_map_filter
                  (λ f, pointwise2 updateMask_px f (pointwise not_px cm))
                  (λ n, Regex.matches "B.*" n = true) (r_bands r) n) as Hfind.
    rewrite decide_True in Hfind by by apply matches_B_any.
    rewrite Hf in Hfind. cbn in Hfind.
    eexists. split; [exact Hfind|]. intros x. apply updateMask_px_cases.
Qed.

(** X3.  [apply_cld_shdw_mask] cannot be applied to its own result: the
    result has no [cloudmask] band left, so the second application fails for
    every image. *)
Theorem apply_twice_fails img :
  eval_img (apply_cld_shdw_mask (apply_cld_shdw_mask img)) = None.
Proof.
  destruct (eval_img (apply_cld_shdw_mask (apply_cld_shdw_mask img)))
    as [r2|] eqn:Hr; [|done].
  exfalso. apply apply_cld_shdw_mask_inv in Hr as (r1 & rs & H1 & Hs).
  destruct (eval_select_literal_inv _ _ "cloudmask" _ H1 eq_refl Hs) as [f Hf].
  apply find_band_Some in Hf.
  pose proof (apply_names_reflectance _ _ H1) as Hall.
  rewrite Forall_forall in Hall.
  destruct (Hall "cloudmask") as [t Ht]; [|discriminate Ht].
  apply list_elem_of_fmap. by exists (mkBand "cloudmask" f).
Qed.

(** X4.  With [use_SCL] set, an image without an [SCL] band cannot be
    processed: [add_shadow_bands] fails, and so do [add_cld_shdw_mask] and
    the application of the mask after it. *)
Theorem missing_SCL_fails img r :
  eval_img img = Some r →
  "SCL" ∉ band_names r →
  eval_img (add_shadow_bands img true) = None ∧
  eval_img (add_cld_shdw_mask img true) = None ∧
  eval_img (apply_cld_shdw_mask (add_cld_shdw_mask img true)) = None.
Proof.
  intros Himg Hscl.
  assert (Hmask : eval_img (add_cld_shdw_mask img true) = None).
  { destruct (eval_img (add_cld_shdw_mask img true)) as [r'|] eqn:Hr; [|done].
    exfalso.
    apply add_cld_shdw_mask_stages in Hr
      as (r0 & r1 & r2 & H0 & H1 & H2 & [_ E1] & _).
    rewrite Himg in H0. injection H0 as <-.
    rewrite (shadow_needs_SCL _ r1 H1) in H2; [done|].
    intros Hin. apply E1 in Hin as [Hin|(c & Hc & Hd)]; [done|].
    injection Hc as <-. destruct Hd as [Hd|[Hd|[Hd|Hd]]]; discriminate Hd. }
  split_and!; [by eapply shadow_needs_SCL|done|].
  destruct (eval_img (apply_cld_shdw_mask (add_cld_shdw_mask img true)))
    as [r'|] eqn:Hr; [|done].
  apply apply_cld_shdw_mask_inv in Hr as (r1 & _ & H1 & _). congruence.
Qed.

(** X5.  [add_cloud_bands] needs the cloud-probability image: it fails on an
    image that has no image under [s2cloudless], and on one whose attached
    image has no [probability] band. *)
Theorem add_cloud_bands_needs_probability img r :
  eval_img img = Some r →
  (match r_props r !! "s2cloudless" with
   | Some (PImg cr) => "probability" ∉ band_names cr
   | _ => True
   end) →
  eval_img (add_cloud_bands img) = None.
Proof.
  intros Himg Hmiss.
  destruct (eval_img (add_cloud_bands img)) as [r'|] eqn:Hr; [|done].
  exfalso. unfold add_cloud_bands, addBands in Hr.
  apply eval_AddBands_inv in Hr as (_ & rs & _ & Hs & _).
  cbn [ee_Image_list foldl] in Hs.
  apply eval_AddBands_inv in Hs as (ra & _ & Ha & _ & _).
  pose proof (eval_Select_inv _ _ _ Ha) as [cr Hcr].
  pose proof Hcr as Hcr'. cbn in Hcr'. rewrite Himg in Hcr'. cbn in Hcr'.
  destruct (r_props r !! "s2cloudless") as [[q|s|cr']|]; try done.
  injection Hcr' as ->.
  by rewrite (eval_select_absent _ _ "probability" Hcr eq_refl Hmiss) in Ha.
Qed.

End StageFacts.

(** ** Samples of the derived bands *)

Lemma union_bits a b :
  is_bit a → is_bit b →
  let u := binop_px OpGt (binop_px OpAdd a b) (Some 0%Q) in
  is_bit u ∧
  (u = Some 1%Q ↔ (a = Some 1%Q ∧ b ≠ None) ∨ (b = Some 1%Q ∧ a ≠ None)) ∧
  (u = Some 0%Q ↔ a = Some 0%Q ∧ b = Some 0%Q) ∧
  (u = None ↔ a = None ∨ b = None).
Proof.
  intros [-> | [-> | ->]] [-> | [-> | ->]]; cbn; unfold is_bit;
    split_and!; try tauto; naive_solver.
Qed.

Section DerivedSamples.
Context `{EarthEngine}.

Lemma eval_cloud_shadow_stage img use_SCL r b0 bs cr prob b8 nw az :
  eval_img img = Some r →
  wf_raster r →
  r_bands r = b0 :: bs →
  r_props r !! "s2cloudless" = Some (PImg cr) →
  wf_raster cr →
  band_lookup cr "probability" = Some prob →
  band_lookup r "B8" = Some b8 →
  not_water_of use_SCL r = Some nw →
  r_props r !! "MEAN_SOLAR_AZIMUTH_ANGLE" = Some (PNum az) →
  Forall (λ n, n ∉ band_names r)
    ["probability"; "clouds"; "dark_pixels"; "cloud_transform"; "shadows"] →
  let clouds := pointwise2 (binop_px OpGt) prob (λ _, Some CLD_PRB_THRESH) in
  let dp := pointwise2 (binop_px OpMultiply)
              (pointwise2 (binop_px OpLt) b8
                 (λ _, Some (NIR_DRK_THRESH * 1e4)%Q)) nw in
  let ct := pointwise mask_px
              (eng_reproject
                 (eng_directionalDistanceTransform clouds (90 - az)
                    (CLD_PRJ_DIST * 10))
                 (eng_projection (band_px b0)) 100) in
  let sh := pointwise2 (binop_px OpMultiply) ct dp in
  let ics := add_shadow_bands (add_cloud_bands img) use_SCL in
  eval_img ics
  = Some (mkRaster
            (r_bands r ++
             [mkBand "probability" prob; mkBand "clouds" clouds;
              mkBand "dark_pixels" dp; mkBand "cloud_transform" ct;
              mkBand "shadows" sh])
            (r_props r)) ∧
  eval_img (ics |> select (ByName "clouds")
                |> add (ics |> select (ByName "shadows"))
                |> gt 0)
  = Some (mkRaster
            [mkBand "clouds"
               (pointwise2 (binop_px OpGt)
                  (pointwise2 (binop_px OpAdd) clouds sh) (λ _, Some 0%Q))]
            (r_props r)).
Proof.
  intros Himg Hwf Hb0 Hprop Hwfc Hprob Hb8 Hnw Haz Hfresh clouds dp ct sh ics.
  apply Forall_cons in Hfresh as [Fprob Hfresh].
  apply Forall_cons in Hfresh as [Fclouds Hfresh].
  apply Forall_cons in Hfresh as [Fdp Hfresh].
  apply Forall_cons in Hfresh as [Fct Hfresh].
  apply Forall_cons in Hfresh as [Fsh _].
  pose proof (eval_add_cloud_bands _ _ _ _ Himg Hprop Hwfc Hprob Fprob Fclouds)
    as H1.
  fold clouds in H1.
  set (ext1 := [mkBand "probability" prob; mkBand "clouds" clouds]) in H1.
  set (r1 := mkRaster (r_bands r ++ ext1) (r_props r)) in H1.
  assert (Hwf1 : wf_raster r1).
  { apply wf_extend; [done|by_compute|]. cbn. repeat constructor; done. }
  assert (Hc1 : band_lookup r1 "clouds" = Some clouds).
  { unfold band_lookup. cbn [r1 r_bands]. by rewrite find_band_app_r. }
  assert (Hb81 : band_lookup r1 "B8" = Some b8).
  { unfold band_lookup. cbn [r1 r_bands]. by apply find_band_app_l. }
  pose proof (eval_add_shadow_bands (add_cloud_bands img) use_SCL r1 b0
                (bs ++ ext1) clouds b8 nw az H1 Hwf1) as H2.
  cbn zeta in H2. fold dp ct sh in H2.
  set (ext2 := [mkBand "dark_pixels" dp; mkBand "cloud_transform" ct;
                mkBand "shadows" sh]) in H2.
  set (r2 := mkRaster (r_bands r1 ++ ext2) (r_props r1)) in H2.
  assert (H2' : eval_img ics = Some r2).
  { apply H2; try done.
    - cbn [r1 r_bands]. by rewrite Hb0.
    - by apply not_water_of_extend.
    - apply not_in_extend; [done|]. by_compute.
    - apply not_in_extend; [done|]. by_compute.
    - apply not_in_extend; [done|]. by_compute. }
  clear H2.
  assert (Hwf2 : wf_raster r2).
  { apply wf_extend; [done|by_compute|].
    cbn. repeat constructor; (apply not_in_extend; [done|by_compute]). }
  assert (Hc2 : band_lookup r2 "clouds" = Some clouds).
  { unfold band_lookup. cbn [r2 r_bands]. by apply find_band_app_l. }
  assert (Hs2 : band_lookup r2 "shadows" = Some sh).
  { unfold band_lookup. cbn [r2 r_bands].
    rewrite find_band_app_r; [done|].
    apply not_in_extend; [done|by_compute]. }
  split.
  - rewrite H2'. subst r2 r1 ext1 ext2. cbn [r_bands r_props].
    by rewrite <- app_assoc.
  - pose proof (eval_select_literal _ "clouds" _ _ H2' Hwf2 eq_refl Hc2) as Ecl.
    pose proof (eval_select_literal _ "shadows" _ _ H2' Hwf2 eq_refl Hs2) as Esh.
    pose proof (eval_BinOp_single OpAdd _ _ _ _ _ _ _ _ Ecl Esh) as Eadd.
    exact (eval_BinOp_const OpGt _ 0 _ _ _ Eadd).
Qed.

End DerivedSamples.

Section PipelineFacts.
Context `{EarthEngine}.

(** X6.  On a scene that has none of the derived band names yet,
    [add_cld_shdw_mask] appends six bands after the bands of the scene, in
    the order [probability], [clouds], [dark_pixels], [cloud_transform],
    [shadows], [cloudmask]; [probability] is the band of the attached image,
    unchanged, and the properties are those of the scene. *)
Theorem add_cld_shdw_mask_band_order img use_SCL r b0 bs cr prob b8 nw az :
  eval_img img = Some r →
  wf_raster r →
  r_bands r = b0 :: bs →
  r_props r !! "s2cloudless" = Some (PImg cr) →
  wf_raster cr →
  band_lookup cr "probability" = Some prob →
  band_lookup r "B8" = Some b8 →
  not_water_of use_SCL r = Some nw →
  r_props r !! "MEAN_SOLAR_AZIMUTH_ANGLE" = Some (PNum az) →
  Forall (λ n, n ∉ band_names r)
    ["probability"; "clouds"; "dark_pixels"; "cloud_transform"; "shadows";
     "cloudmask"] →
  ∃ r',
    eval_img (add_cld_shdw_mask img use_SCL) = Some r' ∧
    band_names r'
    = band_names r ++
      ["probability"; "clouds"; "dark_pixels"; "cloud_transform"; "shadows";
       "cloudmask"] ∧
    band_lookup r' "probability" = Some prob ∧
    r_props r' = r_props r ∧
    wf_raster r'.
Proof.
  intros Himg Hwf Hb0 Hprop Hwfc Hprob Hb8 Hnw Haz Hfresh.
  pose proof (eval_add_cld_shdw_mask img use_SCL r b0 bs cr prob b8 nw az
                Himg Hwf Hb0 Hprop Hwfc Hprob Hb8 Hnw Haz Hfresh) as Heval.
  cbn zeta in Heval. eexists. split; [exact Heval|].
  pose proof Hfresh as Hfresh'.
  apply Forall_cons in Hfresh' as [Fprob _].
  split_and!.
  - unfold band_names. cbn [r_bands]. by rewrite fmap_app.
  - unfold band_lookup. cbn [r_bands]. by rewrite find_band_app_r.
  - done.
  - unfold wf_raster, band_names. cbn [r_bands].
    apply wf_extend; [done|by_compute|done].
Qed.

(** X7.  The image that [add_cld_shdw_mask] hands to the morphological
    clean-up is the union of clouds and shadows: it has one band, which is 1
    where [clouds] or [shadows] is 1, 0 where both are 0, and masked exactly
    where one of the two is masked. *)
Theorem raw_mask_is_union img use_SCL r b0 bs cr prob b8 nw az :
  eval_img img = Some r →
  wf_raster r →
  r_bands r = b0 :: bs →
  r_props r !! "s2cloudless" = Some (PImg cr) →
  wf_raster cr →
  band_lookup cr "probability" = Some prob →
  band_lookup r "B8" = Some b8 →
  not_water_of use_SCL r = Some nw →
  r_props r !! "MEAN_SOLAR_AZIMUTH_ANGLE" = Some (PNum az) →
  Forall (λ n, n ∉ band_names r)
    ["probability"; "clouds"; "dark_pixels"; "cloud_transform"; "shadows"] →
  ∃ is_cld_shdw m r2 clouds shadows raw,
    added_image (add_cld_shdw_mask img use_SCL) = Some is_cld_shdw ∧
    morphology is_cld_shdw = Some m ∧
    eval_img (add_shadow_bands (add_cloud_bands img) use_SCL) = Some r2 ∧
    band_lookup r2 "clouds" = Some clouds ∧
    band_lookup r2 "shadows" = Some shadows ∧
    eval_img (morph_source m)
    = Some (mkRaster [mkBand "clouds" raw] (r_props r)) ∧
    ∀ x,
      (raw x = Some 1%Q ↔
         (clouds x = Some 1%Q ∧ shadows x ≠ None) ∨
         (shadows x = Some 1%Q ∧ clouds x ≠ None)) ∧
      (raw x = Some 0%Q ↔ clouds x = Some 0%Q ∧ shadows x = Some 0%Q) ∧
      (raw x = None ↔ clouds x = None ∨ shadows x = None).
Proof.
  intros Himg Hwf Hb0 Hprop Hwfc Hprob Hb8 Hnw Haz Hfresh.
  destruct (eval_cloud_shadow_stage img use_SCL r b0 bs cr prob b8 nw az
              Himg Hwf Hb0 Hprop Hwfc Hprob Hb8 Hnw Haz Hfresh) as [H2 Hraw].
  apply Forall_cons in Hfresh as [Fprob Hfresh].
  apply Forall_cons in Hfresh as [Fclouds Hfresh].
  apply Forall_cons in Hfresh as [Fdp Hfresh].
  apply Forall_cons in Hfresh as [Fct Hfresh].
  apply Forall_cons in Hfresh as [Fsh _].
  eexists _, _, _, _, _, _.
  split; [reflexivity|]. split; [reflexivity|]. split; [exact H2|].
  cbn [morph_source]. unfold band_lookup at 1 2. cbn [r_bands].
  rewrite !find_band_app_r by done. cbn [find_band band_name band_px decide].
  split; [reflexivity|]. split; [reflexivity|].
  split; [exact Hraw|].
  intros x. unfold pointwise2.
  refine (proj2 (union_bits _ _ _ _)).
  - apply cmp_is_bit; auto.
  - apply mul_bits_is_bit; [apply mask_is_bit|].
    apply mul_bits_is_bit; [apply cmp_is_bit; auto|by eapply not_water_bit].
Qed.

(** X8.  The derived indicator bands are boolean: on a scene the pipeline
    can read, [clouds], [dark_pixels] and [shadows] are 0, 1 or masked at
    every pixel and [cloud_transform] is 0 or 1, never masked; if the focal
    filters and the resampling of the service send boolean bands to boolean
    bands, [cloudmask] is 0, 1 or masked at every pixel too. *)
Theorem derived_bands_boolean img use_SCL r b0 bs cr prob b8 nw az :
  eval_img img = Some r →
  wf_raster r →
  r_bands r = b0 :: bs →
  r_props r !! "s2cloudless" = Some (PImg cr) →
  wf_raster cr →
  band_lookup cr "probability" = Some prob →
  band_lookup r "B8" = Some b8 →
  not_water_of use_SCL r = Some nw →
  r_props r !! "MEAN_SOLAR_AZIMUTH_ANGLE" = Some (PNum az) →
  Forall (λ n, n ∉ band_names r)
    ["probability"; "clouds"; "dark_pixels"; "cloud_transform"; "shadows";
     "cloudmask"] →
  ∃ r' clouds dark_pixels cloud_transform shadows cloudmask,
    eval_img (add_cld_shdw_mask img use_SCL) = Some r' ∧
    band_lookup r' "clouds" = Some clouds ∧
    band_lookup r' "dark_pixels" = Some dark_pixels ∧
    band_lookup r' "cloud_transform" = Some cloud_transform ∧
    band_lookup r' "shadows" = Some shadows ∧
    band_lookup r' "cloudmask" = Some cloudmask ∧
    (∀ x, is_bit (clouds x) ∧ is_bit (dark_pixels x) ∧ is_bit (shadows x) ∧
          (cloud_transform x = Some 1%Q ∨ cloud_transform x = Some 0%Q)) ∧
    ((∀ q, keeps_bits (λ f, eng_focalMin f q)) →
     (∀ q, keeps_bits (λ f, eng_focalMax f q)) →
     (∀ p q, keeps_bits (λ f, eng_reproject f p q)) →
     ∀ x, is_bit (cloudmask x)).
Proof.
  intros Himg Hwf Hb0 Hprop Hwfc Hprob Hb8 Hnw Haz Hfresh.
  pose proof (eval_add_cld_shdw_mask img use_SCL r b0 bs cr prob b8 nw az
                Himg Hwf Hb0 Hprop Hwfc Hprob Hb8 Hnw Haz Hfresh) as Heval.
  cbn zeta in Heval.
  apply Forall_cons in Hfresh as [Fprob Hfresh].
  apply Forall_cons in Hfresh as [Fclouds Hfresh].
  apply Forall_cons in Hfresh as [Fdp Hfresh].
  apply Forall_cons in Hfresh as [Fct Hfresh].
  apply Forall_cons in Hfresh as [Fsh Hfresh].
  apply Forall_cons in Hfresh as [Fcm _].
  eexists _, _, _, _, _, _. split; [exact Heval|].
  unfold band_lookup. cbn [r_bands].
  rewrite !find_band_app_r by done. cbn [find_band band_name band_px decide].
  do 5 (split; [reflexivity|]).
  assert (Hc : ∀ x, is_bit (pointwise2 (binop_px OpGt) prob
                              (λ _, Some CLD_PRB_THRESH) x)).
  { intros x. apply cmp_is_bit; auto. }
  assert (Hd : ∀ x, is_bit (pointwise2 (binop_px OpMultiply)
                              (pointwise2 (binop_px OpLt) b8
                                 (λ _, Some (NIR_DRK_THRESH * 1e4)%Q)) nw x)).
  { intros x. apply mul_bits_is_bit; [apply cmp_is_bit; auto|].
    by eapply not_water_bit. }
  split.
  - intros x. split_and!.
    + apply Hc.
    + apply Hd.
    + apply mul_bits_is_bit; [apply mask_is_bit|apply Hd].
    + unfold pointwise. destruct (eng_reproject _ _ _ x); cbn; auto.
  - intros Hmin Hmax Hrep x.
    apply Hrep, Hmax, Hmin. intros y. unfold pointwise2.
    apply cmp_is_bit; auto.
Qed.

End PipelineFacts.

(** ** More on the joined collection *)

Lemma join_saveFirst_sublist {A} (g : Raster → A) key cond primary secondary :
  (∀ p v, g (raster_set p key v) = g p) →
  g <$> join_saveFirst key cond primary secondary `sublist_of` g <$> primary.
Proof.
  intros Hg. unfold join_saveFirst.
  induction primary as [|p primary IH]; [constructor|]. cbn.
  destruct (list_find _ secondary) as [[i s]|]; cbn.
  - rewrite Hg. by constructor.
  - by constructor.
Qed.

Lemma join_saveFirst_length key cond primary secondary :
  length (join_saveFirst key cond primary secondary) ≤ length primary.
Proof.
  pose proof (join_saveFirst_sublist (λ _, tt) key cond primary secondary
                (λ _ _, eq_refl)) as Hsub.
  apply sublist_length in Hsub. by rewrite !length_fmap in Hsub.
Qed.

Lemma in_date_range_spec start_date end_date r :
  in_date_range start_date end_date r = true ↔
  ∃ t, date_millis r = Some t ∧ (start_date <= t)%Q ∧ (t < end_date)%Q.
Proof.
  unfold in_date_range. destruct (date_millis r) as [t|].
  - rewrite andb_true_iff, Qle_bool_iff, Qltb_lt. naive_solver.
  - naive_solver.
Qed.

Lemma cloud_filter_spec r :
  filter_holds (Filter_lte "CLOUDY_PIXEL_PERCENTAGE" CLOUD_FILTER) r r = true ↔
  ∃ q, r_props r !! "CLOUDY_PIXEL_PERCENTAGE" = Some (PNum q) ∧ (q <= 60)%Q.
Proof.
  unfold filter_holds, Filter_lte, operand_val.
  destruct (r_props r !! "CLOUDY_PIXEL_PERCENTAGE") as [[q|s|c]|]; cbn;
    try naive_solver.
  rewrite Qle_bool_iff. naive_solver.
Qed.

Section JoinFacts.
Context `{EarthEngine}.

(** X9.  Every image of the collection built by [get_s2_sr_cld_col] comes
    from a scene of [COPERNICUS/S2] that has a cloudy-pixel percentage of at
    most 60, was acquired at or after the start date and before the end date,
    and meets the bounds; the image attached under [s2cloudless] comes from
    [COPERNICUS/S2_CLOUD_PROBABILITY], lies in the same date range and
    bounds, and is not filtered by cloud percentage.  Apart from
    [s2cloudless] the image has the properties of the scene. *)
Theorem joined_images_pass_filters bounds start_date end_date o :
  o ∈ eval_coll (get_s2_sr_cld_col bounds start_date end_date) →
  ∃ p c,
    o = raster_set p "s2cloudless" (PImg c) ∧
    p ∈ eng_catalog "COPERNICUS/S2" ∧
    c ∈ eng_catalog "COPERNICUS/S2_CLOUD_PROBABILITY" ∧
    (∃ q, r_props p !! "CLOUDY_PIXEL_PERCENTAGE" = Some (PNum q) ∧ (q <= 60)%Q) ∧
    (∃ t, date_millis p = Some t ∧ (start_date <= t)%Q ∧ (t < end_date)%Q) ∧
    (∃ t, date_millis c = Some t ∧ (start_date <= t)%Q ∧ (t < end_date)%Q) ∧
    eng_intersects bounds p = true ∧
    eng_intersects bounds c = true ∧
    (∀ k, k ≠ "s2cloudless" → r_props o !! k = r_props p !! k).
Proof.
  unfold get_s2_sr_cld_col. cbn [eval_coll]. intros Ho.
  apply join_saveFirst_elem in Ho as (p & i & c & Hp & Hfind & ->).
  apply list_find_Some in Hfind as (Hc%list_elem_of_lookup_2 & _ & _).
  apply list_elem_of_filter in Hp as [Hcloud Hp].
  apply list_elem_of_filter in Hp as [Hpb Hp].
  apply list_elem_of_filter in Hp as [Hpd Hp].
  apply list_elem_of_filter in Hc as [Hcb Hc].
  apply list_elem_of_filter in Hc as [Hcd Hc].
  exists p, c. split_and!; try done.
  - by apply cloud_filter_spec.
  - by apply in_date_range_spec.
  - by apply in_date_range_spec.
  - intros k Hk. cbn. by rewrite lookup_insert_ne.
Qed.

(** X10.  The join keeps the order of the reflectance collection, which is
    [COPERNICUS/S2] filtered by date, bounds and cloudy-pixel percentage,
    and returns each of its scenes at most once: the scene identifiers and
    the bands of the result are a sublist of those of that collection, the
    result is no longer than it, and it is empty when the reflectance
    collection or the filtered cloud-probability collection is. *)
Theorem joined_order bounds start_date end_date :
  let refl :=
    FilterBy
      (FilterBounds
         (FilterDate (ImageCollection "COPERNICUS/S2") start_date end_date)
         bounds)
      (Filter_lte "CLOUDY_PIXEL_PERCENTAGE" 60) in
  let clouds :=
    FilterBounds
      (FilterDate (ImageCollection "COPERNICUS/S2_CLOUD_PROBABILITY")
         start_date end_date)
      bounds in
  let joined := eval_coll (get_s2_sr_cld_col bounds start_date end_date) in
  ((λ o, r_props o !! "system:index") <$> joined)
    `sublist_of` ((λ p, r_props p !! "system:index") <$> eval_coll refl) ∧
  (r_bands <$> joined) `sublist_of` (r_bands <$> eval_coll refl) ∧
  length joined ≤ length (eval_coll refl) ∧
  (eval_coll refl = [] → joined = []) ∧
  (eval_coll clouds = [] → joined = []).
Proof.
  cbn zeta. unfold get_s2_sr_cld_col. cbn [eval_coll].
  change CLOUD_FILTER with 60%Q.
  set (P := filter _ (filter _ (filter _ (eng_catalog "COPERNICUS/S2")))).
  set (S := filter _ (filter _ (eng_catalog "COPERNICUS/S2_CLOUD_PROBABILITY"))).
  split_and!.
  - apply join_saveFirst_sublist. intros p v. cbn. by rewrite lookup_insert_ne.
  - by apply join_saveFirst_sublist.
  - apply join_saveFirst_length.
  - by intros ->.
  - intros ->. unfold join_saveFirst. by induction P.
Qed.

End JoinFacts.

(** ** Client computations and the request log *)

Lemma silent_ret {A} (a : A) : silent (ret a).
Proof. intros log. by exists (Ret a). Qed.

Lemma silent_raise {A} e : silent (raise (A:=A) e).
Proof. intros log. by exists (Raise e). Qed.

Lemma silent_bind {A B} (m : Client A) (k : A → Client B) :
  silent m → (∀ a, silent (k a)) → silent (bind m k).
Proof.
  intros Hm Hk log. unfold bind. destruct (Hm log) as [[a|e] ->].
  - apply Hk.
  - by exists (Raise e).
Qed.

Lemma silent_for_each {A B} (f : A → Client B) l :
  (∀ a, silent (f a)) → silent (for_each f l).
Proof.
  intros Hf. induction l as [|a l IH]; cbn [for_each].
  - apply silent_ret.
  - apply silent_bind; [apply Hf|]. intros b.
    apply silent_bind; [apply IH|]. intros bs. apply silent_ret.
Qed.

Lemma silent_py_str v : silent (py_str v).
Proof. destruct v; apply silent_ret || apply silent_raise. Qed.

Lemma silent_row_cells n row : silent (row_cells n row).
Proof.
  destruct row; cbn; case_decide; apply silent_ret || apply silent_raise.
Qed.

Lemma silent_pd_DataFrame data columns : silent (pd_DataFrame data columns).
Proof.
  destruct data; try apply silent_raise.
  destruct columns; try apply silent_raise. cbn.
  apply silent_bind; [apply silent_for_each, silent_py_str|]. intros names.
  apply silent_bind; [apply silent_for_each, silent_row_cells|]. intros cells.
  apply silent_ret.
Qed.

Lemma silent_df_getitem df c : silent (df_getitem df c).
Proof.
  unfold df_getitem. destruct (list_find _ _) as [[i kv]|];
    apply silent_ret || apply silent_raise.
Qed.

Lemma silent_pd_to_datetime_ms cells : silent (pd_to_datetime_ms cells).
Proof.
  apply silent_for_each. intros v.
  destruct v; apply silent_ret || apply silent_raise.
Qed.

Lemma silent_frame df :
  silent (if bool_decide ("millis" ∈ df_columns df)
          then do millis <- df_getitem df "millis";
               do timestamp <- pd_to_datetime_ms millis;
               let df := df_setitem df "timestamp" timestamp in
               do timestamp <- df_getitem df "timestamp";
               ret (df_set_index df timestamp)
          else ret df).
Proof.
  case_bool_decide; [|apply silent_ret].
  apply silent_bind; [apply silent_df_getitem|]. intros millis.
  apply silent_bind; [apply silent_pd_to_datetime_ms|]. intros ts.
  apply silent_bind; [apply silent_df_getitem|]. intros ts'.
  apply silent_ret.
Qed.

(** ** Columns of a data frame *)

Lemma df_setitem_getitem_eq df c cells log :
  df_getitem (df_setitem df c cells) c log = (Ret cells, log).
Proof.
  unfold df_getitem, df_setitem.
  assert (Hfind : ∀ l : list (string * list PyVal),
    ∃ i, list_find (λ kv, kv.1 = c)
           (match list_find (λ kv, kv.1 = c) l with
            | Some (i, _) => <[i:=(c, cells)]> l
            | None => l ++ [(c, cells)]
            end) = Some (i, (c, cells))).
  { induction l as [|kv l IH]; cbn.
    - rewrite decide_True by done. by exists 0.
    - case_decide as Hk; cbn.
      + rewrite decide_True by done. by exists 0.
      + destruct IH as [i IH].
        destruct (list_find _ l) as [[j x]|]; cbn; exists (S i);
          (rewrite decide_False by done);
          exact (f_equal (fmap (prod_map S id)) IH). }
  destruct (Hfind (df_data df)) as [i Hi].
  destruct (list_find _ (df_data df)) as [[j x]|]; cbn [df_data];
    by rewrite Hi.
Qed.

Lemma df_setitem_getitem_ne df c cells c' :
  c' ≠ c → df_getitem (df_setitem df c cells) c' = df_getitem df c'.
Proof.
  intros Hne. unfold df_getitem, df_setitem.
  assert (Hfind : ∀ l : list (string * list PyVal),
    list_find (λ kv, kv.1 = c')
      (match list_find (λ kv, kv.1 = c) l with
       | Some (i, _) => <[i:=(c, cells)]> l
       | None => l ++ [(c, cells)]
       end) = list_find (λ kv, kv.1 = c') l).
  { induction l as [|kv l IH]; cbn.
    - by rewrite decide_False by done.
    - destruct (decide (kv.1 = c)) as [Hk|Hk]; cbn.
      + rewrite decide_False by done. by rewrite decide_False by congruence.
      + destruct (list_find (λ kv, kv.1 = c) l) as [[j x]|]; cbn;
          (case_decide; [done|exact (f_equal (fmap (prod_map S id)) IH)]). }
  pose proof (Hfind (df_data df)) as Hf.
  destruct (list_find (λ kv, kv.1 = c) (df_data df)) as [[j x]|];
    cbn [df_data]; by rewrite Hf.
Qed.

Lemma df_setitem_columns df c cells c' :
  c' ∈ df_columns (df_setitem df c cells) ↔ c' = c ∨ c' ∈ df_columns df.
Proof.
  unfold df_columns, df_setitem.
  destruct (list_find _ (df_data df)) as [[i kv]|] eqn:Hfind; cbn [df_data].
  - apply list_find_Some in Hfind as (Hi & Hkv & _).
    rewrite list_fmap_insert. cbn.
    assert (Hid : <[i:=c]> (df_data df).*1 = (df_data df).*1).
    { apply list_insert_id. by rewrite list_lookup_fmap, Hi, <- Hkv. }
    rewrite Hid. split; [by right|]. intros [->|Hin]; [|done].
    apply list_elem_of_fmap. exists kv. split; [done|].
    by eapply list_elem_of_lookup_2.
  - rewrite fmap_app, elem_of_app. cbn. rewrite list_elem_of_singleton.
    naive_solver.
Qed.

Lemma df_getitem_Ret df c cells log log' :
  df_getitem df c log = (Ret cells, log') → log' = log ∧ c ∈ df_columns df.
Proof.
  unfold df_getitem.
  destruct (list_find _ (df_data df)) as [[i kv]|] eqn:Hfind; [|done].
  intros [= <- <-]. split; [done|].
  apply list_find_Some in Hfind as (Hi & <- & _).
  apply list_elem_of_fmap. exists kv. split; [done|].
  by eapply list_elem_of_lookup_2.
Qed.

Lemma bind_Ret_inv {A B} (m : Client A) (k : A → Client B) log b log' :
  bind m k log = (Ret b, log') →
  ∃ a log1, m log = (Ret a, log1) ∧ k a log1 = (Ret b, log').
Proof.
  unfold bind. destruct (m log) as [[a|e] log1]; [|done].
  intros Hk. by exists a, log1.
Qed.

Lemma for_each_Ret {A B} (f : A → Client B) (P : A → B → Prop) l bs log log' :
  (∀ a b lg lg', f a lg = (Ret b, lg') → lg' = lg ∧ P a b) →
  for_each f l log = (Ret bs, log') →
  log' = log ∧ Forall2 P l bs.
Proof.
  intros Hf. revert bs log log'.
  induction l as [|a l IH]; intros bs log log'; cbn [for_each].
  - intros [= <- <-]. by split; [|constructor].
  - intros Hb. apply bind_Ret_inv in Hb as (b & lg1 & Hfa & Hb).
    apply bind_Ret_inv in Hb as (bs' & lg2 & Hrec & Hb).
    injection Hb as <- <-.
    apply Hf in Hfa as [-> Hab]. apply IH in Hrec as [-> Hrec].
    split; [done|by constructor].
Qed.

Lemma pd_to_datetime_ms_Ret cells ts log log' :
  pd_to_datetime_ms cells log = (Ret ts, log') →
  log' = log ∧
  Forall2 (λ v t, ∃ ms, v = PyNum ms ∧ t = PyDatetime (ms / 1000)) cells ts.
Proof.
  apply for_each_Ret. intros v t lg lg'.
  destruct v; try done. intros [= <- <-]. split; [done|]. by eexists.
Qed.

Lemma pd_DataFrame_Ret data columns df log log' :
  pd_DataFrame data columns log = (Ret df, log') → df_index df = None.
Proof.
  destruct data; try done. destruct columns; try done. cbn.
  intros Hb. apply bind_Ret_inv in Hb as (names & lg1 & _ & Hb).
  apply bind_Ret_inv in Hb as (cells & lg2 & _ & Hb).
  by injection Hb as <- <-.
Qed.

Lemma frame_tail_Ret df0 df log log' :
  (if bool_decide ("millis" ∈ df_columns df0)
   then do millis <- df_getitem df0 "millis";
        do timestamp <- pd_to_datetime_ms millis;
        let df := df_setitem df0 "timestamp" timestamp in
        do timestamp <- df_getitem df "timestamp";
        ret (df_set_index df timestamp)
   else ret df0) log = (Ret df, log') →
  df_index df0 = None →
  ("millis" ∈ df_columns df ↔ "millis" ∈ df_columns df0) ∧
  if bool_decide ("millis" ∈ df_columns df)
  then ∃ millis ts,
         df_getitem df "millis" log' = (Ret millis, log') ∧
         df_getitem df "timestamp" log' = (Ret ts, log') ∧
         df_index df = Some ts ∧
         Forall2 (λ v t, ∃ ms, v = PyNum ms ∧ t = PyDatetime (ms / 1000))
           millis ts
  else df_index df = None.
Proof.
  intros Htail Hidx. case_bool_decide as Hm.
  - apply bind_Ret_inv in Htail as (millis & lg1 & Hget & Htail).
    apply bind_Ret_inv in Htail as (ts & lg2 & Hconv & Htail).
    cbn zeta in Htail.
    apply bind_Ret_inv in Htail as (ts' & lg3 & Hget' & Htail).
    injection Htail as <- <-.
    pose proof (df_getitem_Ret _ _ _ _ _ Hget) as [-> _].
    apply pd_to_datetime_ms_Ret in Hconv as [-> Hconv].
    rewrite df_setitem_getitem_eq in Hget'. injection Hget' as <- <-.
    assert (Hcols : "millis" ∈ df_columns (df_set_index
                      (df_setitem df0 "timestamp" ts) ts)).
    { unfold df_set_index, df_columns. cbn [df_data].
      apply (df_setitem_columns df0 "timestamp" ts "millis"). by right. }
    split; [done|]. rewrite bool_decide_eq_true_2 by done.
    exists millis, ts. split_and!; [| |done|done].
    + unfold df_set_index, df_getitem. cbn [df_data].
      pose proof (df_setitem_getitem_ne df0 "timestamp" ts "millis") as Hne.
      unfold df_getitem in Hne. rewrite Hne by done.
      unfold df_getitem in Hget.
      destruct (list_find _ (df_data df0)) as [[i kv]|]; [|done].
      by injection Hget as <-.
    + unfold df_set_index.
      pose proof (df_setitem_getitem_eq df0 "timestamp" ts log) as Heq.
      unfold df_getitem in *. cbn [df_data]. exact Heq.
  - injection Htail as <- <-. split; [done|].
    by rewrite bool_decide_eq_false_2.
Qed.

(** ** Requests sent by [fc_to_df] and [get_timeseries] *)

Section FrameRequests.
Context `{Service}.

Lemma fc_to_df_fetch_requests fc selectors n log :
  ∃ out, fc_to_df_fetch fc selectors n log
         = (out, log ++ [ReduceColumns_toList fc n selectors]).
Proof.
  unfold bind at 1. cbn [getInfo].
  destruct (answer _) as [a|e]; [|by eexists].
  apply silent_bind; [apply silent_pd_DataFrame|]. apply silent_frame.
Qed.

Lemma fc_to_df_list fc l log :
  fc_to_df fc (PyList l) log = fc_to_df_fetch fc (PyList l) (length l) log.
Proof. reflexivity. Qed.

Lemma fc_to_df_None fc log :
  fc_to_df fc PyNone log
  = match answer (First_propertyNames fc) with
    | Ret v =>
        match py_len v (log ++ [First_propertyNames fc]) with
        | (Ret n, lg) => fc_to_df_fetch fc v n lg
        | (Raise e, lg) => (Raise e, lg)
        end
    | Raise e => (Raise e, log ++ [First_propertyNames fc])
    end.
Proof.
  unfold fc_to_df. unfold bind at 1. unfold bind at 1. cbn [getInfo].
  destruct (answer _) as [v|e]; [|reflexivity].
  destruct v; reflexivity.
Qed.

Lemma py_len_log v log n lg :
  py_len v log = (Ret n, lg) → lg = log ∧ ∀ log', py_len v log' = (Ret n, log').
Proof. destruct v; try done; by intros [= <- <-]. Qed.

Lemma py_len_Raise v log e lg : py_len v log = (Raise e, lg) → lg = log.
Proof. destruct v; try done; by intros [= <- <-]. Qed.

(** X11.  [fc_to_df] sends one request when the selectors are a list, the
  reduction of the columns with the length of the list as tuple size.  With
  no selectors it first asks for the property names of the first feature;
  when that fails or the answer has no length nothing else is sent, otherwise
  the reduction is requested with the answer as selectors and its length as
  tuple size.  Any other selectors raise [AssertionError] with nothing sent. *)
Theorem fc_to_df_requests fc selectors log :
  ∃ out sent, fc_to_df fc selectors log = (out, log ++ sent) ∧
    match selectors with
    | PyList l => sent = [ReduceColumns_toList fc (length l) selectors]
    | PyNone =>
        (sent = [First_propertyNames fc] ∧ ∃ e, out = Raise e) ∨
        ∃ v n, answer (First_propertyNames fc) = Ret v ∧
               py_len v log = (Ret n, log) ∧
               sent = [First_propertyNames fc; ReduceColumns_toList fc n v]
    | _ => sent = [] ∧ out = Raise AssertionError
    end.
Proof.
  destruct selectors as [| | |l| | |];
    try (exists (Raise AssertionError), []; rewrite app_nil_r; by split).
  - rewrite fc_to_df_None. destruct (answer _) as [v|e] eqn:Hans.
    + destruct (py_len v _) as [[n|e] lg] eqn:Hlen.
      * apply py_len_log in Hlen as [-> Hlen].
        destruct (fc_to_df_fetch_requests fc v n (log ++ [First_propertyNames fc]))
          as [out Hout].
        exists out, [First_propertyNames fc; ReduceColumns_toList fc n v].
        split; [by rewrite Hout, <- app_assoc|].
        right. exists v, n. by rewrite Hlen.
      * apply py_len_Raise in Hlen as ->.
        exists (Raise e), [First_propertyNames fc]. split; [done|].
        left. split; [done|by eexists].
    + exists (Raise e), [First_propertyNames fc]. split; [done|].
      left. split; [done|by eexists].
  - rewrite fc_to_df_list.
    destruct (fc_to_df_fetch_requests fc (PyList l) (length l) log) as [out Hout].
    by exists out, [ReduceColumns_toList fc (length l) (PyList l)].
Qed.

Lemma py_keys_Ret v log ks lg :
  py_keys v log = (Ret ks, lg) →
  lg = log ∧ ∃ cols, v = PyDict cols ∧ ks = PyList ((λ kv, PyStr kv.1) <$> cols).
Proof. destruct v; try done. intros [= <- <-]. split; [done|by eexists]. Qed.

Lemma py_getitem_log v k log out lg :
  py_getitem v k log = (out, lg) → lg = log ∧ ∀ log', py_getitem v k log' = (out, log').
Proof.
  destruct v; try (by intros [= <- <-]).
  cbn. destruct (list_find _ _) as [[i kv]|]; by intros [= <- <-].
Qed.

Lemma py_keys_log v log out lg : py_keys v log = (out, lg) → lg = log.
Proof. destruct v; by intros [= <- <-]. Qed.

Lemma get_timeseries_None collection f log :
  get_timeseries collection f PyNone log
  = match answer (Mapped_first (Collection_map collection f)) with
    | Ret info =>
        match py_getitem info "columns"
                (log ++ [Mapped_first (Collection_map collection f)]) with
        | (Ret columns, lg) =>
            match py_keys columns lg with
            | (Ret selectors, lg') =>
                fc_to_df (Flatten (Collection_map collection f)) selectors lg'
            | (Raise e, lg') => (Raise e, lg')
            end
        | (Raise e, lg) => (Raise e, lg)
        end
    | Raise e => (Raise e, log ++ [Mapped_first (Collection_map collection f)])
    end.
Proof.
  unfold get_timeseries. cbn zeta. unfold bind at 1. unfold bind at 1.
  cbn [getInfo]. destruct (answer _) as [info|e]; [|reflexivity].
  unfold bind at 1. destruct (py_getitem _ _ _) as [[columns|e] lg]; reflexivity.
Qed.

(** X13.  [get_timeseries] hands list selectors to [fc_to_df] on the
  flattened mapped collection, so one reduction is requested; other selectors
  raise [AssertionError] with nothing sent.  With no selectors it asks for
  the first mapped element; when that fails or the answer has no dict under
  [columns] nothing else is sent, otherwise the reduction is requested with
  the keys of that dict.  The property names of the first feature are never
  requested. *)
Theorem get_timeseries_requests collection f selectors log :
  let ts := Collection_map collection f in
  ∃ out sent,
    get_timeseries collection f selectors log = (out, log ++ sent) ∧
    (∀ fc, First_propertyNames fc ∉ sent) ∧
    match selectors with
    | PyList l => sent = [ReduceColumns_toList (Flatten ts) (length l) selectors]
    | PyNone =>
        (sent = [Mapped_first ts] ∧ ∃ e, out = Raise e) ∨
        ∃ info cols,
          answer (Mapped_first ts) = Ret info ∧
          py_getitem info "columns" log = (Ret (PyDict cols), log) ∧
          sent = [Mapped_first ts;
                  ReduceColumns_toList (Flatten ts) (length cols)
                    (PyList ((λ kv, PyStr kv.1) <$> cols))]
    | _ => sent = [] ∧ out = Raise AssertionError
    end.
Proof.
  intros ts.
  assert (Hone : ∀ o, (∀ fc, o ≠ First_propertyNames fc) →
                      ∀ fc, First_propertyNames fc ∉ [o]).
  { intros o Ho fc Hin%list_elem_of_singleton. by eapply Ho. }
  assert (Htwo : ∀ o o', (∀ fc, o ≠ First_propertyNames fc) →
                         (∀ fc, o' ≠ First_propertyNames fc) →
                         ∀ fc, First_propertyNames fc ∉ [o; o']).
  { intros o o' Ho Ho' fc Hin. apply elem_of_cons in Hin as [Hin|Hin].
    - by eapply Ho.
    - apply list_elem_of_singleton in Hin. by eapply Ho'. }
  destruct selectors as [| | |l| | |];
    try (exists (Raise AssertionError), []; rewrite app_nil_r;
         split_and!; try done; intros fc; apply not_elem_of_nil).
  - rewrite get_timeseries_None. fold ts.
    destruct (answer _) as [info|e] eqn:Hans.
    + destruct (py_getitem info _ _) as [[columns|e] lg] eqn:Hget.
      * apply py_getitem_log in Hget as [-> Hget].
        destruct (py_keys columns _) as [[ks|e] lg] eqn:Hkeys.
        -- apply py_keys_Ret in Hkeys as (-> & cols & -> & ->).
           rewrite fc_to_df_list.
           destruct (fc_to_df_fetch_requests (Flatten ts)
                       (PyList ((λ kv, PyStr kv.1) <$> cols))
                       (length ((λ kv : string * PyVal, PyStr kv.1) <$> cols))
                       (log ++ [Mapped_first ts])) as [out Hout].
           rewrite length_fmap in Hout.
           exists out, [Mapped_first ts;
                        ReduceColumns_toList (Flatten ts) (length cols)
                          (PyList ((λ kv, PyStr kv.1) <$> cols))].
           split_and!.
           ++ rewrite length_fmap. by rewrite Hout, <- app_assoc.
           ++ by apply Htwo.
           ++ right. exists info, cols. by rewrite Hget.
        -- apply py_keys_log in Hkeys as ->.
           exists (Raise e), [Mapped_first ts]. split_and!; [done|by apply Hone|].
           left. split; [done|by eexists].
      * apply py_getitem_log in Hget as [-> _].
        exists (Raise e), [Mapped_first ts]. split_and!; [done|by apply Hone|].
        left. split; [done|by eexists].
    + exists (Raise e), [Mapped_first ts]. split_and!; [done|by apply Hone|].
      left. split; [done|by eexists].
  - change (get_timeseries collection f (PyList l) log)
      with (fc_to_df (Flatten ts) (PyList l) log).
    rewrite fc_to_df_list.
    destruct (fc_to_df_fetch_requests (Flatten ts) (PyList l) (length l) log)
      as [out Hout].
    exists out, [ReduceColumns_toList (Flatten ts) (length l) (PyList l)].
    split_and!; [done|by apply Hone|done].
Qed.

End FrameRequests.

(** ** The frame built by [fc_to_df] *)

Lemma for_each_py_str cols names log log' :
  for_each py_str cols log = (Ret names, log') →
  log' = log ∧ cols = PyStr <$> names.
Proof.
  intros Hfe.
  apply (for_each_Ret py_str (λ v n, v = PyStr n)) in Hfe as [-> Hall].
  - split; [done|]. induction Hall as [|v n cols names -> _ IH]; [done|].
    cbn. by rewrite IH.
  - intros v n lg lg'. destruct v; try done. by intros [= <- <-].
Qed.

Lemma df_getitem_elem df c cells log log' :
  df_getitem df c log = (Ret cells, log') → (c, cells) ∈ df_data df.
Proof.
  unfold df_getitem.
  destruct (list_find _ (df_data df)) as [[i kv]|] eqn:Hfind; [|done].
  intros [= <- <-].
  apply list_find_Some in Hfind as (Hi & <- & _).
  destruct kv as [k cells]. by eapply list_elem_of_lookup_2.
Qed.

Lemma df_getitem_height df c cells n log log' :
  df_height df n → df_getitem df c log = (Ret cells, log') → length cells = n.
Proof.
  intros Hh Hget%df_getitem_elem.
  unfold df_height in Hh. rewrite Forall_forall in Hh.
  exact (Hh _ Hget).
Qed.

Lemma df_setitem_height df c cells n :
  df_height df n → length cells = n → df_height (df_setitem df c cells) n.
Proof.
  unfold df_height, df_setitem. intros Hh Hlen.
  destruct (list_find _ (df_data df)) as [[i kv]|]; cbn [df_data].
  - by apply Forall_insert.
  - apply Forall_app. split; [done|]. by constructor.
Qed.

Lemma pd_DataFrame_inv data columns df log log' :
  pd_DataFrame data columns log = (Ret df, log') →
  ∃ rows names,
    data = PyList rows ∧ columns = PyList (PyStr <$> names) ∧ log' = log ∧
    df_columns df = names ∧ df_index df = None ∧ df_height df (length rows).
Proof.
  destruct data as [| | |rows| | |]; try done.
  destruct columns as [| | |cols| | |]; try done. cbn.
  intros Hb. apply bind_Ret_inv in Hb as (names & lg1 & Hnames & Hb).
  apply bind_Ret_inv in Hb as (cells & lg2 & Hcells & Hb).
  injection Hb as <- <-.
  apply for_each_py_str in Hnames as [-> ->].
  apply (for_each_Ret _ (λ _ _, True)) in Hcells as [-> Hall].
  2:{ intros row cs lg lg' Hrow. split; [|done].
      destruct (silent_row_cells (length names) row lg) as [out Hout].
      rewrite Hout in Hrow. by injection Hrow as _ <-. }
  apply Forall2_length in Hall.
  exists rows, names. split_and!; try done.
  - unfold df_columns. cbn [df_data]. rewrite fmap_imap.
    rewrite (imap_ext _ (const id)) by done.
    by rewrite imap_const, list_fmap_id.
  - unfold df_height. cbn [df_data]. apply Forall_forall. intros kv Hin.
    apply elem_of_lookup_imap_1 in Hin as (i & n & -> & _). cbn.
    by rewrite length_fmap.
Qed.

Lemma frame_tail_shape df0 df n log log' :
  (if bool_decide ("millis" ∈ df_columns df0)
   then do millis <- df_getitem df0 "millis";
        do timestamp <- pd_to_datetime_ms millis;
        let df := df_setitem df0 "timestamp" timestamp in
        do timestamp <- df_getitem df "timestamp";
        ret (df_set_index df timestamp)
   else ret df0) log = (Ret df, log') →
  df_height df0 n →
  df_height df n ∧
  ∀ c, c ∈ df_columns df ↔
       c ∈ df_columns df0 ∨ c = "timestamp" ∧ "millis" ∈ df_columns df0.
Proof.
  intros Htail Hh. case_bool_decide as Hm.
  - apply bind_Ret_inv in Htail as (millis & lg1 & Hget & Htail).
    apply bind_Ret_inv in Htail as (ts & lg2 & Hconv & Htail).
    cbn zeta in Htail.
    apply bind_Ret_inv in Htail as (ts' & lg3 & Hget' & Htail).
    injection Htail as <- <-.
    rewrite df_setitem_getitem_eq in Hget'. injection Hget' as <- <-.
    apply pd_to_datetime_ms_Ret in Hconv as [-> Hconv].
    apply Forall2_length in Hconv.
    pose proof (df_getitem_height _ _ _ _ _ _ Hh Hget) as Hlen.
    split.
    + unfold df_height, df_set_index. cbn [df_data].
      apply df_setitem_height; [done|congruence].
    + intros c. unfold df_set_index, df_columns at 1. cbn [df_data].
      rewrite (df_setitem_columns df0 "timestamp" ts c). naive_solver.
  - injection Htail as <- <-. split; [done|]. naive_solver.
Qed.

Section Frame.
Context `{Service}.

Lemma getInfo_Ret obj v log log' :
  getInfo [] obj log = (Ret v, log') → answer obj = Ret v ∧ log' = log ++ [obj].
Proof. cbn. by intros [= -> <-]. Qed.

Lemma fc_to_df_fetch_Ret fc selectors n log df log' :
  fc_to_df_fetch fc selectors n log = (Ret df, log') →
  ∃ as_list df0 lg,
    answer (ReduceColumns_toList fc n selectors) = Ret as_list ∧
    pd_DataFrame as_list selectors lg = (Ret df0, lg) ∧
    (if bool_decide ("millis" ∈ df_columns df0)
     then do millis <- df_getitem df0 "millis";
          do timestamp <- pd_to_datetime_ms millis;
          let df := df_setitem df0 "timestamp" timestamp in
          do timestamp <- df_getitem df "timestamp";
          ret (df_set_index df timestamp)
     else ret df0) lg = (Ret df, log').
Proof.
  intros Hb. apply bind_Ret_inv in Hb as (as_list & lg1 & Hget & Hb).
  apply getInfo_Ret in Hget as [Hans ->].
  apply bind_Ret_inv in Hb as (df0 & lg2 & Hdf & Hb).
  pose proof (pd_DataFrame_inv _ _ _ _ _ Hdf) as (_ & _ & _ & _ & -> & _).
  by exists as_list, df0, (log ++ [ReduceColumns_toList fc n selectors]).
Qed.

(** What a returned frame says about the run that made it. *)
Lemma fc_to_df_Ret fc selectors log df log' :
  fc_to_df fc selectors log = (Ret df, log') →
  ∃ l rows df0 lg,
    (selectors = PyList l ∨
     selectors = PyNone ∧ answer (First_propertyNames fc) = Ret (PyList l)) ∧
    answer (ReduceColumns_toList fc (length l) (PyList l)) = Ret (PyList rows) ∧
    pd_DataFrame (PyList rows) (PyList l) lg = (Ret df0, lg) ∧
    (if bool_decide ("millis" ∈ df_columns df0)
     then do millis <- df_getitem df0 "millis";
          do timestamp <- pd_to_datetime_ms millis;
          let df := df_setitem df0 "timestamp" timestamp in
          do timestamp <- df_getitem df "timestamp";
          ret (df_set_index df timestamp)
     else ret df0) lg = (Ret df, log').
Proof.
  intros Hrun.
  assert (Hfetch : ∀ l lg0,
    fc_to_df_fetch fc (PyList l) (length l) lg0 = (Ret df, log') →
    ∃ rows df0 lg,
      answer (ReduceColumns_toList fc (length l) (PyList l)) = Ret (PyList rows) ∧
      pd_DataFrame (PyList rows) (PyList l) lg = (Ret df0, lg) ∧
      (if bool_decide ("millis" ∈ df_columns df0)
       then do millis <- df_getitem df0 "millis";
            do timestamp <- pd_to_datetime_ms millis;
            let df := df_setitem df0 "timestamp" timestamp in
            do timestamp <- df_getitem df "timestamp";
            ret (df_set_index df timestamp)
       else ret df0) lg = (Ret df, log')).
  { intros l lg0 Hf.
    apply fc_to_df_fetch_Ret in Hf as (as_list & df0 & lg & Hans & Hdf & Htail).
    pose proof (pd_DataFrame_inv _ _ _ _ _ Hdf) as (rows & _ & -> & _).
    by exists rows, df0, lg. }
  destruct selectors as [| | |l| | |]; try done.
  - rewrite fc_to_df_None in Hrun.
    destruct (answer (First_propertyNames fc)) as [v|e] eqn:Hans; [|done].
    destruct (py_len v _) as [[n|e] lg0] eqn:Hlen; [|done].
    pose proof Hrun as Hf.
    apply fc_to_df_fetch_Ret in Hf as (as_list & df0 & lg & _ & Hdf & _).
    pose proof (pd_DataFrame_inv _ _ _ _ _ Hdf) as (_ & names & _ & -> & _).
    cbn in Hlen. injection Hlen as <- <-.
    apply Hfetch in Hrun as (rows & df1 & lg1 & Hrows & Hdf1 & Htail).
    exists (PyStr <$> names), rows, df1, lg1. split_and!; try done.
    right. by split.
  - rewrite fc_to_df_list in Hrun.
    apply Hfetch in Hrun as (rows & df1 & lg1 & Hrows & Hdf1 & Htail).
    exists l, rows, df1, lg1. split_and!; try done. by left.
Qed.

Lemma elem_of_PyStr_fmap c (names : list string) : PyStr c ∈ PyStr <$> names ↔ c ∈ names.
Proof.
  rewrite list_elem_of_fmap. split.
  - by intros (c' & [= ->] & Hin).
  - intros Hin. by exists c.
Qed.

(** X12.  A frame returned by [fc_to_df] was built from the answer to the
  column reduction over the selectors in use, the list passed in or the
  property names the service gave.  Its columns are those selectors, with
  [timestamp] added when [millis] is among them, and every column has one
  cell for each row of the answer. *)
Theorem fc_to_df_frame fc selectors log df log' :
  fc_to_df fc selectors log = (Ret df, log') →
  ∃ l rows,
    (selectors = PyList l ∨
     selectors = PyNone ∧ answer (First_propertyNames fc) = Ret (PyList l)) ∧
    answer (ReduceColumns_toList fc (length l) (PyList l)) = Ret (PyList rows) ∧
    (∀ c, c ∈ df_columns df ↔
          PyStr c ∈ l ∨ c = "timestamp" ∧ PyStr "millis" ∈ l) ∧
    df_height df (length rows).
Proof.
  intros (l & rows & df0 & lg & Hsel & Hrows & Hdf & Htail)%fc_to_df_Ret.
  pose proof (pd_DataFrame_inv _ _ _ _ _ Hdf)
    as (rows' & names & [= <-] & [= ->] & _ & Hcols & _ & Hh).
  destruct (frame_tail_shape _ _ _ _ _ Htail Hh) as [Hh' Hcols'].
  exists (PyStr <$> names), rows. split_and!; try done.
  intros c. rewrite Hcols', Hcols, !elem_of_PyStr_fmap. done.
Qed.

(** X14.  When the frame returned by [fc_to_df] has a [millis] column, its
  [timestamp] column holds, row by row, the datetime at [millis / 1000]
  seconds, and that column is the index of the frame; a frame without
  [millis] has the default index. *)
Theorem fc_to_df_timestamp_index fc selectors log df log' :
  fc_to_df fc selectors log = (Ret df, log') →
  if bool_decide ("millis" ∈ df_columns df)
  then ∃ millis ts,
         df_getitem df "millis" log' = (Ret millis, log') ∧
         df_getitem df "timestamp" log' = (Ret ts, log') ∧
         df_index df = Some ts ∧
         Forall2 datetime_of_ms millis ts
  else df_index df = None.
Proof.
  intros (l & rows & df0 & lg & _ & _ & Hdf & Htail)%fc_to_df_Ret.
  apply pd_DataFrame_Ret in Hdf.
  by destruct (frame_tail_Ret _ _ _ _ Htail Hdf) as [_ Hidx].
Qed.

End Frame.

(** ** Properties copied by [create_reduce_regions] *)

Section ReduceProps.
Context `{EarthEngine}.

Lemma feature_set_lookup f kw v k :
  f_props (feature_set f kw v) !! k
  = if decide (k = kw) then v else f_props f !! k.
Proof.
  destruct v as [v|]; cbn; case_decide as Hk.
  - subst. apply lookup_insert_eq.
  - by apply lookup_insert_ne.
  - subst. apply lookup_delete_eq.
  - by apply lookup_delete_ne.
Qed.

Lemma feature_set_geometry f kw v :
  f_geometry (feature_set f kw v) = f_geometry f.
Proof. by destruct v. Qed.

Lemma set_props_geometry img props f :
  f_geometry (foldl (λ f kw, feature_set f kw (r_props img !! kw)) f props)
  = f_geometry f.
Proof.
  revert f. induction props as [|kw props IH]; intros f; [done|].
  cbn [foldl]. by rewrite IH, feature_set_geometry.
Qed.

Lemma set_props_lookup img props f k :
  f_props (foldl (λ f kw, feature_set f kw (r_props img !! kw)) f props) !! k
  = if decide (k ∈ props) then r_props img !! k else f_props f !! k.
Proof.
  revert f. induction props as [|kw props IH]; intros f.
  - cbn. by rewrite decide_False by apply not_elem_of_nil.
  - cbn [foldl]. rewrite IH, feature_set_lookup.
    destruct (decide (k ∈ props)) as [Hin|Hin].
    + rewrite decide_True by (by right). done.
    + destruct (decide (k = kw)) as [->|Hne].
      * rewrite decide_True by (by left). done.
      * rewrite decide_False; [done|].
        intros [?|?]%elem_of_cons; done.
Qed.

(** X15.  The function made by [create_reduce_regions] returns the features
  of the reduction in their order with their geometry.  Apart from [millis]
  when the date is added, a property not named in [add_props] is as the
  reduction left it, and a property named there that the image has takes the
  image's value. *)
Theorem reduce_regions_props collection reducer add_date add_props crs scale
    img fc :
  create_reduce_regions collection reducer add_date add_props crs scale img
  = Some fc →
  ∃ d,
    eng_reduceRegions img collection reducer crs scale = Some d ∧
    Forall2 (λ f f',
      f_geometry f' = f_geometry f ∧
      ∀ k, (add_date = true → k ≠ "millis") →
        (k ∉ default [] add_props → f_props f' !! k = f_props f !! k) ∧
        (∀ v, k ∈ default [] add_props → r_props img !! k = Some v →
              f_props f' !! k = Some v)) d fc.
Proof.
  unfold create_reduce_regions.
  destruct (eng_reduceRegions _ _ _ _ _) as [d|]; [|done].
  cbn [mbind option_bind]. intros Hrun. exists d. split; [done|].
  set (g := λ f : Feature,
         match add_props with
         | Some props =>
             foldl (λ f kw, feature_set f kw (r_props img !! kw)) f props
         | None => f
         end).
  assert (Hd : match add_props with
               | Some props =>
                   (λ f, foldl (λ f kw, feature_set f kw (r_props img !! kw))
                           f props) <$> d
               | None => d
               end = g <$> d).
  { subst g. destruct add_props; [done|]. by rewrite list_fmap_id. }
  rewrite Hd in Hrun. clear Hd.
  assert (Hg_geo : ∀ f, f_geometry (g f) = f_geometry f).
  { intros f. subst g. destruct add_props; [apply set_props_geometry|done]. }
  assert (Hg : ∀ f k,
    f_props (g f) !! k
    = if decide (k ∈ default [] add_props) then r_props img !! k
      else f_props f !! k).
  { intros f k. subst g. destruct add_props as [props|]; cbn [default].
    - apply set_props_lookup.
    - by rewrite decide_False by apply not_elem_of_nil. }
  destruct add_date.
  - apply mapM_Some in Hrun. apply Forall2_fmap_l in Hrun.
    eapply Forall2_impl; [exact Hrun|]. intros f f' Hset. cbv beta in Hset.
    destruct (date_millis img) as [t|]; [|done].
    cbn [mbind option_bind] in Hset. injection Hset as <-.
    cbn [f_geometry f_props]. split; [apply Hg_geo|].
    intros k Hk. rewrite lookup_insert_ne by (symmetry; by apply Hk).
    rewrite Hg. split.
    + intros Hnin. by rewrite decide_False.
    + intros v Hin Hv. by rewrite decide_True.
  - injection Hrun as <-. apply Forall2_fmap_r, Forall_Forall2_diag.
    apply Forall_forall. intros f _. split; [apply Hg_geo|].
    intros k _. rewrite Hg. split.
    + intros Hnin. by rewrite decide_False.
    + intros v Hin Hv. by rewrite decide_True.
Qed.

End ReduceProps.

(** ** Polygons *)

(** X16.  [shapely_to_ee_poly] makes a planar polygon in the given projection
  with one ring, whose vertices are the exterior coordinates paired in
  order; with as many x as y coordinates the ring gives both lists back. *)
Theorem shapely_to_ee_poly_ring xx yy crs :
  ∃ ring,
    shapely_to_ee_poly (mkShapelyPolygon (xx, yy)) crs
    = Geometry_Polygon [ring] crs false ∧
    length ring = length xx `min` length yy ∧
    (∀ i x y, ring !! i = Some (x, y) ↔ xx !! i = Some x ∧ yy !! i = Some y) ∧
    (length xx = length yy → ring.*1 = xx ∧ ring.*2 = yy).
Proof.
  exists (zip xx yy). split_and!.
  - reflexivity.
  - apply length_zip.
  - intros i x y. apply lookup_zip_Some.
  - intros Hlen. split; [apply fst_zip|apply snd_zip]; lia.
Qed.


(** * The theorems at the example scene *)

Lemma add_cloud_bands_threshold_witness :
  ∃ r' clouds,
    @eval_img flat_engine (add_cloud_bands (Asset scene)) = Some r' ∧
    band_lookup r' "clouds" = Some clouds ∧
    clouds (0, 0)%Z = Some 1%Q.
Proof.
  destruct (@add_cloud_bands_threshold flat_engine (Asset scene) scene prob_x1
              (λ _, Some 50%Q))
    as (_ & r' & clouds & Heval & Hlook & Hpx).
  - reflexivity.
  - vm_compute. reflexivity.
  - by_compute.
  - reflexivity.
  - by_compute.
  - by_compute.
  - exists r', clouds. split; [exact Heval|]. split; [exact Hlook|].
    apply (Hpx (0, 0)%Z). reflexivity.
Defined.

Lemma add_shadow_bands_layers_witness :
  ∃ r' shadows,
    @eval_img flat_engine (add_shadow_bands (Asset cloud_scene) true) = Some r' ∧
    band_lookup r' "shadows" = Some shadows ∧
    shadows (0, 0)%Z = Some (1 * (1 * 0))%Q.
Proof.
  destruct (@add_shadow_bands_layers flat_engine (Asset cloud_scene) true
              cloud_scene (uniform "B4" 900)
              [uniform "B8" 1000; uniform "SCL" 6; uniform "probability" 50;
               uniform "clouds" 1]
              (λ _, Some 1%Q) (λ _, Some 1000%Q)
              (λ _, binop_px OpNeq (Some 6%Q) (Some 6%Q)) 160)
    as (r' & dp & ct & sh & Heval & _ & _ & Hlook & Hdp & _ & Hct & Hsh & _).
  - reflexivity.
  - by_compute.
  - reflexivity.
  - reflexivity.
  - reflexivity.
  - reflexivity.
  - vm_compute. reflexivity.
  - by_compute.
  - by_compute.
  - by_compute.
  - exists r', sh. split; [exact Heval|]. split; [exact Hlook|].
    rewrite Hsh, Hct, Hdp. reflexivity.
Defined.

Lemma cloudmask_morphology_witness :
  ∃ r' cloudmask,
    @eval_img flat_engine (add_cld_shdw_mask (Asset scene) true) = Some r' ∧
    band_lookup r' "cloudmask" = Some cloudmask.
Proof.
  destruct (@cloudmask_morphology flat_engine (Asset scene) true scene
              (uniform "B4" 900) [uniform "B8" 1000; uniform "SCL" 6]
              prob_x1 (λ _, Some 50%Q) (λ _, Some 1000%Q)
              (λ _, binop_px OpNeq (Some 6%Q) (Some 6%Q)) 160)
    as (_ & _ & _ & r' & cl & sh & cm & Heval & _ & _ & Hlook & _).
  - reflexivity.
  - by_compute.
  - reflexivity.
  - vm_compute. reflexivity.
  - by_compute.
  - reflexivity.
  - reflexivity.
  - reflexivity.
  - vm_compute. reflexivity.
  - repeat constructor; by_compute.
  - exists r', cm. split; [exact Heval|exact Hlook].
Defined.

Lemma band_growth_witness :
  ∃ r',
    @eval_img flat_engine (add_cloud_bands (Asset scene)) = Some r' ∧
    strict_superset (band_names scene) (band_names r').
Proof.
  destruct (@eval_img flat_engine (add_cloud_bands (Asset scene))) as [r'|] eqn:He.
  - exists r'. split; [reflexivity|].
    apply (@band_growth flat_engine (Asset scene) scene eq_refl). exact He.
  - vm_compute in He. discriminate He.
Defined.

Lemma apply_cld_shdw_mask_spec_witness :
  is_Some (@eval_img flat_engine (apply_cld_shdw_mask (Asset masked_scene))).
Proof.
  apply (@apply_cld_shdw_mask_spec flat_engine (Asset masked_scene) masked_scene
           (λ _, Some 1%Q)).
  - reflexivity.
  - by_compute.
  - reflexivity.
  - exists "B4". split; [by_compute|]. by exists "4".
Defined.

Lemma reduce_regions_millis_witness :
  ∃ fc,
    @create_reduce_regions flat_engine [region_a; region_b] tt true
      (Some ["CLOUDY_PIXEL_PERCENTAGE"]) CRS 20 scene = Some fc ∧
    length fc = 2 ∧
    ∀ f, f ∈ fc → f_props f !! "millis" = Some (PNum 1000).
Proof.
  destruct (@reduce_regions_millis flat_engine [region_a; region_b] tt
              (Some ["CLOUDY_PIXEL_PERCENTAGE"]) CRS 20 scene _ 1000 eq_refl)
    as (fc & Heval & Hlen & Hall & _).
  - vm_compute. reflexivity.
  - by exists fc.
Defined.

Lemma errors_before_any_request_witness :
  @fc_to_df flat_service (Table []) (PyStr "millis") [] = (Raise AssertionError, []) ∧
  @fc_to_dict (Table []) [] = (Raise NotImplementedError, []) ∧
  @create_df flat_service (Table []) [] = (Raise NotImplementedError, []).
Proof.
  apply (@errors_before_any_request flat_service (Table []) (Table [])
           (PyStr "millis") []).
  - discriminate.
  - reflexivity.
Defined.


(** * The further theorems at the example scene *)

Lemma stages_keep_input_witness :
  ∃ r' b8,
    @eval_img flat_engine (add_cloud_bands (Asset scene)) = Some r' ∧
    r_props r' = r_props scene ∧
    band_lookup scene "B8" = Some b8 ∧
    band_lookup r' "B8" = Some b8.
Proof.
  destruct (@eval_img flat_engine (add_cloud_bands (Asset scene)))
    as [r'|] eqn:He.
  - destruct (@stages_keep_input flat_engine (Asset scene) scene r' eq_refl
                (or_introl He)) as (Hprops & _ & Hlook).
    exists r', (λ _, Some 1000%Q). split; [reflexivity|].
    split; [exact Hprops|]. split; [reflexivity|].
    apply Hlook. reflexivity.
  - vm_compute in He. discriminate He.
Defined.

Lemma pipeline_returns_reflectance_witness :
  ∃ r',
    @eval_img flat_engine
      (apply_cld_shdw_mask (add_cld_shdw_mask (Asset scene) true)) = Some r' ∧
    r_props r' = r_props scene ∧
    ∀ n, n ∈ band_names r' ↔ n ∈ band_names scene ∧ reflectance_name n.
Proof.
  destruct (@eval_img flat_engine
              (apply_cld_shdw_mask (add_cld_shdw_mask (Asset scene) true)))
    as [r'|] eqn:He.
  - destruct (@pipeline_returns_reflectance flat_engine (Asset scene) true
                scene r' eq_refl) as (Hprops & Hnames & _).
    + by_compute.
    + exact He.
    + exists r'. split; [reflexivity|]. split; [exact Hprops|exact Hnames].
  - vm_compute in He. discriminate He.
Defined.

Lemma missing_SCL_fails_witness :
  @eval_img flat_engine (add_shadow_bands (Asset masked_scene) true) = None ∧
  @eval_img flat_engine (add_cld_shdw_mask (Asset masked_scene) true) = None ∧
  @eval_img flat_engine
    (apply_cld_shdw_mask (add_cld_shdw_mask (Asset masked_scene) true)) = None.
Proof.
  apply (@missing_SCL_fails flat_engine (Asset masked_scene) masked_scene).
  - reflexivity.
  - by_compute.
Defined.

Lemma add_cloud_bands_needs_probability_witness :
  @eval_img flat_engine (add_cloud_bands (Asset scene_x1)) = None.
Proof.
  apply (@add_cloud_bands_needs_probability flat_engine (Asset scene_x1)
           scene_x1).
  - reflexivity.
  - vm_compute. exact I.
Defined.

Lemma add_cld_shdw_mask_band_order_witness :
  ∃ r',
    @eval_img flat_engine (add_cld_shdw_mask (Asset scene) true) = Some r' ∧
    band_names r'
    = ["B4"; "B8"; "SCL"; "probability"; "clouds"; "dark_pixels";
       "cloud_transform"; "shadows"; "cloudmask"].
Proof.
  destruct (@add_cld_shdw_mask_band_order flat_engine (Asset scene) true scene
              (uniform "B4" 900) [uniform "B8" 1000; uniform "SCL" 6]
              prob_x1 (λ _, Some 50%Q) (λ _, Some 1000%Q)
              (λ _, binop_px OpNeq (Some 6%Q) (Some 6%Q)) 160)
    as (r' & Heval & Hnames & _).
  - reflexivity.
  - by_compute.
  - reflexivity.
  - vm_compute. reflexivity.
  - by_compute.
  - reflexivity.
  - reflexivity.
  - reflexivity.
  - vm_compute. reflexivity.
  - repeat constructor; by_compute.
  - exists r'. split; [exact Heval|exact Hnames].
Defined.

Lemma raw_mask_is_union_witness :
  ∃ r2 clouds shadows,
    @eval_img flat_engine (add_shadow_bands (add_cloud_bands (Asset scene)) true)
    = Some r2 ∧
    band_lookup r2 "clouds" = Some clouds ∧
    band_lookup r2 "shadows" = Some shadows.
Proof.
  destruct (@raw_mask_is_union flat_engine (Asset scene) true scene
              (uniform "B4" 900) [uniform "B8" 1000; uniform "SCL" 6]
              prob_x1 (λ _, Some 50%Q) (λ _, Some 1000%Q)
              (λ _, binop_px OpNeq (Some 6%Q) (Some 6%Q)) 160)
    as (_ & _ & r2 & clouds & shadows & _ & _ & _ & Heval & Hc & Hs & _).
  - reflexivity.
  - by_compute.
  - reflexivity.
  - vm_compute. reflexivity.
  - by_compute.
  - reflexivity.
  - reflexivity.
  - reflexivity.
  - vm_compute. reflexivity.
  - repeat constructor; by_compute.
  - by exists r2, clouds, shadows.
Defined.

Lemma derived_bands_boolean_witness :
  ∃ r' cloudmask,
    @eval_img flat_engine (add_cld_shdw_mask (Asset scene) true) = Some r' ∧
    band_lookup r' "cloudmask" = Some cloudmask ∧
    ∀ x, is_bit (cloudmask x).
Proof.
  destruct (@derived_bands_boolean flat_engine (Asset scene) true scene
              (uniform "B4" 900) [uniform "B8" 1000; uniform "SCL" 6]
              prob_x1 (λ _, Some 50%Q) (λ _, Some 1000%Q)
              (λ _, binop_px OpNeq (Some 6%Q) (Some 6%Q)) 160)
    as (r' & _ & _ & _ & _ & cm & Heval & _ & _ & _ & _ & Hcm & _ & Hbits).
  - reflexivity.
  - by_compute.
  - reflexivity.
  - vm_compute. reflexivity.
  - by_compute.
  - reflexivity.
  - reflexivity.
  - reflexivity.
  - vm_compute. reflexivity.
  - repeat constructor; by_compute.
  - exists r', cm. split; [exact Heval|]. split; [exact Hcm|].
    apply Hbits.
    + intros q f Hf x. apply Hf.
    + intros q f Hf x. apply Hf.
    + intros p q f Hf x. apply Hf.
Defined.

Lemma joined_images_pass_filters_witness :
  ∃ p c,
    scene = raster_set p "s2cloudless" (PImg c) ∧
    p ∈ @eng_catalog flat_engine "COPERNICUS/S2" ∧
    c ∈ @eng_catalog flat_engine "COPERNICUS/S2_CLOUD_PROBABILITY".
Proof.
  destruct (@joined_images_pass_filters flat_engine
              (Geometry_Rectangle [0; 0; 1; 1]%Q "epsg:3413" false true)
              0 5000 scene)
    as (p & c & Ho & Hp & Hc & _).
  - vm_compute. apply list_elem_of_here.
  - by exists p, c.
Defined.

Lemma joined_order_witness :
  (r_bands <$>
     @eval_coll flat_engine
       (get_s2_sr_cld_col
          (Geometry_Rectangle [0; 0; 1; 1]%Q "epsg:3413" false true) 0 5000))
    `sublist_of` (r_bands <$> [scene_x1; scene_x2]).
Proof.
  destruct (@joined_order flat_engine
              (Geometry_Rectangle [0; 0; 1; 1]%Q "epsg:3413" false true)
              0 5000)
    as (_ & Hbands & _).
  exact Hbands.
Defined.

Lemma fc_to_df_frame_witness :
  ∃ df log' l rows,
    @fc_to_df table_service dated_table (PyList [PyStr "first"; PyStr "millis"]) []
    = (Ret df, log') ∧
    @answer table_service (ReduceColumns_toList dated_table (length l) (PyList l))
    = Ret (PyList rows) ∧
    (∀ c, c ∈ df_columns df ↔
          PyStr c ∈ l ∨ c = "timestamp" ∧ PyStr "millis" ∈ l) ∧
    df_height df (length rows).
Proof.
  destruct (@fc_to_df table_service dated_table
              (PyList [PyStr "first"; PyStr "millis"]) [])
    as [[df|e] log'] eqn:He.
  - destruct (@fc_to_df_frame table_service dated_table
                (PyList [PyStr "first"; PyStr "millis"]) [] df log' He)
      as (l & rows & _ & Hrows & Hcols & Hh).
    by exists df, log', l, rows.
  - vm_compute in He. discriminate He.
Defined.

Lemma fc_to_df_timestamp_index_witness :
  ∃ df log',
    @fc_to_df table_service dated_table PyNone [] = (Ret df, log') ∧
    if bool_decide ("millis" ∈ df_columns df)
    then ∃ millis ts,
           df_getitem df "millis" log' = (Ret millis, log') ∧
           df_getitem df "timestamp" log' = (Ret ts, log') ∧
           df_index df = Some ts ∧
           Forall2 datetime_of_ms millis ts
    else df_index df = None.
Proof.
  destruct (@fc_to_df table_service dated_table PyNone [])
    as [[df|e] log'] eqn:He.
  - exists df, log'. split; [reflexivity|].
    exact (@fc_to_df_timestamp_index table_service dated_table PyNone [] df
             log' He).
  - vm_compute in He. discriminate He.
Defined.

Lemma reduce_regions_props_witness :
  ∃ fc d,
    @create_reduce_regions flat_engine [region_a; region_b] tt true
      (Some ["CLOUDY_PIXEL_PERCENTAGE"]) CRS 20 scene = Some fc ∧
    @eng_reduceRegions flat_engine scene [region_a; region_b] tt CRS 20
    = Some d ∧
    Forall2 (λ f f', f_geometry f' = f_geometry f) d fc.
Proof.
  destruct (@create_reduce_regions flat_engine [region_a; region_b] tt true
              (Some ["CLOUDY_PIXEL_PERCENTAGE"]) CRS 20 scene)
    as [fc|] eqn:He.
  - destruct (@reduce_regions_props flat_engine [region_a; region_b] tt true
                (Some ["CLOUDY_PIXEL_PERCENTAGE"]) CRS 20 scene fc He)
      as (d & Hd & Hall).
    exists fc, d. split; [reflexivity|]. split; [exact Hd|].
    eapply Forall2_impl; [exact Hall|]. intros f f' [Hgeo _]. exact Hgeo.
  - vm_compute in He. discriminate He.
Defined.

Lemma shapely_to_ee_poly_ring_witness :
  ∃ ring,
    shapely_to_ee_poly (mkShapelyPolygon ([0; 1; 1]%Q, [0; 0; 1]%Q)) CRS
    = Geometry_Polygon [ring] CRS false ∧
    ring.*1 = [0; 1; 1]%Q ∧ ring.*2 = [0; 0; 1]%Q.
Proof.
  destruct (shapely_to_ee_poly_ring [0; 1; 1]%Q [0; 0; 1]%Q CRS)
    as (ring & Hpoly & _ & _ & Hxy).
  exists ring. split; [exact Hpoly|]. apply Hxy. reflexivity.
Defined.
